(** * Frogberry: the engine, its supervised task loops and the collector
    streams, as a shallow embedding.

    The TypeScript sources are [engine.ts] (class [Engine]) and the
    collectors ([BlockCollector], [BlockCollectorBun], its worker script and
    [IntervalCollectorBun]).  JavaScript numbers that hold millisecond
    durations and counters are integers here ([Z]); array lengths are [nat].
    Calls to [logger] are left out: they change neither state nor control,
    except where a log line is built from a thrown value that does not
    convert to a string, which is modelled apart in [Unconvertible]. *)

From stdpp Require Import gmap strings list sorting.
From Stdlib Require Import ZArith Lia DecimalString DecimalZ DecimalPos.

(** ** Exceptions and results *)

(** [ChannelErrorType] of [utils/broadcast_channel]; the loops test for
    [CLOSED] and [LAGGED] and have an [else] branch for any other type. *)
Inductive ChannelErrorType := CLOSED | LAGGED | UNKNOWN.

(** What a JavaScript [throw] can carry here: a [ChannelError] or a plain
    [Error] with its message.  These are values that a template literal can
    turn into a string; the thrown values that it cannot are in
    [Unconvertible] below.  An error of a subclass of [Error] that the
    runtime raises (a [TypeError]) is written as a [JsError] whose message
    starts with the name of the subclass. *)
Inductive Exn :=
  | ChannelError (ty : ChannelErrorType) (msg : string)
  | JsError (msg : string).

(** The string a template literal [`${e}`] makes of a thrown [Error]: its
    name, then a colon and the message when there is one. *)
Definition exn_to_string (e : Exn) : string :=
  match e with
  | ChannelError _ msg =>
      if decide (msg = "") then "ChannelError" else "ChannelError: " +:+ msg
  | JsError msg => if decide (msg = "") then "Error" else "Error: " +:+ msg
  end.

Inductive Result (A : Type) :=
  | Ok (a : A)
  | Err (e : Exn).
Arguments Ok {A} a.
Arguments Err {A} e.

(** Code that reads and writes a state [S] and may throw: assignments made
    before a [throw] stay, as in JavaScript. *)
Definition SE (S A : Type) : Type := S → Result A * S.

#[global] Instance SE_ret {S} : MRet (SE S) := λ A a s, (Ok a, s).
#[global] Instance SE_bind {S} : MBind (SE S) := λ A B f c s,
  match c s with
  | (Ok a, s') => f a s'
  | (Err e, s') => (Err e, s')
  end.

Definition throw {S A} (e : Exn) : SE S A := λ s, (Err e, s).

(** [try { c } catch (e) { h e }] *)
Definition try_catch {S A} (c : SE S A) (h : Exn → SE S A) : SE S A := λ s,
  match c s with
  | (Ok a, s') => (Ok a, s')
  | (Err e, s') => h e s'
  end.

(** An awaited promise of a collaborator: it resolves or rejects. *)
Definition await {S A} (r : Result A) : SE S A := λ s, (r, s).

Definition get {S} : SE S S := λ s, (Ok s, s).
Definition modify {S} (f : S → S) : SE S unit := λ s, (Ok (), f s).

Definition when {S} (b : bool) (c : SE S unit) : SE S unit := if b then c else mret ().

(** [IteratorResult<T>]: [{ done: false, value }] or [{ done: true }]. *)
Inductive IteratorResult (T : Type) :=
  | IterValue (value : T)
  | IterDone.
Arguments IterValue {T} value.
Arguments IterDone {T}.

(** ** Configuration *)

Record BroadcastChannelConfig := {
  throwOnLag : bool;
  lagReportInterval : nat;
}.

Record EngineConfig := {
  eventChannelCapacity : nat;
  actionChannelCapacity : nat;
  eventChannelConfig : BroadcastChannelConfig;
  actionChannelConfig : BroadcastChannelConfig;
  maxConsecutiveErrors : Z;
  initialBackoffMs : Z;
  maxBackoffMs : Z;
  stopOnCriticalError : bool;
  registerSigintHandler : bool;
  sigintShutdownTimeoutMs : Z;
  exitProcessOnSigint : bool;
}.

(** The defaults of the [Engine] constructor. *)
Definition default_config : EngineConfig := {|
  eventChannelCapacity := 512;
  actionChannelCapacity := 512;
  eventChannelConfig := {| throwOnLag := false; lagReportInterval := 100 |};
  actionChannelConfig := {| throwOnLag := false; lagReportInterval := 100 |};
  maxConsecutiveErrors := 5;
  initialBackoffMs := 100;
  maxBackoffMs := 30000;
  stopOnCriticalError := false;
  registerSigintHandler := false;
  sigintShutdownTimeoutMs := 5000;
  exitProcessOnSigint := false;
|}.

Definition withStopOnCriticalError (stop : bool) (c : EngineConfig) : EngineConfig := {|
  eventChannelCapacity := eventChannelCapacity c;
  actionChannelCapacity := actionChannelCapacity c;
  eventChannelConfig := eventChannelConfig c;
  actionChannelConfig := actionChannelConfig c;
  maxConsecutiveErrors := maxConsecutiveErrors c;
  initialBackoffMs := initialBackoffMs c;
  maxBackoffMs := maxBackoffMs c;
  stopOnCriticalError := stop;
  registerSigintHandler := registerSigintHandler c;
  sigintShutdownTimeoutMs := sigintShutdownTimeoutMs c;
  exitProcessOnSigint := exitProcessOnSigint c;
|}.

(** ** The supervised task loops: [runExecutor], [runStrategy], [runCollector] *)

Module Supervisor.
Local Open Scope Z_scope.

(** What a loop does to the outside: the backoff sleep and the call of
    [this.stop()]. *)
Inductive Effect :=
  | Sleep (ms : Z)
  | StopEngine.

(** The two local variables of a loop, and the effects so far. *)
Record Mem := {
  consecutiveErrors : Z;
  backoffMs : Z;
  effects : list Effect;
}.

Abbreviation M := (SE Mem).

Definition get_consecutiveErrors : M Z := λ m, (Ok (consecutiveErrors m), m).
Definition get_backoffMs : M Z := λ m, (Ok (backoffMs m), m).
Definition set_consecutiveErrors (n : Z) : M unit := modify (λ m,
  {| consecutiveErrors := n; backoffMs := backoffMs m; effects := effects m |}).
Definition set_backoffMs (b : Z) : M unit := modify (λ m,
  {| consecutiveErrors := consecutiveErrors m; backoffMs := b; effects := effects m |}).
Definition emit (e : Effect) : M unit := modify (λ m,
  {| consecutiveErrors := consecutiveErrors m; backoffMs := backoffMs m;
     effects := effects m ++ [e] |}).

(** [await new Promise((resolve) => setTimeout(resolve, ms))] *)
Definition sleep (ms : Z) : M unit := emit (Sleep ms).
(** [await this.stop()]; [stop] has no [throw]. *)
Definition stop_engine : M unit := emit StopEngine.

Inductive Control := Continue | Break.

(** One pass through the [try] block, as the collaborators decide it: what
    [receiver.next()] (or [eventStream.next()]) gives, and what the call on
    the value ([executor.execute], [strategy.processEvent],
    [eventChannel.send]) gives. *)
Record Attempt (V : Type) := {
  next_result : Result (IteratorResult V);
  call_result : V → Result unit;
}.
Arguments next_result {V} a.
Arguments call_result {V} a v.

(** What the loop meets at the top of an iteration: [this.running] read as
    false, or an attempt. *)
Inductive Tick (V : Type) :=
  | SeenStopped
  | Running (a : Attempt V).
Arguments SeenStopped {V}.
Arguments Running {V} a.

Definition is_closed (e : Exn) : bool :=
  match e with
  | ChannelError CLOSED _ => true
  | _ => false
  end.

Section Loop.
Context {V : Type}.
Variable cfg : EngineConfig.

(** "Reset backoff on success" *)
Definition reset_on_success : M unit :=
  n ← get_consecutiveErrors;
  if 0 <? n then
    set_consecutiveErrors 0;; set_backoffMs (initialBackoffMs cfg)
  else mret ().

(** The [try] block. *)
Definition try_block (a : Attempt V) : M Control :=
  result ← await (next_result a);
  match result with
  | IterDone => mret Break
  | IterValue value =>
      await (call_result a value);;
      reset_on_success;;
      mret Continue
  end.

(** "Implement exponential backoff" *)
Definition exponential_backoff : M unit :=
  n ← get_consecutiveErrors;
  if maxConsecutiveErrors cfg <? n then
    b ← get_backoffMs;
    let newBackoff := Z.min (b * 2) (maxBackoffMs cfg) in
    when (negb (newBackoff =? b)) (set_backoffMs newBackoff);;
    b' ← get_backoffMs;
    sleep b'
  else mret ().

(** "Stop the engine on critical error if configured to do so" *)
Definition critical_stop : M Control :=
  n ← get_consecutiveErrors;
  if stopOnCriticalError cfg && (maxConsecutiveErrors cfg * 2 <? n) then
    stop_engine;; mret Break
  else mret Continue.

(** The [catch (e)] block of the loop body. *)
Definition catch_block (e : Exn) : M Control :=
  n ← get_consecutiveErrors;
  set_consecutiveErrors (n + 1);;
  if is_closed e then mret Break
  else
    exponential_backoff;;
    critical_stop.

Definition iteration (a : Attempt V) : M Control :=
  try_catch (try_block a) catch_block.

(** How far a loop got on a finite script. *)
Inductive LoopExit := Exited | Awaiting.

(** [while (this.running) { try { ... } catch (e) { ... } }]: the script
    gives one tick per iteration; when it is used up the loop is still
    waiting in its [await]. *)
Fixpoint while_running (script : list (Tick V)) : M LoopExit :=
  match script with
  | [] => mret Awaiting
  | SeenStopped :: _ => mret Exited
  | Running a :: rest =>
      c ← iteration a;
      match c with
      | Break => mret Exited
      | Continue => while_running rest
      end
  end.

Definition init_mem : Mem :=
  {| consecutiveErrors := 0; backoffMs := initialBackoffMs cfg; effects := [] |}.

(** The state of the promise an [async] function returned. *)
Inductive Promise := Pending | Resolved | Rejected (e : Exn).

Definition settle (r : Result LoopExit * Mem) : Promise * Mem :=
  match r with
  | (Ok Exited, m) => (Resolved, m)
  | (Ok Awaiting, m) => (Pending, m)
  | (Err e, m) => (Rejected e, m)
  end.

(** [runExecutor] and [runStrategy]: the loop inside the outer
    [try { ... } catch (e) { logger.error(...) }]. *)
Definition supervised (script : list (Tick V)) : Promise * Mem :=
  settle (try_catch (while_running script) (λ _, mret Exited) init_mem).

Definition runExecutor := supervised.
Definition runStrategy := supervised.

(** [runCollector]: [await collector.getEventStream()] is inside the
    outer [try], before the loop. *)
Definition runCollector (getEventStream : Result unit) (script : list (Tick V))
  : Promise * Mem :=
  settle (try_catch (await getEventStream;; while_running script)
                    (λ _, mret Exited) init_mem).


End Loop.

(** The error an attempt raises in the [try] block, if any. *)
Definition attempt_error {V} (a : Attempt V) : option Exn :=
  match next_result a with
  | Err e => Some e
  | Ok IterDone => None
  | Ok (IterValue v) =>
      match call_result a v with
      | Err e => Some e
      | Ok _ => None
      end
  end.



Definition sleeps (l : list Effect) : list Z :=
  omap (λ e, match e with Sleep ms => Some ms | StopEngine => None end) l.

Definition stops (l : list Effect) : list unit :=
  omap (λ e, match e with Sleep _ => None | StopEngine => Some () end) l.



(** The counters of a loop in their range: the count is not negative,
    the backoff is between the initial and the maximal one and is the initial
    one when no error is counted, and so was every sleep. *)
Definition in_range (cfg : EngineConfig) (m : Mem) : Prop :=
  0 ≤ consecutiveErrors m ∧
  initialBackoffMs cfg ≤ backoffMs m ≤ maxBackoffMs cfg ∧
  (consecutiveErrors m = 0 → backoffMs m = initialBackoffMs cfg) ∧
  Forall (λ ms, initialBackoffMs cfg ≤ ms ≤ maxBackoffMs cfg) (sleeps (effects m)).

(** Scripts for examples. *)
Definition call_throws (e : Exn) : Tick nat :=
  Running {| next_result := Ok (IterValue 0%nat); call_result := λ _, Err e |}.
Definition call_returns : Tick nat :=
  Running {| next_result := Ok (IterValue 0%nat); call_result := λ _, Ok () |}.

End Supervisor.

(** ** Thrown values that do not convert to a string

    The [catch] blocks of the loops put the caught value in a template
    literal for their log line.  [Exn] has the values for which that works.
    For a Symbol, or an object without a usable [toString], the literal
    itself throws a [TypeError], inside the [catch] block. *)
Module Unconvertible.
Import Supervisor.
Local Open Scope Z_scope.

(** A thrown value, by what the template literal makes of it. *)
Inductive Thrown :=
  | Converts (e : Exn)
  | NoString.

(** The [TypeError] of the template literal. *)
Definition cannot_convert : Exn :=
  JsError "TypeError: Cannot convert a Symbol value to a string".

(** The text of the value inside a template literal. *)
Definition template (v : Thrown) : Result string :=
  match v with
  | Converts e => Ok (exn_to_string e)
  | NoString => Err cannot_convert
  end.

(** A log line that names the value: [logger.error] of a template
    literal with the value in it. *)
Definition log_line (v : Thrown) : M unit :=
  match template v with
  | Ok _ => mret ()
  | Err e => throw e
  end.

(** A tick of a loop: one of [Supervisor], where whatever is thrown
    converts, or an attempt in which [next()] or the call on the item throws
    a value that does not. *)
Inductive Tick (V : Type) :=
  | Plain (t : Supervisor.Tick V)
  | ThrowsNoString.
Arguments Plain {V} t.
Arguments ThrowsNoString {V}.

(** What [await collector.getEventStream()] gives. *)
Inductive Opened :=
  | StreamOpened
  | OpenThrows (v : Thrown).

Section Loop.
Context {V : Type}.
Variable cfg : EngineConfig.

(** The [catch (e)] block of the loop body.  A value that does not
    convert is no [ChannelError]: the block counts it and comes to the
    log line of its [else] branch. *)
Definition catch_block (v : Thrown) : M Control :=
  match v with
  | Converts e => Supervisor.catch_block cfg e
  | NoString =>
      n ← get_consecutiveErrors;
      set_consecutiveErrors (n + 1);;
      log_line NoString;;
      exponential_backoff cfg;;
      critical_stop cfg
  end.

Fixpoint while_running (script : list (Tick V)) : M LoopExit :=
  match script with
  | [] => mret Awaiting
  | Plain SeenStopped :: _ => mret Exited
  | Plain (Running a) :: rest =>
      c ← iteration cfg a;
      match c with
      | Break => mret Exited
      | Continue => while_running rest
      end
  | ThrowsNoString :: rest =>
      c ← catch_block NoString;
      match c with
      | Break => mret Exited
      | Continue => while_running rest
      end
  end.

(** The outer [catch (e) { logger.error(`... ${e}`) }]. *)
Definition outer_catch (v : Thrown) : M LoopExit :=
  log_line v;; mret Exited.

Definition supervised (script : list (Tick V)) : Promise * Mem :=
  settle (try_catch (while_running script) (λ e, outer_catch (Converts e))
            (init_mem cfg)).

Definition runExecutor := supervised.
Definition runStrategy := supervised.

Definition runCollector (getEventStream : Opened) (script : list (Tick V))
  : Promise * Mem :=
  match getEventStream with
  | StreamOpened => supervised script
  | OpenThrows v => settle (outer_catch v (init_mem cfg))
  end.

End Loop.

End Unconvertible.

(** ** The broadcast channel *)

Module Channel.

Section Chan.
Context {T : Type}.

(** Modelled from the spec: class [Subscription] of
    [utils/broadcast_channel.ts], which is not among the sources: a
    bounded queue of undelivered items, the receivers blocked in
    [next()], the lag counter and the failed mark of the alternate
    overflow policy.  [delivered] is the history of the items handed to
    the consumer, oldest first; [ended] counts the reads answered with
    end-of-stream. *)
Record Subscription := {
  queue : list T;
  waiters : nat;
  lag : nat;
  failed : bool;
  delivered : list T;
  ended : nat;
}.

(** Modelled from the spec: class [BroadcastChannel] of
    [utils/broadcast_channel.ts], which is not among the sources: a fixed
    capacity per subscriber queue, the overflow policy, the closed flag
    and the active subscriptions, keyed by the order of [subscribe()]. *)
Record BroadcastChannel := {
  capacity : nat;
  chanConfig : BroadcastChannelConfig;
  closed : bool;
  subs : gmap nat Subscription;
  nextId : nat;
}.

(** Modelled from the spec: the constructor
    [new BroadcastChannel(capacity, config)], missing with the class. *)
Definition new (cap : nat) (cfg : BroadcastChannelConfig) : BroadcastChannel :=
  {| capacity := cap; chanConfig := cfg; closed := false; subs := ∅; nextId := 0 |}.

(** Modelled from the spec: a subscription as [subscribe()] makes it,
    missing with the class. *)
Definition empty_subscription : Subscription :=
  {| queue := []; waiters := 0; lag := 0; failed := false; delivered := []; ended := 0 |}.

(** A channel with its subscriptions changed by [f]. *)
Definition with_subs (f : gmap nat Subscription → gmap nat Subscription)
    (ch : BroadcastChannel) : BroadcastChannel :=
  {| capacity := capacity ch; chanConfig := chanConfig ch; closed := closed ch;
     subs := f (subs ch); nextId := nextId ch |}.

(** Modelled from the spec: [subscribe()], missing with the class: a new
    subscription that receives every item sent after this call. *)
Definition subscribe (ch : BroadcastChannel) : nat * BroadcastChannel :=
  (nextId ch,
   {| capacity := capacity ch; chanConfig := chanConfig ch; closed := closed ch;
      subs := <[nextId ch := empty_subscription]> (subs ch);
      nextId := S (nextId ch) |}).

(** Modelled from the spec: what [send] does to one subscription: a
    blocked receiver is woken with the item; otherwise the item is
    appended, and a queue longer than the capacity loses its oldest item,
    with the lag counter incremented (default policy) or the subscription
    marked failed ([throwOnLag]). *)
Definition offer (cap : nat) (cfg : BroadcastChannelConfig) (item : T)
    (s : Subscription) : Subscription :=
  match waiters s with
  | S w =>
      {| queue := queue s; waiters := w; lag := lag s; failed := failed s;
         delivered := delivered s ++ [item]; ended := ended s |}
  | O =>
      let q := queue s ++ [item] in
      if decide (cap < length q) then
        {| queue := tail q; waiters := 0;
           lag := if throwOnLag cfg then lag s else S (lag s);
           failed := if throwOnLag cfg then true else failed s;
           delivered := delivered s; ended := ended s |}
      else
        {| queue := q; waiters := 0; lag := lag s; failed := failed s;
           delivered := delivered s; ended := ended s |}
  end.

(** Modelled from the spec: [send(item)], missing with the class: fails
    with [ChannelClosed] on a closed channel, otherwise offers the item to
    every active subscription. *)
Definition send (item : T) (ch : BroadcastChannel) : Result unit * BroadcastChannel :=
  if closed ch then (Err (ChannelError CLOSED "Channel closed"), ch)
  else (Ok (), with_subs (fmap (offer (capacity ch) (chanConfig ch) item)) ch).

(** Modelled from the spec: what [close] does to one subscription,
    missing with the class: its blocked receivers get end-of-stream and
    its buffered items are dropped. *)
Definition end_of_stream (s : Subscription) : Subscription :=
  {| queue := []; waiters := 0; lag := lag s; failed := failed s;
     delivered := delivered s; ended := ended s + waiters s |}.

(** Modelled from the spec: [close()], missing with the class: marks the
    channel closed, wakes every blocked receiver with end-of-stream and
    clears all buffered items. *)
Definition close (ch : BroadcastChannel) : BroadcastChannel :=
  {| capacity := capacity ch; chanConfig := chanConfig ch; closed := true;
     subs := end_of_stream <$> subs ch; nextId := nextId ch |}.

(** Modelled from the spec: what a call of [next()] gives at once: an
    item, end-of-stream, or a promise that is still pending. *)
Inductive NextResult :=
  | NextItem (v : T)
  | NextEnd
  | NextSuspended.

(** Modelled from the spec: a subscription's [next()], missing with the
    class: the oldest queued item; on an empty queue the caller is
    suspended while the channel is open and gets end-of-stream once it is
    closed. *)
Definition next (id : nat) (ch : BroadcastChannel) : NextResult * BroadcastChannel :=
  match subs ch !! id with
  | None => (NextEnd, ch)
  | Some s =>
      match queue s with
      | v :: q =>
          (NextItem v,
           with_subs (insert id
             {| queue := q; waiters := waiters s; lag := lag s; failed := failed s;
                delivered := delivered s ++ [v]; ended := ended s |}) ch)
      | [] =>
          if closed ch then
            (NextEnd,
             with_subs (insert id
               {| queue := []; waiters := waiters s; lag := lag s; failed := failed s;
                  delivered := delivered s; ended := S (ended s) |}) ch)
          else
            (NextSuspended,
             with_subs (insert id
               {| queue := []; waiters := S (waiters s); lag := lag s;
                  failed := failed s; delivered := delivered s; ended := ended s |}) ch)
      end
  end.

(** Modelled from the spec: a subscription's [unsubscribe()], missing
    with the class: it leaves the channel's active set. *)
Definition unsubscribe (id : nat) (ch : BroadcastChannel) : BroadcastChannel :=
  with_subs (delete id) ch.

(** A channel in use: producers send, consumers read. *)
Inductive Op :=
  | OSend (item : T)
  | ONext (id : nat).

Definition exec_op (ch : BroadcastChannel) (o : Op) : BroadcastChannel :=
  match o with
  | OSend item => (send item ch).2
  | ONext id => (next id ch).2
  end.

Definition exec (ops : list Op) (ch : BroadcastChannel) : BroadcastChannel :=
  foldl exec_op ch ops.

Definition sent (ops : list Op) : list T :=
  omap (λ o, match o with OSend item => Some item | ONext _ => None end) ops.

(** An open channel with [k] subscriptions, numbered from 0. *)
Definition opened (cap : nat) (cfg : BroadcastChannelConfig) (k : nat) : BroadcastChannel :=
  Nat.iter k (λ ch, (subscribe ch).2) (new cap cfg).

(** What the consumer of subscription [id] has received so far. *)
Definition observed (id : nat) (ch : BroadcastChannel) : list T :=
  match subs ch !! id with
  | Some s => delivered s
  | None => []
  end.

Definition backlog (id : nat) (ch : BroadcastChannel) : list T :=
  match subs ch !! id with
  | Some s => queue s
  | None => []
  end.

(** The subscription [id] has lost an item to overflow. *)
Definition lagged (id : nat) (ch : BroadcastChannel) : bool :=
  match subs ch !! id with
  | Some s => negb (lag s =? 0) || failed s
  | None => false
  end.

(** What holds of a subscription of an open channel on which [sent] was
    sent since it subscribed: no reader waits on a non-empty queue, what
    it was given and what it still holds is part of [sent], in order,
    and all of it unless an item was lost to overflow, which takes more
    than [cap] items. *)
Record sub_inv (cap : nat) (sent : list T) (s : Subscription) : Prop := {
  inv_waiting : waiters s = 0 ∨ queue s = [];
  inv_sublist : sublist (delivered s ++ queue s) sent;
  inv_complete : lag s = 0 → failed s = false → delivered s ++ queue s = sent;
  inv_lagged : cap < length sent ∨ (lag s = 0 ∧ failed s = false);
}.

(** An open channel whose first [k] subscriptions are in step with
    what was sent. *)
Definition chan_inv (k : nat) (sent : list T) (ch : BroadcastChannel) : Prop :=
  closed ch = false ∧
  ∀ id, id < k → ∃ s, subs ch !! id = Some s ∧ sub_inv (capacity ch) sent s.

(** The consumer of [id] reads until its queue is empty. *)
Definition drain (id : nat) (ch : BroadcastChannel) : BroadcastChannel :=
  exec (replicate (length (backlog id ch)) (ONext id)) ch.

End Chan.

Arguments Subscription : clear implicits.
Arguments BroadcastChannel : clear implicits.
Arguments Op : clear implicits.
Arguments NextResult : clear implicits.

End Channel.

(** ** The engine: [run] and [stop] *)

Module Engine.
Import Channel.

(** The collaborators, as far as [run] looks at them: [name()], and the
    optional [syncState] hook with what awaiting it gives. *)
Record Collector := { collector_name : string }.
Record Executor := { executor_name : string }.
Record Strategy := {
  strategy_name : string;
  syncState : option (Result unit);
}.

(** A registered participant, by its position in its list. *)
Inductive Participant :=
  | PExecutor (i : nat)
  | PStrategy (i : nat)
  | PCollector (i : nat).

(** A subscription object: the channel it belongs to and its number there. *)
Record SubRef := { sub_chan : nat; sub_id : nat }.

(** A started task loop with the objects it was given. *)
Inductive Task :=
  | ExecutorTask (i : nat) (receiver : SubRef)
  | StrategyTask (i : nat) (eventReceiver : SubRef) (actionSubmitter : nat)
  | CollectorTask (i : nat).

Definition task_participant (t : Task) : Participant :=
  match t with
  | ExecutorTask i _ => PExecutor i
  | StrategyTask i _ _ => PStrategy i
  | CollectorTask i => PCollector i
  end.

(** What [run] and [stop] do, in the order they do it. *)
Inductive Event :=
  | RunningSet (b : bool)
  | Registered
  | EventChannelCreated (ref : nat)
  | ActionChannelCreated (ref : nat)
  | Subscribed (p : Participant) (r : SubRef)
  | SyncStateCalled (i : nat)
  | Spawned (p : Participant)
  | EventChannelClosed (ref : nat)
  | ActionChannelClosed (ref : nat)
  | CleanedUp
  | Unregistered.

(** When a promise settles, in milliseconds after [stop] was called. *)
Inductive Settle := At (t : Z) | Never.

Section Eng.
Context {E A : Type}.

(** The fields of the [Engine] object, then the objects it shares with
    its tasks: the channels live in a store and are held by reference, the
    static [Engine.runningEngines] holds engine identities. *)
Record State := {
  collectors : list Collector;
  strategies : list Strategy;
  executors : list Executor;
  config : EngineConfig;
  running : bool;
  tasks : list Task;
  eventChannel : option nat;
  actionChannel : option nat;
  eventHeap : gmap nat (BroadcastChannel E);
  actionHeap : gmap nat (BroadcastChannel A);
  runningEngines : list nat;
  log : list Event;
}.

Definition set_running (b : bool) (s : State) : State :=
  {| collectors := collectors s; strategies := strategies s; executors := executors s;
     config := config s; running := b; tasks := tasks s;
     eventChannel := eventChannel s; actionChannel := actionChannel s;
     eventHeap := eventHeap s; actionHeap := actionHeap s;
     runningEngines := runningEngines s; log := log s |}.

Definition set_tasks (l : list Task) (s : State) : State :=
  {| collectors := collectors s; strategies := strategies s; executors := executors s;
     config := config s; running := running s; tasks := l;
     eventChannel := eventChannel s; actionChannel := actionChannel s;
     eventHeap := eventHeap s; actionHeap := actionHeap s;
     runningEngines := runningEngines s; log := log s |}.

Definition set_eventChannel (r : option nat) (s : State) : State :=
  {| collectors := collectors s; strategies := strategies s; executors := executors s;
     config := config s; running := running s; tasks := tasks s;
     eventChannel := r; actionChannel := actionChannel s;
     eventHeap := eventHeap s; actionHeap := actionHeap s;
     runningEngines := runningEngines s; log := log s |}.

Definition set_actionChannel (r : option nat) (s : State) : State :=
  {| collectors := collectors s; strategies := strategies s; executors := executors s;
     config := config s; running := running s; tasks := tasks s;
     eventChannel := eventChannel s; actionChannel := r;
     eventHeap := eventHeap s; actionHeap := actionHeap s;
     runningEngines := runningEngines s; log := log s |}.

Definition set_eventHeap (h : gmap nat (BroadcastChannel E)) (s : State) : State :=
  {| collectors := collectors s; strategies := strategies s; executors := executors s;
     config := config s; running := running s; tasks := tasks s;
     eventChannel := eventChannel s; actionChannel := actionChannel s;
     eventHeap := h; actionHeap := actionHeap s;
     runningEngines := runningEngines s; log := log s |}.

Definition set_actionHeap (h : gmap nat (BroadcastChannel A)) (s : State) : State :=
  {| collectors := collectors s; strategies := strategies s; executors := executors s;
     config := config s; running := running s; tasks := tasks s;
     eventChannel := eventChannel s; actionChannel := actionChannel s;
     eventHeap := eventHeap s; actionHeap := h;
     runningEngines := runningEngines s; log := log s |}.

Definition set_runningEngines (l : list nat) (s : State) : State :=
  {| collectors := collectors s; strategies := strategies s; executors := executors s;
     config := config s; running := running s; tasks := tasks s;
     eventChannel := eventChannel s; actionChannel := actionChannel s;
     eventHeap := eventHeap s; actionHeap := actionHeap s;
     runningEngines := l; log := log s |}.

Definition record (e : Event) (s : State) : State :=
  {| collectors := collectors s; strategies := strategies s; executors := executors s;
     config := config s; running := running s; tasks := tasks s;
     eventChannel := eventChannel s; actionChannel := actionChannel s;
     eventHeap := eventHeap s; actionHeap := actionHeap s;
     runningEngines := runningEngines s; log := log s ++ [e] |}.

(** A new engine: [new Engine(config)] followed by the [add...] calls. *)
Definition create (cfg : EngineConfig) (cs : list Collector) (ss : list Strategy)
    (xs : list Executor) : State :=
  {| collectors := cs; strategies := ss; executors := xs; config := cfg;
     running := false; tasks := []; eventChannel := None; actionChannel := None;
     eventHeap := ∅; actionHeap := ∅; runningEngines := []; log := [] |}.

Definition addCollector (c : Collector) (s : State) : State :=
  {| collectors := collectors s ++ [c]; strategies := strategies s;
     executors := executors s;
     config := config s; running := running s; tasks := tasks s;
     eventChannel := eventChannel s; actionChannel := actionChannel s;
     eventHeap := eventHeap s; actionHeap := actionHeap s;
     runningEngines := runningEngines s; log := log s |}.


(** The identity of [this] engine in [Engine.runningEngines]. *)
Variable self : nat.

Definition log_event (e : Event) : SE State unit := modify (record e).

(** What JavaScript raises on [undefined.subscribe()]. *)
Definition type_error : Exn := JsError "TypeError: undefined is not an object".

(** [this.actionChannel.subscribe()] *)
Definition subscribe_action (p : Participant) : SE State SubRef :=
  s ← get;
  match actionChannel s with
  | Some ref =>
      match actionHeap s !! ref with
      | Some ch =>
          let r := {| sub_chan := ref; sub_id := (subscribe ch).1 |} in
          modify (set_actionHeap (<[ref := (subscribe ch).2]> (actionHeap s)));;
          log_event (Subscribed p r);;
          mret r
      | None => throw type_error
      end
  | None => throw type_error
  end.

(** [this.eventChannel.subscribe()] *)
Definition subscribe_event (p : Participant) : SE State SubRef :=
  s ← get;
  match eventChannel s with
  | Some ref =>
      match eventHeap s !! ref with
      | Some ch =>
          let r := {| sub_chan := ref; sub_id := (subscribe ch).1 |} in
          modify (set_eventHeap (<[ref := (subscribe ch).2]> (eventHeap s)));;
          log_event (Subscribed p r);;
          mret r
      | None => throw type_error
      end
  | None => throw type_error
  end.

(** [this.tasks.push(...)]: the loop starts when its [async] function is
    called. *)
Definition push_task (t : Task) : SE State unit :=
  modify (λ s, set_tasks (tasks s ++ [t]) s);;
  log_event (Spawned (task_participant t)).

(** "Spawn executors" *)
Fixpoint spawn_executors (i : nat) (xs : list Executor) : SE State unit :=
  match xs with
  | [] => mret ()
  | _ :: rest =>
      receiver ← subscribe_action (PExecutor i);
      push_task (ExecutorTask i receiver);;
      spawn_executors (S i) rest
  end.

(** "Sync state if the strategy implements it" *)
Definition sync_state (i : nat) (strategy : Strategy) : SE State unit :=
  match syncState strategy with
  | Some outcome =>
      log_event (SyncStateCalled i);;
      try_catch (await outcome)
        (λ e, throw (JsError ("Failed to sync state for " +:+ strategy_name strategy
                              +:+ ": " +:+ exn_to_string e)))
  | None => mret ()
  end.

(** "Spawn strategies" *)
Fixpoint spawn_strategies (i : nat) (ss : list Strategy) : SE State unit :=
  match ss with
  | [] => mret ()
  | strategy :: rest =>
      eventReceiver ← subscribe_event (PStrategy i);
      s ← get;
      match actionChannel s with
      | Some actionSubmitter =>
          sync_state i strategy;;
          push_task (StrategyTask i eventReceiver actionSubmitter);;
          spawn_strategies (S i) rest
      | None => throw type_error
      end
  end.

(** "Spawn collectors" *)
Fixpoint spawn_collectors (i : nat) (cs : list Collector) : SE State unit :=
  match cs with
  | [] => mret ()
  | _ :: rest =>
      push_task (CollectorTask i);;
      spawn_collectors (S i) rest
  end.

(** "Create broadcast channels for events and actions" *)
Definition create_channels : SE State unit :=
  s ← get;
  let eref := fresh (dom (eventHeap s)) in
  let aref := fresh (dom (actionHeap s)) in
  modify (set_eventHeap
    (<[eref := new (eventChannelCapacity (config s)) (eventChannelConfig (config s))]>
       (eventHeap s)));;
  modify (set_eventChannel (Some eref));;
  log_event (EventChannelCreated eref);;
  modify (set_actionHeap
    (<[aref := new (actionChannelCapacity (config s)) (actionChannelConfig (config s))]>
       (actionHeap s)));;
  modify (set_actionChannel (Some aref));;
  log_event (ActionChannelCreated aref).

(** [async run(): Promise<Promise<void>[]>].  The awaited [syncState]
    hooks are taken with their outcome; no other method of the engine is
    called while [run] waits for them. *)
Definition run : SE State (list Task) :=
  s ← get;
  if decide (length (executors s) = 0) then throw (JsError "No executors")
  else if decide (length (collectors s) = 0) then throw (JsError "No collectors")
  else if decide (length (strategies s) = 0) then throw (JsError "No strategies")
  else if running s then throw (JsError "Engine is already running")
  else
    modify (set_running true);;
    log_event (RunningSet true);;
    modify (λ s, set_runningEngines (runningEngines s ++ [self]) s);;
    log_event Registered;;
    create_channels;;
    modify (set_tasks []);;
    spawn_executors 0 (executors s);;
    spawn_strategies 0 (strategies s);;
    spawn_collectors 0 (collectors s);;
    s' ← get;
    mret (tasks s').

(** [cleanupResources()] *)
Definition cleanupResources : SE State unit :=
  modify (set_eventChannel None);;
  modify (set_actionChannel None);;
  modify (set_tasks []);;
  log_event CleanedUp.

(** [forceCleanup()] *)
Definition forceCleanup : SE State unit := cleanupResources.

(** [if (this.eventChannel) { this.eventChannel.close(); }] *)
Definition close_eventChannel : SE State unit :=
  s ← get;
  match eventChannel s with
  | Some ref =>
      modify (set_eventHeap (alter close ref (eventHeap s)));;
      log_event (EventChannelClosed ref)
  | None => mret ()
  end.

Definition close_actionChannel : SE State unit :=
  s ← get;
  match actionChannel s with
  | Some ref =>
      modify (set_actionHeap (alter close ref (actionHeap s)));;
      log_event (ActionChannelClosed ref)
  | None => mret ()
  end.

(** [indexOf] and [splice(index, 1)]: the first occurrence goes. *)
Fixpoint remove_first (x : nat) (l : list nat) : list nat :=
  match l with
  | [] => []
  | y :: rest => if decide (y = x) then rest else y :: remove_first x rest
  end.

(** Timers and promise combinators, by the time they settle.
    [setTimeout] is called at [now]; delays are whole milliseconds
    ([timeoutMs / 2] is rounded down, as a timer does).  This is the
    timer for a delay from 1 to 2147483647 ms; a delay outside that range
    is run at 1 ms by the runtime, which is not in this definition. *)
Definition setTimeout (now ms : Z) : Settle := At (now + ms).

Definition race (a b : Settle) : Settle :=
  match a, b with
  | At x, At y => At (Z.min x y)
  | At x, Never => At x
  | Never, _ => b
  end.

(** [Promise.all] made at [now]: settled when the last one is. *)
Definition all (now : Z) (l : list Settle) : Settle :=
  foldr (λ a acc, match a, acc with
                  | At x, At y => At (Z.max x y)
                  | _, _ => Never
                  end) (At now) l.

Definition taskTimeout (timeoutMs : Z) : Z := Z.min (timeoutMs / 2) 2000.

(** [shutdownPromise]: the channels are closed at once; 100 ms later the
    tasks are raced, each and all together, against [taskTimeout]. *)
Definition shutdownPromise (timeoutMs : Z) (tasksDone : list Settle) : Settle :=
  race (all 100 (map (λ task, race task (setTimeout 100 (taskTimeout timeoutMs)))
                     tasksDone))
       (setTimeout 100 (taskTimeout timeoutMs)).



(** The hard timeout fired before the race was over, or at the same
    time: its timer was set first. *)
Definition forced (timeoutMs : Z) (tasksDone : list Settle) : bool :=
  match shutdownPromise timeoutMs tasksDone with
  | At t => bool_decide (timeoutMs ≤ t)%Z
  | Never => true
  end.

(** [async stop(timeoutMs = 5000): Promise<void>]; [tasksDone] tells when
    each task of [this.tasks] settles, if ever.  No other method of the
    engine is called while [stop] waits.  The timer of the hard timeout is
    never cleared: when the race is over first, [forceCleanup] still runs
    at [timeoutMs], after [stop] has returned; that later step is not part
    of this function, it is [hardTimeout] below. *)
Definition stop (timeoutMs : Z) (tasksDone : list Settle) : SE State unit :=
  s ← get;
  if negb (running s) then mret ()
  else
    modify (set_running false);;
    log_event (RunningSet false);;
    close_eventChannel;;
    close_actionChannel;;
    when (forced timeoutMs tasksDone) forceCleanup;;
    cleanupResources;;
    modify (λ s, set_runningEngines (remove_first self (runningEngines s)) s);;
    log_event Unregistered.

(** The callback of the timer that [stop] sets for its hard timeout
    ([logger.warn], [this.forceCleanup()], [resolve()]).  [stop] never
    clears the timer: when the race was over first, the callback runs
    [timeoutMs] after the call of [stop], on the engine as it is then. *)
Definition hardTimeout : SE State unit := forceCleanup.

(** *** What [run] leaves behind, written out *)

(** [ts] more tasks and [evs] more events. *)
Definition advance (ts : list Task) (evs : list Event) (s : State) : State :=
  {| collectors := collectors s; strategies := strategies s; executors := executors s;
     config := config s; running := running s; tasks := tasks s ++ ts;
     eventChannel := eventChannel s; actionChannel := actionChannel s;
     eventHeap := eventHeap s; actionHeap := actionHeap s;
     runningEngines := runningEngines s; log := log s ++ evs |}.

Definition subscribe_times {T} (n : nat) (ch : BroadcastChannel T) : BroadcastChannel T :=
  Nat.iter n (λ ch, (subscribe ch).2) ch.

(** The tasks and events of [n] executors from position [i], with
    subscriptions numbered from [base] on the action channel [ar]. *)
Fixpoint executor_tasks (ar i base n : nat) : list Task :=
  match n with
  | O => []
  | S n =>
      ExecutorTask i {| sub_chan := ar; sub_id := base |}
        :: executor_tasks ar (S i) (S base) n
  end.

Fixpoint executor_events (ar i base n : nat) : list Event :=
  match n with
  | O => []
  | S n =>
      Subscribed (PExecutor i) {| sub_chan := ar; sub_id := base |}
        :: Spawned (PExecutor i) :: executor_events ar (S i) (S base) n
  end.

(** A strategy whose hook, if it has one, returns. *)
Definition syncs (strategy : Strategy) : bool :=
  match syncState strategy with
  | Some (Err _) => false
  | _ => true
  end.

Definition sync_events (i : nat) (strategy : Strategy) : list Event :=
  match syncState strategy with
  | Some _ => [SyncStateCalled i]
  | None => []
  end.

(** The strategies whose loop is started: those before the first one
    whose hook throws. *)
Fixpoint started (ss : list Strategy) : list Strategy :=
  match ss with
  | [] => []
  | strategy :: rest => if syncs strategy then strategy :: started rest else []
  end.

(** The number of subscriptions taken for the strategies: one for each
    started one, and one for the one whose hook throws. *)
Fixpoint strategy_subscriptions (ss : list Strategy) : nat :=
  match ss with
  | [] => 0
  | strategy :: rest => S (if syncs strategy then strategy_subscriptions rest else 0)
  end.

Fixpoint strategy_tasks (er ar i base : nat) (ss : list Strategy) : list Task :=
  match ss with
  | [] => []
  | strategy :: rest =>
      if syncs strategy then
        StrategyTask i {| sub_chan := er; sub_id := base |} ar
          :: strategy_tasks er ar (S i) (S base) rest
      else []
  end.

Fixpoint strategy_events (er i base : nat) (ss : list Strategy) : list Event :=
  match ss with
  | [] => []
  | strategy :: rest =>
      Subscribed (PStrategy i) {| sub_chan := er; sub_id := base |}
        :: sync_events i strategy ++
           (if syncs strategy
            then Spawned (PStrategy i) :: strategy_events er (S i) (S base) rest
            else [])
  end.

(** The error of the first hook that throws, as [run] rethrows it. *)
Fixpoint sync_failure (ss : list Strategy) : option Exn :=
  match ss with
  | [] => None
  | strategy :: rest =>
      match syncState strategy with
      | Some (Err e) =>
          Some (JsError ("Failed to sync state for " +:+ strategy_name strategy
                         +:+ ": " +:+ exn_to_string e))
      | _ => sync_failure rest
      end
  end.

Fixpoint collector_tasks (i n : nat) : list Task :=
  match n with
  | O => []
  | S n => CollectorTask i :: collector_tasks (S i) n
  end.

(** The tasks and the events of a whole [run] that gets through its
    checks, with the channels at [er] and [ar]. *)
Definition run_tasks (er ar : nat) (s : State) : list Task :=
  executor_tasks ar 0 0 (length (executors s)) ++
  strategy_tasks er ar 0 0 (strategies s) ++
  match sync_failure (strategies s) with
  | Some _ => []
  | None => collector_tasks 0 (length (collectors s))
  end.

Definition run_events (er ar : nat) (s : State) : list Event :=
  [RunningSet true; Registered; EventChannelCreated er; ActionChannelCreated ar] ++
  executor_events ar 0 0 (length (executors s)) ++
  strategy_events er 0 0 (strategies s) ++
  match sync_failure (strategies s) with
  | Some _ => []
  | None => Spawned ∘ task_participant <$> collector_tasks 0 (length (collectors s))
  end.

(** The events of a [stop] on a running engine. *)
Definition stop_events (timeoutMs : Z) (tasksDone : list Settle) (s : State)
    : list Event :=
  [RunningSet false] ++
  match eventChannel s with Some ref => [EventChannelClosed ref] | None => [] end ++
  match actionChannel s with Some ref => [ActionChannelClosed ref] | None => [] end ++
  (if forced timeoutMs tasksDone then [CleanedUp] else []) ++
  [CleanedUp; Unregistered].

(** [run] gets through its checks. *)
Definition runnable (s : State) : Prop :=
  executors s ≠ [] ∧ collectors s ≠ [] ∧ strategies s ≠ [] ∧ running s = false.

Definition subscribers (evs : list Event) : list Participant :=
  omap (λ e, match e with Subscribed p _ => Some p | _ => None end) evs.

Definition spawned (evs : list Event) : list Participant :=
  omap (λ e, match e with Spawned p => Some p | _ => None end) evs.

(** The errors of [run] that the caller is meant to see. *)
Definition is_configuration_error (e : Exn) : Prop :=
  e = JsError "No executors" ∨ e = JsError "No collectors" ∨
  e = JsError "No strategies" ∨ e = JsError "Engine is already running".


End Eng.

Arguments State : clear implicits.
Arguments subscribe_times {T} n ch : simpl never.

(** Engines for examples: events and actions are numbers. *)
Definition printer : Executor := {| executor_name := "PrinterExecutor" |}.
Definition interval : Collector := {| collector_name := "IntervalCollector" |}.
Definition simple : Strategy :=
  {| strategy_name := "SimpleStrategy"; syncState := Some (Ok ()) |}.
Definition plain : Strategy :=
  {| strategy_name := "BlockStrategy"; syncState := None |}.
Definition broken : Strategy :=
  {| strategy_name := "BrokenStrategy"; syncState := Some (Err (JsError "no state")) |}.

Definition example_engine : State nat nat :=
  create default_config [interval] [simple; plain] [printer].
Definition example_without_executors : State nat nat :=
  create default_config [interval] [simple; plain] [].
Definition example_broken : State nat nat :=
  create default_config [interval] [simple; broken; plain] [printer; printer].


End Engine.

(** ** The collector streams *)

(** The closure state every [getEventStream] keeps: [queue], [resolvers]
    and [done].  A pending promise of [next()] is named by a number, and a
    step of the stream lists the promises it settles, in order. *)
Module Buffer.

Section Buf.
Context {T : Type}.

Record t := {
  queue : list T;
  resolvers : list nat;
  done : bool;
}.

Definition Resolution : Type := nat * IteratorResult T.

Definition empty : t := {| queue := []; resolvers := []; done := false |}.

(** "If there are waiting resolvers, resolve one with the item;
    otherwise, add the item to the queue" and "Limit queue size". *)
Definition push (maxQueueSize : nat) (item : T) (b : t) : t * list Resolution :=
  match resolvers b with
  | resolve :: rest =>
      ({| queue := queue b; resolvers := rest; done := done b |},
       [(resolve, IterValue item)])
  | [] =>
      let q := queue b ++ [item] in
      ({| queue := if decide (maxQueueSize < length q) then tail q else q;
          resolvers := []; done := done b |}, [])
  end.

(** The iterator's [next()]; [pid] names the promise it returns. *)
Definition next (pid : nat) (b : t) : t * list Resolution :=
  if done b then (b, [(pid, IterDone)])
  else
    match queue b with
    | item :: q =>
        ({| queue := q; resolvers := resolvers b; done := done b |},
         [(pid, IterValue item)])
    | [] =>
        ({| queue := []; resolvers := resolvers b ++ [pid]; done := done b |}, [])
    end.

(** "Mark as done" and "Resolve any waiting resolvers with done". *)
Definition finish (b : t) : t * list Resolution :=
  ({| queue := queue b; resolvers := []; done := true |},
   (λ resolver, (resolver, IterDone)) <$> resolvers b).

(** "Clear the queue": [queue.length = 0]. *)
Definition clear (b : t) : t :=
  {| queue := []; resolvers := resolvers b; done := done b |}.

(** The [cleanup] closure of a stream, without what it does to timers
    and processes. *)
Definition cleanup (b : t) : t * list Resolution :=
  (clear (finish b).1, (finish b).2).

(** A buffer that is done and has no reader left. *)
Definition over (b : t) : Prop := done b = true ∧ resolvers b = [].

(** The items handed to the consumer. *)
Definition values (out : list Resolution) : list T :=
  omap (λ r, match r.2 with IterValue v => Some v | IterDone => None end) out.

End Buf.

Arguments t : clear implicits.
Arguments Resolution : clear implicits.

End Buffer.

(** Steps of a stream, run one after the other; the settled promises are
    collected in order. *)
Definition run_trace {S O R} (step : O → S → S * list R) (ops : list O) (s : S)
    : S * list R :=
  foldl (λ acc o, ((step o acc.1).1, acc.2 ++ (step o acc.1).2)) (s, []) ops.

(** The [number] of a block as it can arrive: a [bigint], [null] or
    [undefined]. *)
Inductive BlockNumber :=
  | Undefined
  | Null
  | Number (n : Z).

(** The [bigint], when it is one. *)
Definition bigint_of (v : BlockNumber) : option Z :=
  match v with
  | Number n => Some n
  | _ => None
  end.

(** [a > b] on such values: [null] counts as 0, and a comparison with
    [undefined] is false. *)
Definition js_gt (a b : BlockNumber) : bool :=
  match a, b with
  | Number x, Number y => (y <? x)%Z
  | Number x, Null => (0 <? x)%Z
  | Null, Number y => (y <? 0)%Z
  | _, _ => false
  end.

(** A block: its [number] and the rest. *)
Record Block := {
  number : BlockNumber;
  body : nat;
}.

(** [IntervalCollectorBun.getEventStream] *)
Module IntervalCollectorBun.

(** An IPC message: an object with a string [timestamp], or anything else. *)
Inductive Message :=
  | Timestamp (timestamp : string)
  | Other.

(** [new Date(timestamp)], kept as its string. *)
Definition Date : Type := string.

Definition Stream : Type := Buffer.t Date.

Definition ipc (message : Message) (s : Stream) : Stream * list (Buffer.Resolution Date) :=
  match message with
  | Timestamp timestamp => Buffer.push 100 timestamp s
  | Other => (s, [])
  end.

Definition onExit (s : Stream) : Stream * list (Buffer.Resolution Date) :=
  Buffer.finish s.

Definition cleanup (s : Stream) : Stream * list (Buffer.Resolution Date) :=
  Buffer.cleanup s.

Definition next (pid : nat) (s : Stream) : Stream * list (Buffer.Resolution Date) :=
  Buffer.next pid s.

(** The iterator's [return()].  Its own promise is fulfilled as its body
    ends; the promise of a [next()] that was waiting is that of an [async]
    function which returned the inner promise, and follows the inner one
    a microtask after [cleanup] resolved it. *)
Definition return_ (pid : nat) (s : Stream) : Stream * list (Buffer.Resolution Date) :=
  ((cleanup s).1, (pid, IterDone) :: (cleanup s).2).

Inductive Op :=
  | Ipc (message : Message)
  | OnExit
  | Next (pid : nat)
  | Return (pid : nat).

Definition step (o : Op) (s : Stream) : Stream * list (Buffer.Resolution Date) :=
  match o with
  | Ipc message => ipc message s
  | OnExit => onExit s
  | Next pid => next pid s
  | Return pid => return_ pid s
  end.

End IntervalCollectorBun.

(** [BlockCollectorBun.getEventStream] *)
Module BlockCollectorBun.

(** An IPC message of the worker, by its [type]; the [data] of a block
    message is the serialized block. *)
Inductive Message :=
  | Ready (transportType : string)
  | Error (message : string)
  | BlockData (data : string)
  | Other.

Definition Stream : Type := Buffer.t Block.

Section Stream.
(** [this.config.maxQueueSize ?? 100] *)
Variable maxQueueSize : nat.
(** [JSON.parse] with the reviver; [None] when it throws. *)
Variable parse : string → option Block.

Definition ipc (message : Message) (s : Stream) : Stream * list (Buffer.Resolution Block) :=
  match message with
  | BlockData data =>
      match parse data with
      | Some block => Buffer.push maxQueueSize block s
      | None => (s, [])
      end
  | _ => (s, [])
  end.

Definition onExit (s : Stream) : Stream * list (Buffer.Resolution Block) :=
  Buffer.finish s.

Definition cleanup (s : Stream) : Stream * list (Buffer.Resolution Block) :=
  Buffer.cleanup s.

Definition next (pid : nat) (s : Stream) : Stream * list (Buffer.Resolution Block) :=
  Buffer.next pid s.

(** [return()]: its own promise first, then those of the [next()] calls
    that were waiting. *)
Definition return_ (pid : nat) (s : Stream) : Stream * list (Buffer.Resolution Block) :=
  ((cleanup s).1, (pid, IterDone) :: (cleanup s).2).

Inductive Op :=
  | Ipc (message : Message)
  | OnExit
  | Next (pid : nat)
  | Return (pid : nat).

Definition step (o : Op) (s : Stream) : Stream * list (Buffer.Resolution Block) :=
  match o with
  | Ipc message => ipc message s
  | OnExit => onExit s
  | Next pid => next pid s
  | Return pid => return_ pid s
  end.
End Stream.

End BlockCollectorBun.

(** The worker script of [BlockCollectorBun]: [sendBlock]. *)
Module BlockCollectorWorker.

(** The module variable [lastBlockNumber]: [null] ([None]) or the
    [bigint] of the last block sent. *)
Record Worker := { lastBlockNumber : option Z }.

Definition start : Worker := {| lastBlockNumber := None |}.

(** [sendBlock(block)]: the new state and the block sent to the parent,
    if one is. *)
Definition sendBlock (block : Block) (w : Worker) : Worker * list Block :=
  match number block with
  | Undefined | Null => (w, [])
  | Number n =>
      match lastBlockNumber w with
      | None => ({| lastBlockNumber := Some n |}, [block])
      | Some l =>
          if (l <? n)%Z then ({| lastBlockNumber := Some n |}, [block])
          else (w, [])
      end
  end.

End BlockCollectorWorker.

(** [BlockCollector]: the WebSocket stream of [getEventStream] and
    [getPollingEventStream]. *)
Module BlockCollector.

Record BlockCollectorConfig := {
  pollingIntervalMs : Z;
  maxQueueSize : nat;
  includeTransactions : bool;
}.

Definition default_config : BlockCollectorConfig :=
  {| pollingIntervalMs := 1000; maxQueueSize := 100; includeTransactions := false |}.

Section Streams.
Variable config : BlockCollectorConfig.

(** *** The WebSocket stream.  [abortController] is replaced by a new
    one in the same step that aborts it, so no check ever finds it
    aborted; it is left out. *)
Record WsStream := {
  ws_buffer : Buffer.t Block;
  ws_lastBlockNumber : BlockNumber;
  ws_watching : bool;
}.

Definition ws_start : WsStream :=
  {| ws_buffer := Buffer.empty; ws_lastBlockNumber := Null; ws_watching := true |}.

(** "Only process if it's a new block":
    [lastBlockNumber === null || block.number > lastBlockNumber]. *)
Definition is_new (lastBlockNumber n : BlockNumber) : bool :=
  match lastBlockNumber with
  | Null => true
  | _ => js_gt n lastBlockNumber
  end.

(** The [onBlock] callback of [watchBlocks]. *)
Definition onBlock (block : Block) (s : WsStream) : WsStream * list (Buffer.Resolution Block) :=
  if Buffer.done (ws_buffer s) then (s, [])
  else
    match number block with
    | Undefined => (s, [])
    | n =>
        if is_new (ws_lastBlockNumber s) n then
          ({| ws_buffer := (Buffer.push (maxQueueSize config) block (ws_buffer s)).1;
              ws_lastBlockNumber := n;
              ws_watching := ws_watching s |},
           (Buffer.push (maxQueueSize config) block (ws_buffer s)).2)
        else (s, [])
    end.

(** [cleanupFn] *)
Definition cleanupFn (s : WsStream) : WsStream * list (Buffer.Resolution Block) :=
  ({| ws_buffer := (Buffer.cleanup (ws_buffer s)).1;
      ws_lastBlockNumber := ws_lastBlockNumber s;
      ws_watching := false |},
   (Buffer.cleanup (ws_buffer s)).2).

Definition ws_next (pid : nat) (s : WsStream) : WsStream * list (Buffer.Resolution Block) :=
  ({| ws_buffer := (Buffer.next pid (ws_buffer s)).1;
      ws_lastBlockNumber := ws_lastBlockNumber s;
      ws_watching := ws_watching s |},
   (Buffer.next pid (ws_buffer s)).2).

(** [return()]: its own promise first, then those of the [next()] calls
    that were waiting. *)
Definition ws_return (pid : nat) (s : WsStream) : WsStream * list (Buffer.Resolution Block) :=
  ((cleanupFn s).1, (pid, IterDone) :: (cleanupFn s).2).

Inductive WsOp :=
  | OnBlock (block : Block)
  | WsNext (pid : nat)
  | WsReturn (pid : nat).

Definition ws_step (o : WsOp) (s : WsStream) : WsStream * list (Buffer.Resolution Block) :=
  match o with
  | OnBlock block => onBlock block s
  | WsNext pid => ws_next pid s
  | WsReturn pid => ws_return pid s
  end.

(** *** The polling stream.  [getBlock()] gives the latest block; its
    [number] is a [bigint] by its type, and nothing tests that it is. *)
Record PollStream := {
  buffer : Buffer.t Block;
  lastBlockNumber : BlockNumber;
  intervalId : option Z;
  isPolling : bool;
  currentInterval : Z;
  consecutiveErrors : Z;
}.

Definition poll_start : PollStream :=
  {| buffer := Buffer.empty; lastBlockNumber := Null;
     intervalId := Some (pollingIntervalMs config); isPolling := false;
     currentInterval := pollingIntervalMs config; consecutiveErrors := 0 |}.

Definition set_isPolling (b : bool) (s : PollStream) : PollStream :=
  {| buffer := buffer s; lastBlockNumber := lastBlockNumber s;
     intervalId := intervalId s; isPolling := b;
     currentInterval := currentInterval s; consecutiveErrors := consecutiveErrors s |}.

(** [pollBlock] up to [await this.client.getBlock(...)]. *)
Definition pollBlock_call (s : PollStream) : PollStream :=
  if isPolling s || Buffer.done (buffer s) then s else set_isPolling true s.

(** "Reset backoff on success" *)
Definition reset_backoff (s : PollStream) : PollStream :=
  if (0 <? consecutiveErrors s)%Z then
    {| buffer := buffer s; lastBlockNumber := lastBlockNumber s;
       intervalId := match intervalId s with
                     | Some _ => Some (pollingIntervalMs config)
                     | None => None
                     end;
       isPolling := isPolling s;
       currentInterval := pollingIntervalMs config; consecutiveErrors := 0 |}
  else s.

(** "Implement exponential backoff" in the [catch] of [pollBlock]. *)
Definition backoff (s : PollStream) : PollStream :=
  let n := (consecutiveErrors s + 1)%Z in
  let newInterval := Z.min (currentInterval s * 2) 30000 in
  if (3 <? n)%Z && negb (newInterval =? currentInterval s)%Z then
    {| buffer := buffer s; lastBlockNumber := lastBlockNumber s;
       intervalId := match intervalId s with
                     | Some _ => Some newInterval
                     | None => None
                     end;
       isPolling := isPolling s;
       currentInterval := newInterval; consecutiveErrors := n |}
  else
    {| buffer := buffer s; lastBlockNumber := lastBlockNumber s;
       intervalId := intervalId s; isPolling := isPolling s;
       currentInterval := currentInterval s; consecutiveErrors := n |}.

(** "Only process if it's a new block" *)
Definition process (block : Block) (s : PollStream)
    : PollStream * list (Buffer.Resolution Block) :=
  if is_new (lastBlockNumber s) (number block) then
    ({| buffer := (Buffer.push (maxQueueSize config) block (buffer s)).1;
        lastBlockNumber := number block;
        intervalId := intervalId s; isPolling := isPolling s;
        currentInterval := currentInterval s; consecutiveErrors := consecutiveErrors s |},
     (Buffer.push (maxQueueSize config) block (buffer s)).2)
  else (s, []).

(** [pollBlock] from the moment [getBlock] settles; nothing happens
    when no call is in flight. *)
Definition pollBlock_settle (r : Result Block) (s : PollStream)
    : PollStream * list (Buffer.Resolution Block) :=
  if negb (isPolling s) then (s, [])
  else
    match r with
    | Ok block =>
        let s1 := reset_backoff s in
        if Buffer.done (buffer s1) then (set_isPolling false s1, [])
        else
          (set_isPolling false (process block s1).1,
           (process block s1).2)
    | Err _ =>
        if Buffer.done (buffer s) then (set_isPolling false s, [])
        else (set_isPolling false (backoff s), [])
    end.

(** [cleanup] *)
Definition cleanup (s : PollStream) : PollStream * list (Buffer.Resolution Block) :=
  ({| buffer := (Buffer.cleanup (buffer s)).1; lastBlockNumber := lastBlockNumber s;
      intervalId := None; isPolling := isPolling s;
      currentInterval := currentInterval s; consecutiveErrors := consecutiveErrors s |},
   (Buffer.cleanup (buffer s)).2).

Definition next (pid : nat) (s : PollStream) : PollStream * list (Buffer.Resolution Block) :=
  ({| buffer := (Buffer.next pid (buffer s)).1; lastBlockNumber := lastBlockNumber s;
      intervalId := intervalId s; isPolling := isPolling s;
      currentInterval := currentInterval s; consecutiveErrors := consecutiveErrors s |},
   (Buffer.next pid (buffer s)).2).

(** [return()]: its own promise first, then those of the [next()] calls
    that were waiting. *)
Definition return_ (pid : nat) (s : PollStream) : PollStream * list (Buffer.Resolution Block) :=
  ((cleanup s).1, (pid, IterDone) :: (cleanup s).2).

Inductive Op :=
  | PollCall
  | PollSettle (r : Result Block)
  | Next (pid : nat)
  | Return (pid : nat).

Definition step (o : Op) (s : PollStream) : PollStream * list (Buffer.Resolution Block) :=
  match o with
  | PollCall => (pollBlock_call s, [])
  | PollSettle r => pollBlock_settle r s
  | Next pid => next pid s
  | Return pid => return_ pid s
  end.

End Streams.

End BlockCollector.

(** A block with a number. *)
Definition numbered (b : Block) : Prop := is_Some (bigint_of (number b)).

(** Both blocks are numbered, the first below the second. *)
Definition block_lt (a b : Block) : Prop :=
  match bigint_of (number a), bigint_of (number b) with
  | Some x, Some y => (x < y)%Z
  | _, _ => False
  end.

(** Strictly increasing block numbers, all defined. *)
Definition increasing (l : list Block) : Prop :=
  Forall numbered l ∧ StronglySorted block_lt l.

(** The number of the last block of a list. *)
Definition last_number (l : list Block) : option Z :=
  match last l with
  | Some b => bigint_of (number b)
  | None => None
  end.

(** [n] is above the last number, if there is one. *)
Definition above (lastBlockNumber : option Z) (n : Z) : bool :=
  match lastBlockNumber with
  | None => true
  | Some l => (l <? n)%Z
  end.

(** A step of the WebSocket stream that brings no block whose number is
    [null]. *)
Definition ws_typed (o : BlockCollector.WsOp) : Prop :=
  match o with
  | BlockCollector.OnBlock block => number block ≠ Null
  | _ => True
  end.

(** A step of the polling stream in which [getBlock], when it answers,
    answers with a block that has a [bigint] number, as its type says. *)
Definition poll_typed (o : BlockCollector.Op) : Prop :=
  match o with
  | BlockCollector.PollSettle (Ok block) => is_Some (bigint_of (number block))
  | _ => True
  end.

(** The block is numbered, no higher than [lastBlockNumber]. *)
Definition not_after (lastBlockNumber : option Z) (b : Block) : Prop :=
  match bigint_of (number b), lastBlockNumber with
  | Some n, Some l => (n ≤ l)%Z
  | _, _ => False
  end.

(** A block stream in step: the blocks given to the consumer followed by
    the queued ones increase and do not pass [lastBlockNumber], and no reader
    waits on a non-empty queue. *)
Definition block_inv (lastBlockNumber : option Z) (given : list Block)
    (b : Buffer.t Block) : Prop :=
  increasing (given ++ Buffer.queue b) ∧
  Forall (not_after lastBlockNumber) (given ++ Buffer.queue b) ∧
  (Buffer.resolvers b = [] ∨ Buffer.queue b = []).

(** A stream that has ended for good: whatever happens to it from now on,
    no item is handed out and [next()] answers end-of-stream at once. *)
Definition ended {S O T} (step : O → S → S * list (Buffer.Resolution T))
    (next : nat → S → S * list (Buffer.Resolution T)) (s : S) : Prop :=
  ∀ ops pid,
    Buffer.values (run_trace step ops s).2 = [] ∧
    (next pid (run_trace step ops s).1).2 = [(pid, IterDone)].

(** Blocks and streams for examples. *)
Definition block_at (n : Z) : Block := {| number := Number n; body := 0 |}.
Definition unnumbered : Block := {| number := Undefined; body := 0 |}.
Definition pending_block : Block := {| number := Null; body := 0 |}.

Definition ws_example : list BlockCollector.WsOp :=
  [BlockCollector.OnBlock (block_at 5); BlockCollector.WsNext 0;
   BlockCollector.OnBlock (block_at 3); BlockCollector.OnBlock unnumbered;
   BlockCollector.WsNext 1; BlockCollector.OnBlock (block_at 7)].

(** ** What the streams keep, for any run *)

(** A buffer in order: the queue is within its bound, no reader waits on
    a non-empty queue, and no reader waits once the stream is done. *)
Definition tidy {T} (maxQueueSize : nat) (b : Buffer.t T) : Prop :=
  length (Buffer.queue b) ≤ maxQueueSize ∧
  (Buffer.resolvers b = [] ∨ Buffer.queue b = []) ∧
  (Buffer.done b = true → Buffer.resolvers b = []).

(** What every operation on a buffer does to the promises: it leaves the
    buffer in order and settles promises from the front of the waiting ones;
    [nexts] are the promises of [next()] that it adds behind them, [returns]
    the promise of a [return()], which is settled ahead of them. *)
Definition answers {T} (maxQueueSize : nat) (returns nexts : list nat) (b : Buffer.t T)
    (r : Buffer.t T * list (Buffer.Resolution T)) : Prop :=
  tidy maxQueueSize r.1 ∧
  (fst <$> r.2) ++ Buffer.resolvers r.1 = returns ++ Buffer.resolvers b ++ nexts.

(** The promise that a step of a stream returns, for the steps that are a
    call of [next()] or [return()]. *)
Definition interval_call (o : IntervalCollectorBun.Op) : option nat :=
  match o with
  | IntervalCollectorBun.Next pid | IntervalCollectorBun.Return pid => Some pid
  | _ => None
  end.

Definition block_bun_call (o : BlockCollectorBun.Op) : option nat :=
  match o with
  | BlockCollectorBun.Next pid | BlockCollectorBun.Return pid => Some pid
  | _ => None
  end.

Definition ws_call (o : BlockCollector.WsOp) : option nat :=
  match o with
  | BlockCollector.WsNext pid | BlockCollector.WsReturn pid => Some pid
  | _ => None
  end.

Definition polling_call (o : BlockCollector.Op) : option nat :=
  match o with
  | BlockCollector.Next pid | BlockCollector.Return pid => Some pid
  | _ => None
  end.

(** The same for the calls of [next()] and of [return()] apart. *)
Definition interval_next_call (o : IntervalCollectorBun.Op) : option nat :=
  match o with
  | IntervalCollectorBun.Next pid => Some pid
  | _ => None
  end.

Definition interval_return_call (o : IntervalCollectorBun.Op) : option nat :=
  match o with
  | IntervalCollectorBun.Return pid => Some pid
  | _ => None
  end.

Definition block_bun_next_call (o : BlockCollectorBun.Op) : option nat :=
  match o with
  | BlockCollectorBun.Next pid => Some pid
  | _ => None
  end.

Definition block_bun_return_call (o : BlockCollectorBun.Op) : option nat :=
  match o with
  | BlockCollectorBun.Return pid => Some pid
  | _ => None
  end.

Definition ws_next_call (o : BlockCollector.WsOp) : option nat :=
  match o with
  | BlockCollector.WsNext pid => Some pid
  | _ => None
  end.

Definition ws_return_call (o : BlockCollector.WsOp) : option nat :=
  match o with
  | BlockCollector.WsReturn pid => Some pid
  | _ => None
  end.

Definition polling_next_call (o : BlockCollector.Op) : option nat :=
  match o with
  | BlockCollector.Next pid => Some pid
  | _ => None
  end.

Definition polling_return_call (o : BlockCollector.Op) : option nat :=
  match o with
  | BlockCollector.Return pid => Some pid
  | _ => None
  end.

(** The promises of a run in the order of their answers: those settled so
    far, then those still waiting.  They are the calls made so far, each
    once, and the calls of [next()] among them stand in the order in which
    they were made. *)
Definition answered_in_turn (calls nexts settled waiting : list nat) : Prop :=
  settled ++ waiting ≡ₚ calls ∧ sublist nexts (settled ++ waiting).

(** The item that a step of a Bun stream brings in: the date of a
    timestamp message, the parsed block of a block message. *)
Definition interval_arrival (o : IntervalCollectorBun.Op) : option IntervalCollectorBun.Date :=
  match o with
  | IntervalCollectorBun.Ipc (IntervalCollectorBun.Timestamp timestamp) => Some timestamp
  | _ => None
  end.

Definition block_bun_arrival (parse : string → option Block) (o : BlockCollectorBun.Op)
    : option Block :=
  match o with
  | BlockCollectorBun.Ipc (BlockCollectorBun.BlockData data) => parse data
  | _ => None
  end.

(** Nothing made up, nothing out of order: the items given to the consumer
    followed by the queued ones are among the arrivals, in their order; the
    queue holds the latest arrivals; and while the stream is not done and no
    more items have arrived than the queue can hold, nothing is lost. *)
Definition kept {T} (maxQueueSize : nat) (arrivals given : list T) (b : Buffer.t T)
    : Prop :=
  sublist (given ++ Buffer.queue b) arrivals ∧
  Buffer.queue b `suffix_of` arrivals ∧
  (Buffer.done b = false → length arrivals ≤ maxQueueSize →
   given ++ Buffer.queue b = arrivals).

(** The polling interval after [errors] consecutive errors, for a
    configured interval [p]: doubling starts with the fourth error and stops
    at 30 seconds. *)
Definition polling_interval (p errors : Z) : Z :=
  if (errors <=? 3)%Z then p else Z.min (p * 2 ^ (errors - 3)) 30000.

(** The backoff of the polling stream in step with its error count; the
    timer, while there is one, runs at the current interval. *)
Definition polling_in_step (config : BlockCollector.BlockCollectorConfig)
    (s : BlockCollector.PollStream) : Prop :=
  (0 ≤ BlockCollector.consecutiveErrors s)%Z ∧
  BlockCollector.currentInterval s =
    polling_interval (BlockCollector.pollingIntervalMs config)
      (BlockCollector.consecutiveErrors s) ∧
  (BlockCollector.intervalId s = None ∨
   BlockCollector.intervalId s = Some (BlockCollector.currentInterval s)).

(** The block at position [i] has a number above the numbers of all the
    blocks before it. *)
Definition record_high (blocks : list Block) (i : nat) (b : Block) : Prop :=
  blocks !! i = Some b ∧
  ∃ n, number b = Number n ∧
       ∀ j b' m, j < i → blocks !! j = Some b' → number b' = Number m → (m < n)%Z.

(** [l] is the highest number among the blocks, if one has a number. *)
Definition highest_number (blocks : list Block) (l : option Z) : Prop :=
  match l with
  | None => Forall (λ b, bigint_of (number b) = None) blocks
  | Some n =>
      (∃ b, b ∈ blocks ∧ number b = Number n) ∧
      Forall (λ b, ∀ m, number b = Number m → (m ≤ n)%Z) blocks
  end.

(** ** The bigints of a block between the worker and [BlockCollectorBun] *)
Module BlockTransport.

(** A value as the two callbacks look at it: by its [typeof]. *)
Inductive Value :=
  | VBigInt (z : Z)
  | VString (s : string)
  | VOther.

(** [value.toString()] of a bigint: its decimal digits, after a minus
    sign when it is negative. *)
Definition toString (z : Z) : string := NilZero.string_of_int (Z.to_int z).

(** The replacer that [sendBlock] gives to [JSON.stringify]. *)
Definition replacer (value : Value) : Value :=
  match value with
  | VBigInt z => VString (toString z)
  | _ => value
  end.

(** [\d] *)
Definition is_digit (c : Ascii.ascii) : bool :=
  (48 <=? Ascii.nat_of_ascii c)%nat && (Ascii.nat_of_ascii c <=? 57)%nat.

(** [/^\d+n$/.test(value)] *)
Fixpoint test (value : string) : bool :=
  match value with
  | EmptyString => false
  | String c rest =>
      is_digit c && (if String.eqb rest "n" then true else test rest)
  end.

(** [value.slice(0, -1)] *)
Fixpoint slice_0_minus_1 (value : string) : string :=
  match value with
  | EmptyString => EmptyString
  | String c EmptyString => EmptyString
  | String c rest => String c (slice_0_minus_1 rest)
  end.

(** [BigInt(...)] of a string of decimal digits; [None] is its
    [SyntaxError]. *)
Definition BigInt (digits : string) : option Z :=
  Z.of_uint <$> NilEmpty.uint_of_string digits.

(** The reviver that the [ipc] handler gives to [JSON.parse]; [None] when
    it throws. *)
Definition reviver (value : Value) : option Value :=
  match value with
  | VString s =>
      if test s then VBigInt <$> BigInt (slice_0_minus_1 s) else Some value
  | _ => Some value
  end.

(** A bigint field of a block, from [sendBlock] in the worker to the
    [ipc] handler of the parent: the text that [JSON.stringify] writes for
    the string of digits is read back by [JSON.parse] as the same string. *)
Definition transport (value : Value) : option Value := reviver (replacer value).

End BlockTransport.

(** ** The SIGINT handler of an engine *)
Module Sigint.

(** [config.registerSigintHandler], [_sigintHandlerRegistered], and the
    number of listeners that this engine has put on the process with
    [process.on('SIGINT', ...)]. *)
Record t := {
  registerSigintHandler_config : bool;
  _sigintHandlerRegistered : bool;
  listeners : nat;
}.

(** [registerSigintHandler()] *)
Definition registerSigintHandler (s : t) : t :=
  if _sigintHandlerRegistered s then s
  else
    {| registerSigintHandler_config := registerSigintHandler_config s;
       _sigintHandlerRegistered := true;
       listeners := S (listeners s) |}.

(** The part of the constructor that looks at [registerSigintHandler]. *)
Definition constructor (registerSigintHandler_option : bool) : t :=
  let s := {| registerSigintHandler_config := registerSigintHandler_option;
              _sigintHandlerRegistered := false;
              listeners := 0 |} in
  if registerSigintHandler_config s then registerSigintHandler s else s.

(** [withSigintHandler(enable)] *)
Definition withSigintHandler (enable : bool) (s : t) : t :=
  let s1 := {| registerSigintHandler_config := enable;
               _sigintHandlerRegistered := _sigintHandlerRegistered s;
               listeners := listeners s |} in
  if enable && negb (_sigintHandlerRegistered s1) then registerSigintHandler s1 else s1.

(** A new engine and a row of [withSigintHandler] calls on it. *)
Definition configured (registerSigintHandler_option : bool) (calls : list bool) : t :=
  foldl (λ s enable, withSigintHandler enable s) (constructor registerSigintHandler_option)
    calls.

(** The static side: [Engine.globalSigintHandlerRegistered] and the
    listeners put on the process by [registerGlobalSigintHandler]. *)
Record Global := {
  globalSigintHandlerRegistered : bool;
  global_listeners : list Z;
}.

Definition global_start : Global :=
  {| globalSigintHandlerRegistered := false; global_listeners := [] |}.

(** [Engine.registerGlobalSigintHandler(timeoutMs)]; the listener keeps
    the timeout it was made with. *)
Definition registerGlobalSigintHandler (timeoutMs : Z) (g : Global) : Global :=
  if globalSigintHandlerRegistered g then g
  else
    {| globalSigintHandlerRegistered := true;
       global_listeners := global_listeners g ++ [timeoutMs] |}.

End Sigint.

(** * Facts about the supervised task loops *)

Module SupervisorFacts.
Import Supervisor.
Local Open Scope Z_scope.

Ltac se_unfold :=
  unfold iteration, try_block, catch_block, exponential_backoff, critical_stop,
    reset_on_success, sleep, stop_engine, emit, set_backoffMs, set_consecutiveErrors,
    get_backoffMs, get_consecutiveErrors, when, try_catch, await, throw, modify, get,
    mbind, SE_bind, mret, SE_ret in *.

Section Facts.
Context {V : Type} (cfg : EngineConfig).

Lemma iteration_failure (a : Attempt V) e m :
  attempt_error a = Some e → iteration cfg a m = catch_block cfg e m.
Proof.
  unfold attempt_error. intros H. se_unfold.
  destruct (next_result a) as [[v|]|e']; simplify_eq/=; try reflexivity.
  destruct (call_result a v) as [[]|e']; simplify_eq/=; reflexivity.
Qed.


Lemma catch_block_closed e m :
  is_closed e = true →
  catch_block cfg e m =
    (Ok Break, {| consecutiveErrors := consecutiveErrors m + 1;
                  backoffMs := backoffMs m; effects := effects m |}).
Proof. intros Hc. se_unfold. simpl. rewrite Hc. reflexivity. Qed.

Lemma catch_block_below e m :
  is_closed e = false →
  0 ≤ consecutiveErrors m →
  consecutiveErrors m + 1 ≤ maxConsecutiveErrors cfg →
  catch_block cfg e m =
    (Ok Continue, {| consecutiveErrors := consecutiveErrors m + 1;
                     backoffMs := backoffMs m; effects := effects m |}).
Proof.
  intros Hc H0 Hle. se_unfold. simpl. rewrite Hc. simpl.
  destruct (Z.ltb_spec (maxConsecutiveErrors cfg) (consecutiveErrors m + 1)); [lia|].
  simpl.
  destruct (Z.ltb_spec (maxConsecutiveErrors cfg * 2) (consecutiveErrors m + 1)); [lia|].
  rewrite andb_false_r. reflexivity.
Qed.

Lemma catch_block_above e m :
  is_closed e = false →
  maxConsecutiveErrors cfg < consecutiveErrors m + 1 →
  let b := Z.min (backoffMs m * 2) (maxBackoffMs cfg) in
  let critical :=
    stopOnCriticalError cfg &&
    (maxConsecutiveErrors cfg * 2 <? consecutiveErrors m + 1) in
  catch_block cfg e m =
    (Ok (if critical then Break else Continue),
     {| consecutiveErrors := consecutiveErrors m + 1; backoffMs := b;
        effects := (effects m ++ [Sleep b]) ++
                   (if critical then [StopEngine] else []) |}).
Proof.
  intros Hc Hlt b critical. subst b critical. se_unfold. simpl. rewrite Hc. simpl.
  destruct (Z.ltb_spec (maxConsecutiveErrors cfg) (consecutiveErrors m + 1)); [|lia].
  simpl.
  destruct (Z.eqb_spec (Z.min (backoffMs m * 2) (maxBackoffMs cfg)) (backoffMs m))
    as [Heq|Hne]; simpl.
  - rewrite Heq.
    destruct (stopOnCriticalError cfg && _); simpl; rewrite ?app_nil_r; reflexivity.
  - destruct (stopOnCriticalError cfg && _); simpl; rewrite ?app_nil_r; reflexivity.
Qed.

(** Every pass through the loop body ends without a throw. *)
Lemma iteration_total (a : Attempt V) m :
  ∃ c m', iteration cfg a m = (Ok c, m').
Proof.
  se_unfold. repeat (case_match; simplify_eq/=); eauto.
Qed.

Lemma while_running_cons (a : Attempt V) rest m :
  while_running cfg (Running a :: rest) m =
    match iteration cfg a m with
    | (Ok Continue, m') => while_running cfg rest m'
    | (Ok Break, m') => (Ok Exited, m')
    | (Err e, m') => (Err e, m')
    end.
Proof.
  simpl. unfold mbind, SE_bind.
  destruct (iteration cfg a m) as [[[|]|e] m']; reflexivity.
Qed.

Lemma while_running_app (s1 s2 : list (Tick V)) m :
  while_running cfg (s1 ++ s2) m =
    match while_running cfg s1 m with
    | (Ok Awaiting, m') => while_running cfg s2 m'
    | r => r
    end.
Proof.
  revert m. induction s1 as [|t s1 IH]; intros m.
  - reflexivity.
  - destruct t as [|a]; [reflexivity|].
    rewrite <- app_comm_cons, !while_running_cons.
    destruct (iteration cfg a m) as [[[|]|e] m']; auto.
Qed.

Lemma while_running_total (script : list (Tick V)) m :
  ∃ x m', while_running cfg script m = (Ok x, m').
Proof.
  revert m. induction script as [|t s IH]; intros m.
  - simpl. eauto.
  - destruct t as [|a]; [simpl; eauto|].
    rewrite while_running_cons.
    destruct (iteration_total a m) as (c & m' & ->).
    destruct c; eauto.
Qed.








Lemma stops_app l1 l2 : stops (l1 ++ l2) = stops l1 ++ stops l2.
Proof. unfold stops. apply omap_app. Qed.

Lemma sleeps_app l1 l2 : sleeps (l1 ++ l2) = sleeps l1 ++ sleeps l2.
Proof. unfold sleeps. apply omap_app. Qed.



(** The [catch] block on an error other than "channel closed": it may
    sleep once, and it stops the engine exactly when the count is
    critical. *)
Lemma catch_block_shape e m :
  is_closed e = false →
  let critical :=
    stopOnCriticalError cfg &&
    (maxConsecutiveErrors cfg * 2 <? consecutiveErrors m + 1) in
  ∃ b sl,
    (sl = [] ∧ b = backoffMs m ∨ sl = [Sleep b]) ∧
    catch_block cfg e m =
      (Ok (if critical then Break else Continue),
       {| consecutiveErrors := consecutiveErrors m + 1; backoffMs := b;
          effects := (effects m ++ sl) ++ (if critical then [StopEngine] else []) |}).
Proof.
  intros Hc critical.
  destruct (Z.ltb_spec (maxConsecutiveErrors cfg) (consecutiveErrors m + 1)) as [Hlt|Hge].
  - eexists _, _. split; [right; reflexivity|].
    by rewrite catch_block_above.
  - exists (backoffMs m), []. split; [by left|].
    subst critical. se_unfold. simpl. rewrite Hc. simpl.
    destruct (Z.ltb_spec (maxConsecutiveErrors cfg) (consecutiveErrors m + 1)); [lia|].
    simpl. rewrite app_nil_r.
    destruct (stopOnCriticalError cfg && _); simpl; rewrite ?app_nil_r; reflexivity.
Qed.





Lemma supervised_eq (script : list (Tick V)) x m :
  while_running cfg script (init_mem cfg) = (Ok x, m) →
  supervised cfg script =
    (match x with Exited => Resolved | Awaiting => Pending end, m).
Proof.
  intros H. unfold supervised, try_catch. rewrite H. by destruct x.
Qed.


Lemma runCollector_failed (script : list (Tick V)) e :
  runCollector cfg (Err e) script = (Resolved, init_mem cfg).
Proof. reflexivity. Qed.

End Facts.
End SupervisorFacts.

Section SupervisedLoops.
Import Supervisor SupervisorFacts.
Local Open Scope Z_scope.
Context {V : Type}.






End SupervisedLoops.

Section SupervisedLoopsWitnesses.
Import Supervisor SupervisorFacts.
Local Open Scope Z_scope.


End SupervisedLoopsWitnesses.

(** * Facts about [Engine.run] and [Engine.stop] *)

Module EngineFacts.
Import Channel Engine.

Ltac eng_unfold :=
  unfold subscribe_action, subscribe_event, push_task, sync_state, create_channels,
    cleanupResources, forceCleanup, close_eventChannel, close_actionChannel,
    log_event, when, try_catch, await, throw, modify, get,
    mbind, SE_bind, mret, SE_ret in *.

(** Setters and projections, and nothing else: the states are nested
    setters, which [simpl] would copy field by field. *)
Ltac state_simpl :=
  cbv [advance set_eventHeap set_actionHeap set_tasks record set_actionChannel
       set_eventChannel set_runningEngines set_running
       collectors strategies executors config running tasks eventChannel
       actionChannel eventHeap actionHeap runningEngines log fst snd].

Section Facts.
Context {E A : Type}.
Implicit Types s : State E A.

Lemma advance_nil s : advance [] [] s = s.
Proof. destruct s. unfold advance. simpl. by rewrite !app_nil_r. Qed.

Lemma subscribe_times_S {T} n (ch : BroadcastChannel T) :
  subscribe_times (S n) ch = subscribe_times n (subscribe ch).2.
Proof. unfold subscribe_times. by rewrite Nat.iter_succ_r. Qed.

Lemma spawn_executors_spec xs : ∀ i s ar ch,
  actionChannel s = Some ar →
  actionHeap s !! ar = Some ch →
  spawn_executors i xs s =
    (Ok (),
     set_actionHeap (<[ar := subscribe_times (length xs) ch]> (actionHeap s))
       (advance (executor_tasks ar i (nextId ch) (length xs))
                (executor_events ar i (nextId ch) (length xs)) s)).
Proof.
  induction xs as [|x xs IH]; intros i s ar ch Har Hch.
  - simpl. unfold mret, SE_ret. rewrite advance_nil.
    destruct s; unfold set_actionHeap; simpl in *. by rewrite insert_id.
  - cbn [spawn_executors length executor_tasks executor_events].
    rewrite subscribe_times_S.
    unfold mbind at 1, SE_bind at 1.
    unfold subscribe_action at 1. eng_unfold. rewrite Har, Hch. simpl.
    erewrite IH; [|done|simpl; apply lookup_insert_eq].
    destruct s; unfold set_actionHeap, advance; simpl in *.
    rewrite insert_insert_eq, <- !app_assoc. reflexivity.
Qed.
Lemma spawn_strategies_spec ss : ∀ i s er ar ch,
  eventChannel s = Some er →
  eventHeap s !! er = Some ch →
  actionChannel s = Some ar →
  spawn_strategies i ss s =
    (match sync_failure ss with Some e => Err e | None => Ok () end,
     set_eventHeap (<[er := subscribe_times (strategy_subscriptions ss) ch]> (eventHeap s))
       (advance (strategy_tasks er ar i (nextId ch) ss)
                (strategy_events er i (nextId ch) ss) s)).
Proof.
  induction ss as [|strategy ss IH]; intros i s er ar ch Her Hch Har.
  - simpl. unfold mret, SE_ret. rewrite advance_nil.
    destruct s; unfold set_eventHeap; simpl in *. by rewrite insert_id.
  - cbn [spawn_strategies strategy_subscriptions strategy_tasks strategy_events
           sync_failure].
    unfold mbind at 1, SE_bind at 1.
    unfold subscribe_event at 1. eng_unfold. rewrite Her, Hch. simpl. rewrite Har.
    unfold sync_events, syncs.
    destruct (syncState strategy) as [[[]|e]|] eqn:Hsync; simpl.
    + rewrite subscribe_times_S.
      erewrite IH; [|done|simpl; apply lookup_insert_eq|done].
      destruct (sync_failure ss);
        destruct s; unfold set_eventHeap, advance; simpl in *;
        rewrite insert_insert_eq, <- !app_assoc; reflexivity.
    + destruct s; unfold set_eventHeap, advance, record; simpl in *.
      rewrite ?app_nil_r, <- ?app_assoc. reflexivity.
    + rewrite subscribe_times_S.
      erewrite IH; [|done|simpl; apply lookup_insert_eq|done].
      destruct (sync_failure ss);
        destruct s; unfold set_eventHeap, advance; simpl in *;
        rewrite insert_insert_eq, <- !app_assoc; reflexivity.
Qed.

Lemma spawn_collectors_spec cs : ∀ i s,
  spawn_collectors i cs s =
    (Ok (),
     advance (collector_tasks i (length cs))
             (Spawned ∘ task_participant <$> collector_tasks i (length cs)) s).
Proof.
  induction cs as [|c cs IH]; intros i s.
  - simpl. unfold mret, SE_ret. by rewrite advance_nil.
  - cbn [spawn_collectors length collector_tasks]. eng_unfold. simpl.
    rewrite IH. destruct s; unfold advance; simpl. by rewrite <- !app_assoc.
Qed.

(** [run], written out. *)
Lemma run_spec self s :
  let er := fresh (dom (eventHeap s)) in
  let ar := fresh (dom (actionHeap s)) in
  run self s =
    if decide (length (executors s) = 0) then (Err (JsError "No executors"), s)
    else if decide (length (collectors s) = 0) then (Err (JsError "No collectors"), s)
    else if decide (length (strategies s) = 0) then (Err (JsError "No strategies"), s)
    else if running s then (Err (JsError "Engine is already running"), s)
    else
      (match sync_failure (strategies s) with
       | Some e => Err e
       | None => Ok (run_tasks er ar s)
       end,
       {| collectors := collectors s; strategies := strategies s;
          executors := executors s; config := config s; running := true;
          tasks := run_tasks er ar s;
          eventChannel := Some er; actionChannel := Some ar;
          eventHeap :=
            <[er := subscribe_times (strategy_subscriptions (strategies s))
                      (new (eventChannelCapacity (config s))
                           (eventChannelConfig (config s)))]> (eventHeap s);
          actionHeap :=
            <[ar := subscribe_times (length (executors s))
                      (new (actionChannelCapacity (config s))
                           (actionChannelConfig (config s)))]> (actionHeap s);
          runningEngines := runningEngines s ++ [self];
          log := log s ++ run_events er ar s |}).
Proof.
  intros er ar. subst er ar. destruct s as [cs ss xs cfg r ts ec ac eh ah re lg].
  unfold run, run_events, run_tasks.
  unfold mbind at 1, SE_bind at 1, get at 1.
  state_simpl.
  repeat (case_decide; [reflexivity|]).
  destruct r; [reflexivity|].
  unfold create_channels, log_event, modify, get, throw.
  unfold mbind, SE_bind, mret, SE_ret.
  state_simpl.
  generalize (fresh (dom eh)), (fresh (dom ah)). intros er ar.
  erewrite spawn_executors_spec; [|reflexivity|apply lookup_insert_eq].
  state_simpl.
  erewrite spawn_strategies_spec; [|reflexivity|apply lookup_insert_eq|reflexivity].
  state_simpl.
  destruct (sync_failure ss) as [e|].
  - rewrite !insert_insert_eq, !app_nil_r, <- !app_assoc. reflexivity.
  - rewrite spawn_collectors_spec. state_simpl.
    rewrite !insert_insert_eq, <- !app_assoc. reflexivity.
Qed.

Lemma run_spec_runnable self s :
  runnable s →
  let er := fresh (dom (eventHeap s)) in
  let ar := fresh (dom (actionHeap s)) in
  run self s =
    (match sync_failure (strategies s) with
     | Some e => Err e
     | None => Ok (run_tasks er ar s)
     end,
     {| collectors := collectors s; strategies := strategies s;
        executors := executors s; config := config s; running := true;
        tasks := run_tasks er ar s;
        eventChannel := Some er; actionChannel := Some ar;
        eventHeap :=
          <[er := subscribe_times (strategy_subscriptions (strategies s))
                    (new (eventChannelCapacity (config s))
                         (eventChannelConfig (config s)))]> (eventHeap s);
        actionHeap :=
          <[ar := subscribe_times (length (executors s))
                    (new (actionChannelCapacity (config s))
                         (actionChannelConfig (config s)))]> (actionHeap s);
        runningEngines := runningEngines s ++ [self];
        log := log s ++ run_events er ar s |}).
Proof.
  intros (Hx & Hc & Hs & Hr) er ar. rewrite run_spec.
  repeat (case_decide as Hl; [apply length_zero_iff_nil in Hl; done|clear Hl]).
  by rewrite Hr.
Qed.

Lemma run_spec_not_runnable self s :
  ¬ runnable s → ∃ e, run self s = (Err e, s) ∧ is_configuration_error e.
Proof.
  intros Hn. rewrite run_spec. unfold is_configuration_error.
  destruct (decide (length (executors s) = 0)) as [|Hx]; [eauto 6|].
  destruct (decide (length (collectors s) = 0)) as [|Hc]; [eauto 6|].
  destruct (decide (length (strategies s) = 0)) as [|Hs]; [eauto 6|].
  destruct (running s) eqn:Hr; [eauto 6|].
  exfalso. apply Hn. unfold runnable.
  rewrite <- !length_zero_iff_nil. done.
Qed.


Lemma sync_failure_None ss : sync_failure ss = None ↔ Forall (λ st, syncs st = true) ss.
Proof.
  induction ss as [|st ss IH]; simpl; [by split|].
  rewrite Forall_cons. unfold syncs.
  destruct (syncState st) as [[[]|e']|]; naive_solver.
Qed.

Lemma executor_tasks_participants ar i base n :
  task_participant <$> executor_tasks ar i base n = PExecutor <$> seq i n.
Proof. revert i base. induction n as [|n IH]; intros i base; simpl; [done|]. by rewrite IH. Qed.

Lemma collector_tasks_participants i n :
  task_participant <$> collector_tasks i n = PCollector <$> seq i n.
Proof. revert i. induction n as [|n IH]; intros i; simpl; [done|]. by rewrite IH. Qed.

Lemma strategy_tasks_participants er ar i base ss :
  task_participant <$> strategy_tasks er ar i base ss =
    PStrategy <$> seq i (length (started ss)).
Proof.
  revert i base. induction ss as [|st ss IH]; intros i base; simpl; [done|].
  destruct (syncs st); simpl; [|done]. by rewrite IH.
Qed.

Lemma started_all ss : sync_failure ss = None → started ss = ss.
Proof.
  intros H%sync_failure_None. induction H as [|st ss Hst _ IH]; simpl; [done|].
  by rewrite Hst, IH.
Qed.

Lemma strategy_subscriptions_all ss :
  sync_failure ss = None → strategy_subscriptions ss = length ss.
Proof.
  intros H%sync_failure_None. induction H as [|st ss Hst _ IH]; simpl; [done|].
  by rewrite Hst, IH.
Qed.

Lemma executor_events_spawned ar i base n :
  spawned (executor_events ar i base n) = PExecutor <$> seq i n.
Proof.
  revert i base. induction n as [|n IH]; intros i base; simpl; [done|].
  unfold spawned in *. simpl. by rewrite IH.
Qed.

Lemma executor_events_subscribers ar i base n :
  subscribers (executor_events ar i base n) = PExecutor <$> seq i n.
Proof.
  revert i base. induction n as [|n IH]; intros i base; simpl; [done|].
  unfold subscribers in *. simpl. by rewrite IH.
Qed.

Lemma spawned_app l1 l2 : spawned (l1 ++ l2) = spawned l1 ++ spawned l2.
Proof. apply omap_app. Qed.

Lemma subscribers_app l1 l2 : subscribers (l1 ++ l2) = subscribers l1 ++ subscribers l2.
Proof. apply omap_app. Qed.

Lemma sync_events_spawned i st : spawned (sync_events i st) = [].
Proof. unfold sync_events. by destruct (syncState st). Qed.

Lemma sync_events_subscribers i st : subscribers (sync_events i st) = [].
Proof. unfold sync_events. by destruct (syncState st). Qed.

Lemma spawned_cons e l : spawned (e :: l) = spawned [e] ++ spawned l.
Proof. by destruct e. Qed.

Lemma subscribers_cons e l : subscribers (e :: l) = subscribers [e] ++ subscribers l.
Proof. by destruct e. Qed.

Lemma strategy_events_spawned er i base ss :
  spawned (strategy_events er i base ss) = PStrategy <$> seq i (length (started ss)).
Proof.
  revert i base. induction ss as [|st ss IH]; intros i base; [done|].
  cbn [strategy_events started].
  rewrite spawned_cons, spawned_app, sync_events_spawned.
  destruct (syncs st); [|done].
  by rewrite (spawned_cons (Spawned _)), IH.
Qed.

Lemma strategy_events_subscribers er i base ss :
  subscribers (strategy_events er i base ss) =
    PStrategy <$> seq i (strategy_subscriptions ss).
Proof.
  revert i base. induction ss as [|st ss IH]; intros i base; [done|].
  cbn [strategy_events strategy_subscriptions].
  rewrite subscribers_cons, subscribers_app, sync_events_subscribers.
  destruct (syncs st); [|done].
  by rewrite (subscribers_cons (Spawned _)), IH.
Qed.


Lemma collector_events_subscribers i n :
  subscribers (Spawned ∘ task_participant <$> collector_tasks i n) = [].
Proof. revert i. induction n as [|n IH]; intros i; simpl; [done|]. apply IH. Qed.






(** [stop], written out. *)
Lemma stop_spec self timeoutMs tasksDone s :
  stop self timeoutMs tasksDone s =
    if running s then
      (Ok (),
       {| collectors := collectors s; strategies := strategies s;
          executors := executors s; config := config s; running := false;
          tasks := []; eventChannel := None; actionChannel := None;
          eventHeap :=
            match eventChannel s with
            | Some ref => alter close ref (eventHeap s)
            | None => eventHeap s
            end;
          actionHeap :=
            match actionChannel s with
            | Some ref => alter close ref (actionHeap s)
            | None => actionHeap s
            end;
          runningEngines := remove_first self (runningEngines s);
          log := log s ++ stop_events timeoutMs tasksDone s |})
    else (Ok (), s).
Proof.
  destruct s as [cs ss xs cfg r ts ec ac eh ah re lg].
  unfold stop, stop_events. unfold mbind at 1, SE_bind at 1, get at 1.
  state_simpl. destruct r; [|reflexivity]. cbn [negb].
  unfold close_eventChannel, close_actionChannel, forceCleanup, cleanupResources,
    when, log_event, modify, get.
  unfold mbind, SE_bind, mret, SE_ret. state_simpl.
  destruct ec as [er|], ac as [ar|], (forced timeoutMs tasksDone);
    state_simpl; rewrite <- ?app_assoc; reflexivity.
Qed.


End Facts.
End EngineFacts.

Section EngineRun.
Import Channel Engine EngineFacts.
Context {E A : Type}.
Implicit Types s : State E A.

(** C2: [run] on an engine with no executor, no collector or no strategy,
    or on an engine that is already running, throws one of the four
    configuration errors and leaves the whole state as it was: no task, no
    channel, no subscription, no event. *)
Theorem run_rejects_bad_configuration (self : nat) s :
  executors s = [] ∨ collectors s = [] ∨ strategies s = [] ∨ running s = true →
  ∃ e, run self s = (Err e, s) ∧ is_configuration_error e.
Proof.
  intros H. apply run_spec_not_runnable. unfold runnable. intros (Hx & Hc & Hs & Hr).
  destruct H as [?|[?|[?|?]]]; congruence.
Qed.

(** C5: a [run] that succeeds returns [this.tasks], one task per
    registered participant: the executors in order, then the strategies in
    order, then the collectors in order.  The loops are started in that
    same order, and every subscription ([this.tasks] of the executors on
    the action channel, of the strategies on the event channel) is taken
    before the first collector loop is started. *)
Theorem run_spawns_in_order (self : nat) s ts s' :
  run self s = (Ok ts, s') →
  let order :=
    (PExecutor <$> seq 0 (length (executors s))) ++
    (PStrategy <$> seq 0 (length (strategies s))) ++
    (PCollector <$> seq 0 (length (collectors s))) in
  tasks s' = ts ∧
  task_participant <$> ts = order ∧
  length ts = (length (executors s) + length (strategies s) + length (collectors s))%nat ∧
  ∃ before,
    log s' = log s ++ before ++
             (Spawned ∘ PCollector <$> seq 0 (length (collectors s))) ∧
    spawned before =
      (PExecutor <$> seq 0 (length (executors s))) ++
      (PStrategy <$> seq 0 (length (strategies s))) ∧
    subscribers before =
      (PExecutor <$> seq 0 (length (executors s))) ++
      (PStrategy <$> seq 0 (length (strategies s))).
Proof.
  intros Hrun order.
  rewrite run_spec in Hrun.
  repeat (case_decide; [discriminate Hrun|]).
  destruct (running s); [discriminate Hrun|].
  destruct (sync_failure (strategies s)) as [e|] eqn:Hsync; [done|].
  injection Hrun as <- <-. simpl.
  assert (task_participant <$> run_tasks (fresh (dom (eventHeap s)))
            (fresh (dom (actionHeap s))) s = order) as Hts.
  { unfold run_tasks, order. rewrite Hsync, !fmap_app.
    rewrite executor_tasks_participants, strategy_tasks_participants,
      collector_tasks_participants.
    by rewrite started_all. }
  split; [done|]. split; [done|]. split.
  { rewrite <- (length_fmap task_participant), Hts. unfold order.
    rewrite !length_app, !length_fmap, !length_seq. lia. }
  exists ([RunningSet true; Registered; EventChannelCreated (fresh (dom (eventHeap s)));
           ActionChannelCreated (fresh (dom (actionHeap s)))] ++
          executor_events (fresh (dom (actionHeap s))) 0 0 (length (executors s)) ++
          strategy_events (fresh (dom (eventHeap s))) 0 0 (strategies s)).
  split; [|split].
  - unfold run_events. rewrite Hsync.
    rewrite (list_fmap_compose task_participant Spawned), collector_tasks_participants.
    rewrite <- list_fmap_compose, <- !app_assoc. reflexivity.
  - rewrite !spawned_app, executor_events_spawned, strategy_events_spawned.
    by rewrite started_all.
  - rewrite !subscribers_app, executor_events_subscribers, strategy_events_subscribers.
    by rewrite strategy_subscriptions_all.
Qed.






End EngineRun.

Section EngineWitnesses.
Import Channel Engine EngineFacts.

(** Witness of C2: an engine without executors. *)
Lemma run_rejects_bad_configuration_witness :
  ∃ e, run 7 example_without_executors = (Err e, example_without_executors) ∧
       is_configuration_error e.
Proof. apply run_rejects_bad_configuration. by left. Defined.

(** Witness of C5: one executor, two strategies and one collector. *)
Lemma run_spawns_in_order_witness :
  task_participant <$> tasks (run 7 example_engine).2 =
    [PExecutor 0; PStrategy 0; PStrategy 1; PCollector 0].
Proof.
  destruct (run 7 example_engine) as [[ts|e] s'] eqn:Hrun.
  - destruct (run_spawns_in_order 7 example_engine ts s' Hrun) as (Ht & Hp & _).
    cbn [snd]. rewrite Ht. exact Hp.
  - exfalso. rewrite (run_spec_runnable 7 example_engine) in Hrun; [discriminate|].
    by repeat split.
Defined.


End EngineWitnesses.

(** * Facts about the broadcast channel *)

Module ChannelFacts.
Import Channel.

Section Facts.
Context {T : Type}.
Implicit Types (ch : BroadcastChannel T) (s : Subscription T).

Lemma sub_inv_empty cap : sub_inv (T:=T) cap [] empty_subscription.
Proof. split; simpl; auto. Qed.

Lemma sublist_tail_snoc (l : list T) x : sublist (tail (l ++ [x])) (l ++ [x]).
Proof. destruct l; simpl; [by constructor|]. by apply sublist_cons. Qed.

Lemma offer_inv cap cfg sent item s :
  sub_inv cap sent s → sub_inv cap (sent ++ [item]) (offer cap cfg item s).
Proof.
  intros [Hw Hsub Hall Hlag]. unfold offer.
  destruct (waiters s) as [|w] eqn:Hws.
  - case_decide as Hover.
    + split; simpl.
      * by left.
      * trans (delivered s ++ (queue s ++ [item])).
        -- apply sublist_app; [done|apply sublist_tail_snoc].
        -- rewrite app_assoc. by apply sublist_app.
      * destruct (throwOnLag cfg); done.
      * left. apply sublist_length in Hsub.
        rewrite !length_app in *. simpl in *. lia.
    + split; simpl.
      * by left.
      * rewrite app_assoc. by apply sublist_app.
      * intros Hl Hf. by rewrite app_assoc, Hall.
      * destruct Hlag as [?|?]; [left|by right]. rewrite length_app. lia.
  - destruct Hw as [?|Hq]; [done|]. rewrite Hq in *. rewrite app_nil_r in *.
    split; simpl.
    + by right.
    + rewrite app_nil_r. by apply sublist_app.
    + intros Hl Hf. by rewrite app_nil_r, Hall.
    + destruct Hlag as [?|?]; [left|by right]. rewrite length_app. lia.
Qed.

Lemma opened_S cap cfg k :
  opened (T:=T) cap cfg (S k) = (subscribe (opened cap cfg k)).2.
Proof. reflexivity. Qed.

Lemma opened_spec cap cfg k :
  let ch : BroadcastChannel T := opened cap cfg k in
  closed ch = false ∧ capacity ch = cap ∧ chanConfig ch = cfg ∧ nextId ch = k ∧
  ∀ id, id < k → subs ch !! id = Some empty_subscription.
Proof.
  induction k as [|k IH].
  - repeat split. intros id Hid. lia.
  - destruct IH as (Hc & Hcap & Hcfg & Hn & Hsubs).
    cbv zeta. rewrite opened_S. unfold subscribe.
    cbn [snd closed capacity chanConfig nextId subs].
    rewrite Hn. repeat split; try done.
    intros id Hid. destruct (decide (id = k)) as [->|Hne].
    + apply lookup_insert_eq.
    + rewrite lookup_insert_ne by done. apply Hsubs. lia.
Qed.

Lemma chan_inv_opened cap cfg k : chan_inv (T:=T) k [] (opened cap cfg k).
Proof.
  destruct (opened_spec cap cfg k) as (Hc & Hcap & _ & _ & Hsubs).
  split; [done|]. intros id Hid. exists empty_subscription.
  split; [by apply Hsubs|]. apply sub_inv_empty.
Qed.

Lemma exec_op_capacity ch o : capacity (exec_op ch o) = capacity ch.
Proof.
  destruct o as [item|id]; simpl.
  - unfold send. by destruct (closed ch).
  - unfold next. repeat case_match; done.
Qed.

Lemma chan_inv_step k sent ch o :
  chan_inv k sent ch →
  chan_inv k (sent ++ match o with OSend item => [item] | ONext _ => [] end) (exec_op ch o).
Proof.
  intros [Hopen Hsubs]. destruct o as [item|id]; cbn [exec_op].
  - unfold send. rewrite Hopen. unfold with_subs, chan_inv.
    cbn [snd closed subs capacity chanConfig]. split; [done|].
    intros id Hid. destruct (Hsubs id Hid) as (s & Hs & Hinv).
    exists (offer (capacity ch) (chanConfig ch) item s).
    rewrite lookup_fmap, Hs. split; [done|]. by apply offer_inv.
  - rewrite app_nil_r. unfold next.
    destruct (subs ch !! id) as [s|] eqn:Hs; [|done].
    destruct (queue s) as [|v q] eqn:Hq; rewrite ?Hopen;
      unfold with_subs, chan_inv; cbn [snd closed subs capacity chanConfig].
    + split; [done|]. intros id' Hid'.
      destruct (decide (id' = id)) as [->|Hne].
      * rewrite lookup_insert_eq. eexists. split; [done|].
        destruct (Hsubs id Hid') as (s' & Hs' & [Hw Hsub Hall Hlag]).
        rewrite Hs in Hs'. injection Hs' as <-. rewrite Hq in *.
        split; cbn [queue waiters lag failed delivered]; auto.
      * rewrite lookup_insert_ne by done. by apply Hsubs.
    + split; [done|]. intros id' Hid'.
      destruct (decide (id' = id)) as [->|Hne].
      * rewrite lookup_insert_eq. eexists. split; [done|].
        destruct (Hsubs id Hid') as (s' & Hs' & [Hw Hsub Hall Hlag]).
        rewrite Hs in Hs'. injection Hs' as <-. rewrite Hq in *.
        destruct Hw as [Hw|?]; [|done].
        split; cbn [queue waiters lag failed delivered];
          rewrite <- ?app_assoc; cbn [app]; auto.
      * rewrite lookup_insert_ne by done. by apply Hsubs.
Qed.

Lemma sent_app (ops1 ops2 : list (Op T)) : sent (ops1 ++ ops2) = sent ops1 ++ sent ops2.
Proof. apply omap_app. Qed.

Lemma chan_inv_exec k ops : ∀ sent0 ch,
  chan_inv k sent0 ch → chan_inv k (sent0 ++ sent ops) (exec ops ch) ∧
  capacity (exec ops ch) = capacity ch.
Proof.
  induction ops as [|o ops IH]; intros sent0 ch Hinv.
  - simpl. by rewrite app_nil_r.
  - change (exec (o :: ops) ch) with (exec ops (exec_op ch o)).
    apply (chan_inv_step _ _ _ o) in Hinv.
    destruct (IH _ _ Hinv) as [Hinv' Hcap].
    rewrite Hcap, exec_op_capacity. split; [|done].
    replace (sent0 ++ sent (o :: ops))
      with ((sent0 ++ match o with OSend item => [item] | ONext _ => [] end) ++ sent ops);
      [exact Hinv'|].
    rewrite <- app_assoc. f_equal. by destruct o.
Qed.

(** Reading a queue to its end hands over all of it, in order. *)
Lemma drain_spec id : ∀ q ch s,
  subs ch !! id = Some s → queue s = q →
  observed id (exec (replicate (length q) (ONext id)) ch) = delivered s ++ q ∧
  backlog id (exec (replicate (length q) (ONext id)) ch) = [].
Proof.
  induction q as [|v q IH]; intros ch s Hs Hq.
  - unfold observed, backlog. simpl. rewrite Hs, Hq, app_nil_r. done.
  - change (exec (replicate (length (v :: q)) (ONext id)) ch)
      with (exec (replicate (length q) (ONext id)) (next id ch).2).
    unfold next. rewrite Hs, Hq. cbn [snd].
    edestruct (IH (with_subs (insert id
                 {| queue := q; waiters := waiters s; lag := lag s; failed := failed s;
                    delivered := delivered s ++ [v]; ended := ended s |}) ch))
      as [Ho Hb]; [apply lookup_insert_eq|reflexivity|].
    cbn [delivered] in Ho. rewrite Ho, Hb, <- app_assoc. done.
Qed.

Lemma lagged_false id ch s :
  subs ch !! id = Some s → lagged id ch = false ↔ lag s = 0 ∧ failed s = false.
Proof.
  intros Hs. unfold lagged. rewrite Hs, orb_false_iff, negb_false_iff, Nat.eqb_eq. done.
Qed.

(** Delivery on an open channel with [k] subscriptions, for one of them. *)
Lemma delivery cap cfg k (ops : list (Op T)) id :
  id < k →
  let ch := exec ops (opened cap cfg k) in
  sublist (observed id ch ++ backlog id ch) (sent ops) ∧
  (lagged id ch = false →
   observed id ch ++ backlog id ch = sent ops ∧
   observed id (drain id ch) = sent ops) ∧
  (length (sent ops) ≤ cap → lagged id ch = false).
Proof.
  intros Hid ch.
  destruct (chan_inv_exec k ops [] _ (chan_inv_opened cap cfg k)) as [[_ Hinv] Hcap].
  destruct (Hinv id Hid) as (s & Hs & [Hw Hsub Hall Hlag]).
  destruct (opened_spec cap cfg k) as (_ & Hcap0 & _).
  rewrite Hcap, Hcap0 in Hlag.
  fold ch in Hs. rewrite app_nil_l in Hsub, Hall, Hlag.
  assert (observed id ch = delivered s) as Ho by (unfold observed; by rewrite Hs).
  assert (backlog id ch = queue s) as Hb by (unfold backlog; by rewrite Hs).
  rewrite Ho, Hb. split; [done|]. split.
  - intros [Hl Hf]%(lagged_false _ _ _ Hs). split; [by apply Hall|].
    unfold drain. rewrite Hb.
    destruct (drain_spec id (queue s) ch s Hs eq_refl) as [-> _]. by apply Hall.
  - intros Hlen. apply (lagged_false _ _ _ Hs). destruct Hlag as [?|?]; [lia|done].
Qed.

End Facts.
End ChannelFacts.

Section BroadcastDelivery.
Import Channel Engine ChannelFacts EngineFacts.

Lemma executor_tasks_elem ar n : ∀ i0 base j,
  j < n →
  ExecutorTask (i0 + j) {| sub_chan := ar; sub_id := base + j |} ∈
    executor_tasks ar i0 base n.
Proof.
  induction n as [|n IH]; intros i0 base j Hj; [lia|].
  simpl. destruct j as [|j].
  - rewrite !Nat.add_0_r. by left.
  - right. replace (i0 + S j) with (S i0 + j) by lia.
    replace (base + S j) with (S base + j) by lia. apply IH. lia.
Qed.

(** After a [run] that succeeds the engine holds an open action channel
    with one subscription per executor, numbered in order, and the task of
    executor [i] reads subscription [i]. *)
Lemma run_action_channel {E A} (self : nat) (s : State E A) ts s' :
  run self s = (Ok ts, s') →
  ∃ ar,
    actionChannel s' = Some ar ∧
    actionHeap s' !! ar =
      Some (opened (actionChannelCapacity (config s)) (actionChannelConfig (config s))
                   (length (executors s))) ∧
    ∀ i, i < length (executors s) →
         ExecutorTask i {| sub_chan := ar; sub_id := i |} ∈ ts.
Proof.
  intros Hrun. rewrite run_spec in Hrun.
  repeat (case_decide; [discriminate Hrun|]).
  destruct (running s); [discriminate Hrun|].
  destruct (sync_failure (strategies s)); [discriminate Hrun|].
  injection Hrun as <- <-. eexists. cbn [actionChannel actionHeap].
  split; [reflexivity|]. split; [apply lookup_insert_eq|].
  intros i Hi. unfold run_tasks. apply elem_of_app. left.
  apply (executor_tasks_elem _ _ 0 0 i Hi).
Qed.

(** C1, as the channel has it: on an open broadcast channel with [k]
    subscriptions, whatever the order of sends and reads, a subscription
    has been given, and still holds, a part of the sent items, in send
    order.  It is all of them, and its consumer has observed exactly the
    sent sequence once it has read its queue empty, when the subscription
    lost no item to overflow; that is so whenever no more items were sent
    than the capacity.  Two such subscriptions observe the same sequence,
    and after a [run] that succeeds the executors hold the subscriptions
    [0 .. n-1] of one such action channel. *)
Theorem broadcast_delivery {T} (cap : nat) (cfg : BroadcastChannelConfig) (k : nat)
    (ops : list (Op T)) (id : nat) :
  id < k →
  let ch := exec ops (opened cap cfg k) in
  sublist (observed id ch ++ backlog id ch) (sent ops) ∧
  (lagged id ch = false →
   observed id ch ++ backlog id ch = sent ops ∧
   observed id (drain id ch) = sent ops) ∧
  (length (sent ops) ≤ cap → lagged id ch = false) ∧
  (∀ id', id' < k → lagged id ch = false → lagged id' ch = false →
          observed id (drain id ch) = observed id' (drain id' ch)) ∧
  (∀ E (self : nat) (s : State E T) ts s',
     run self s = (Ok ts, s') →
     ∃ ar,
       actionChannel s' = Some ar ∧
       actionHeap s' !! ar =
         Some (opened (actionChannelCapacity (config s))
                      (actionChannelConfig (config s)) (length (executors s))) ∧
       ∀ i, i < length (executors s) →
            ExecutorTask i {| sub_chan := ar; sub_id := i |} ∈ ts).
Proof.
  intros Hid ch.
  destruct (delivery cap cfg k ops id Hid) as (H1 & H2 & H3).
  split; [exact H1|]. split; [exact H2|]. split; [exact H3|]. split.
  - intros id' Hid' Hl Hl'.
    destruct (delivery cap cfg k ops id' Hid') as (_ & H2' & _).
    destruct (H2 Hl) as [_ Ha]. destruct (H2' Hl') as [_ Hb].
    etrans; [exact Ha|symmetry; exact Hb].
  - intros E self s ts s'. apply run_action_channel.
Qed.

(** Witness of C1: two subscriptions, three items within the capacity,
    one consumer reading as items arrive and one reading at the end. *)
Lemma broadcast_delivery_witness :
  let ops := [OSend 10; ONext 0; OSend 20; OSend 30; ONext 0] in
  let ch := exec ops (opened 4 {| throwOnLag := false; lagReportInterval := 100 |} 2) in
  observed 1 (drain 1 ch) = [10; 20; 30] ∧
  observed 0 (drain 0 ch) = observed 1 (drain 1 ch).
Proof.
  intros ops ch.
  destruct (broadcast_delivery 4 {| throwOnLag := false; lagReportInterval := 100 |} 2
              ops 1 ltac:(lia)) as (_ & H2 & H3 & H4 & _).
  destruct (broadcast_delivery 4 {| throwOnLag := false; lagReportInterval := 100 |} 2
              ops 0 ltac:(lia)) as (_ & _ & H3' & H4' & _).
  split.
  - apply H2. apply H3. simpl. lia.
  - apply H4'; [lia | apply H3'; simpl; lia | apply H3; simpl; lia].
Defined.

(** C1 as stated fails: with capacity 1, a consumer that reads after
    two sends observes only the second item. *)
Lemma broadcast_delivery_counterexample :
  let ops := [OSend 1; OSend 2] in
  let ch := exec ops (opened 1 {| throwOnLag := false; lagReportInterval := 100 |} 1) in
  observed 0 (drain 0 ch) = [2] ∧ observed 0 (drain 0 ch) ≠ sent ops.
Proof. split; [vm_compute; reflexivity|]. vm_compute. discriminate. Qed.
End BroadcastDelivery.

(** * Facts about the collector streams *)

Module StreamFacts.

Section Trace.
Context {S O R : Type} (step : O → S → S * list R).

Lemma run_trace_snoc ops o s :
  run_trace step (ops ++ [o]) s =
    ((step o (run_trace step ops s).1).1,
     (run_trace step ops s).2 ++ (step o (run_trace step ops s).1).2).
Proof. unfold run_trace. by rewrite foldl_app. Qed.

(** An invariant of the state and of what was put out so far. *)
Lemma run_trace_invariant (I : S → list R → Prop) s :
  I s [] →
  (∀ s out o, I s out → I (step o s).1 (out ++ (step o s).2)) →
  ∀ ops, I (run_trace step ops s).1 (run_trace step ops s).2.
Proof.
  intros H0 Hstep ops. induction ops as [|o ops IH] using rev_ind; [done|].
  rewrite run_trace_snoc. by apply Hstep.
Qed.

(** The same for the runs whose steps all satisfy [P]. *)
Lemma run_trace_invariant_on (P : O → Prop) (I : S → list R → Prop) s :
  I s [] →
  (∀ s out o, P o → I s out → I (step o s).1 (out ++ (step o s).2)) →
  ∀ ops, Forall P ops → I (run_trace step ops s).1 (run_trace step ops s).2.
Proof.
  intros H0 Hstep ops. induction ops as [|o ops IH] using rev_ind;
    [intros _; exact H0|].
  rewrite Forall_app, Forall_singleton. intros [Hops Ho].
  rewrite run_trace_snoc. apply Hstep; [exact Ho|]. by apply IH.
Qed.
End Trace.

Section Buffers.
Context {T : Type}.
Implicit Types b : Buffer.t T.

Lemma values_app (o1 o2 : list (Buffer.Resolution T)) :
  Buffer.values (o1 ++ o2) = Buffer.values o1 ++ Buffer.values o2.
Proof. apply omap_app. Qed.

Lemma values_done (l : list nat) :
  Buffer.values ((λ r, (r, IterDone (T:=T))) <$> l) = [].
Proof. by induction l. Qed.

Import Buffer.

Lemma finish_over b : over (Buffer.finish b).1.
Proof. done. Qed.

Lemma cleanup_over b : over (Buffer.cleanup b).1.
Proof. done. Qed.

Lemma push_over n item b :
  over b → over (push n item b).1 ∧ values (push n item b).2 = [].
Proof. intros [Hd Hr]. unfold push. rewrite Hr. by split. Qed.

Lemma next_over pid b : over b → next pid b = (b, [(pid, IterDone)]).
Proof. intros [Hd Hr]. unfold next. by rewrite Hd. Qed.

Lemma next_over_values pid b :
  over b → over (next pid b).1 ∧ values (next pid b).2 = [].
Proof. intros Ho. by rewrite next_over. Qed.

Lemma finish_of_over b :
  over b → over (finish b).1 ∧ values (finish b).2 = [].
Proof. intros [Hd Hr]. unfold finish. rewrite Hr. by split. Qed.

Lemma cleanup_of_over pid b :
  over b →
  over (cleanup b).1 ∧ values ((pid, IterDone) :: (cleanup b).2) = [].
Proof. intros [Hd Hr]. unfold cleanup, finish. rewrite Hr. by split. Qed.
End Buffers.

(** Once the buffer of a stream is over, the stream has ended. *)
Lemma ended_of_over {S O T} (step : O → S → S * list (Buffer.Resolution T))
    (next : nat → S → S * list (Buffer.Resolution T)) (buf : S → Buffer.t T) s :
  (∀ s o, Buffer.over (buf s) →
          Buffer.over (buf (step o s).1) ∧ Buffer.values (step o s).2 = []) →
  (∀ s pid, Buffer.over (buf s) → (next pid s).2 = [(pid, IterDone)]) →
  Buffer.over (buf s) → ended step next s.
Proof.
  intros Hstep Hnext Hs ops pid.
  pose proof (run_trace_invariant step
                (λ s out, Buffer.over (buf s) ∧ Buffer.values out = []) s) as Hinv.
  destruct (Hinv (conj Hs eq_refl)) with (ops := ops) as [Ho Hv].
  { intros s1 out o [Ho Hv]. destruct (Hstep s1 o Ho) as [Ho' Hv'].
    split; [done|]. by rewrite values_app, Hv, Hv'. }
  split; [done|]. by apply Hnext.
Qed.

Lemma interval_ended (s : IntervalCollectorBun.Stream) :
  Buffer.over s → ended IntervalCollectorBun.step IntervalCollectorBun.next s.
Proof.
  apply (ended_of_over _ _ (λ s, s)).
  - intros s1 o Ho. destruct o as [[ts|]| |pid|pid];
      unfold IntervalCollectorBun.step, IntervalCollectorBun.ipc,
        IntervalCollectorBun.onExit, IntervalCollectorBun.next,
        IntervalCollectorBun.return_, IntervalCollectorBun.cleanup.
    + by apply push_over.
    + done.
    + by apply finish_of_over.
    + by apply next_over_values.
    + by apply cleanup_of_over.
  - intros s1 pid Ho. unfold IntervalCollectorBun.next. by rewrite next_over.
Qed.

Lemma block_bun_ended maxQueueSize parse (s : BlockCollectorBun.Stream) :
  Buffer.over s →
  ended (BlockCollectorBun.step maxQueueSize parse) BlockCollectorBun.next s.
Proof.
  apply (ended_of_over _ _ (λ s, s)).
  - intros s1 o Ho. destruct o as [[t|m|data|]| |pid|pid];
      unfold BlockCollectorBun.step, BlockCollectorBun.ipc,
        BlockCollectorBun.onExit, BlockCollectorBun.next,
        BlockCollectorBun.return_, BlockCollectorBun.cleanup; try done.
    + destruct (parse data) as [block|]; [|done]. by apply push_over.
    + by apply finish_of_over.
    + by apply next_over_values.
    + by apply cleanup_of_over.
  - intros s1 pid Ho. unfold BlockCollectorBun.next. by rewrite next_over.
Qed.

Lemma polling_ended config (s : BlockCollector.PollStream) :
  Buffer.over (BlockCollector.buffer s) →
  ended (BlockCollector.step config) BlockCollector.next s.
Proof.
  apply (ended_of_over _ _ BlockCollector.buffer).
  - intros s1 o Ho. destruct o as [|r|pid|pid]; unfold BlockCollector.step.
    + unfold BlockCollector.pollBlock_call.
      destruct (BlockCollector.isPolling s1 || _); done.
    + unfold BlockCollector.pollBlock_settle, BlockCollector.reset_backoff.
      destruct Ho as [Hd Hr].
      destruct (BlockCollector.isPolling s1); cbn [negb]; [|done].
      destruct r as [[n body]|e].
      * destruct (0 <? BlockCollector.consecutiveErrors s1)%Z;
          cbn [BlockCollector.buffer]; by rewrite Hd.
      * by rewrite Hd.
    + unfold BlockCollector.next. cbn [fst snd BlockCollector.buffer].
      by apply next_over_values.
    + unfold BlockCollector.return_, BlockCollector.cleanup.
      cbn [fst snd BlockCollector.buffer]. by apply cleanup_of_over.
  - intros s1 pid Ho. unfold BlockCollector.next. cbn [snd]. by rewrite next_over.
Qed.

(** *** Block streams *)

Lemma StronglySorted_sublist {A} (R : A → A → Prop) l1 l2 :
  sublist l1 l2 → StronglySorted R l2 → StronglySorted R l1.
Proof.
  induction 1 as [|x l1 l2 Hsub IH|x l1 l2 Hsub IH]; intros Hs.
  - constructor.
  - apply StronglySorted_cons in Hs as [Hx Hs]. apply StronglySorted_cons.
    split; [|by apply IH]. rewrite Forall_forall in *.
    intros y Hy. apply Hx. by eapply elem_of_sublist.
  - apply StronglySorted_cons in Hs as [_ Hs]. by apply IH.
Qed.

Lemma Forall_sublist {A} (P : A → Prop) l1 l2 :
  sublist l1 l2 → Forall P l2 → Forall P l1.
Proof.
  rewrite !Forall_forall. intros Hsub H x Hx. apply H. by eapply elem_of_sublist.
Qed.

Lemma increasing_sublist l1 l2 : sublist l1 l2 → increasing l2 → increasing l1.
Proof.
  intros Hsub [Hn Hs]. split; [by eapply Forall_sublist|by eapply StronglySorted_sublist].
Qed.

Lemma null_defined : Null ≠ Undefined.
Proof. discriminate. Qed.

Lemma is_new_above last n :
  last ≠ Undefined → BlockCollector.is_new last (Number n) = above (bigint_of last) n.
Proof. by destruct last. Qed.

Lemma not_after_mono last n block :
  above last n = true → not_after last block → not_after (Some n) block.
Proof.
  unfold not_after, above.
  destruct (bigint_of (number block)) as [x|], last as [l|]; try done.
  intros Hlt%Z.ltb_lt. lia.
Qed.

(** A new block goes behind everything given or queued so far. *)
Lemma increasing_snoc last l block n :
  increasing l → Forall (not_after last) l →
  number block = Number n → above last n = true →
  increasing (l ++ [block]) ∧ Forall (not_after (Some n)) (l ++ [block]).
Proof.
  intros [Hn Hs] Hl Hb Hnew. split; [split|].
  - apply Forall_app. split; [done|]. repeat constructor. unfold numbered. by rewrite Hb.
  - apply StronglySorted_app. split; [|split; [done|repeat constructor]].
    intros x y Hx ->%list_elem_of_singleton.
    rewrite Forall_forall in Hl. specialize (Hl x Hx).
    unfold not_after, block_lt, above in *. rewrite Hb. cbn [bigint_of].
    destruct (bigint_of (number x)) as [nx|], last as [l0|]; try done.
    apply Z.ltb_lt in Hnew. lia.
  - apply Forall_app. split.
    + eapply Forall_impl; [done|]. intros x. by apply not_after_mono.
    + repeat constructor. unfold not_after. rewrite Hb. cbn [bigint_of]. lia.
Qed.

Lemma push_block_inv maxQueueSize last given b block n :
  block_inv last given b →
  number block = Number n → above last n = true →
  block_inv (Some n) (given ++ Buffer.values (Buffer.push maxQueueSize block b).2)
    (Buffer.push maxQueueSize block b).1.
Proof.
  intros (Hinc & Hall & Hw) Hb Hnew. unfold Buffer.push.
  destruct (increasing_snoc last _ block n Hinc Hall Hb Hnew) as [Hinc' Hall'].
  destruct (Buffer.resolvers b) as [|resolve rest] eqn:Hr.
  - cbn [fst snd Buffer.values omap Buffer.queue Buffer.resolvers].
    rewrite app_nil_r.
    assert (sublist
              (given ++ (if decide (maxQueueSize < length (Buffer.queue b ++ [block]))
                         then tail (Buffer.queue b ++ [block])
                         else Buffer.queue b ++ [block]))
              ((given ++ Buffer.queue b) ++ [block])) as Hsub.
    { rewrite <- app_assoc. apply sublist_app; [done|].
      case_decide; [|done]. destruct (Buffer.queue b); simpl; [by constructor|].
      by apply sublist_cons. }
    split; [by eapply increasing_sublist|]. split; [by eapply Forall_sublist|by left].
  - destruct Hw as [?|Hq]; [done|].
    unfold block_inv. cbn [fst snd Buffer.queue Buffer.resolvers].
    change (Buffer.values [(resolve, IterValue block)]) with [block].
    rewrite Hq in *. rewrite !app_nil_r in *. split; [done|]. split; [done|by right].
Qed.

Lemma next_block_inv last given b pid :
  block_inv last given b →
  block_inv last (given ++ Buffer.values (Buffer.next pid b).2) (Buffer.next pid b).1.
Proof.
  intros (Hinc & Hall & Hw). unfold Buffer.next.
  destruct (Buffer.done b).
  { cbn [fst snd]. change (Buffer.values [(pid, IterDone)]) with (@nil Block).
    by rewrite app_nil_r. }
  destruct (Buffer.queue b) as [|item q] eqn:Hq.
  - unfold block_inv. cbn [fst snd Buffer.queue Buffer.resolvers].
    change (Buffer.values []) with (@nil Block).
    rewrite !app_nil_r in *. split; [done|]. split; [done|by right].
  - unfold block_inv. cbn [fst snd Buffer.queue Buffer.resolvers].
    change (Buffer.values [(pid, IterValue item)]) with [item].
    rewrite <- app_assoc. split; [done|]. split; [done|].
    left. by destruct Hw.
Qed.

Lemma cleanup_block_inv last given b pid :
  block_inv last given b →
  block_inv last (given ++ Buffer.values ((pid, IterDone) :: (Buffer.cleanup b).2))
    (Buffer.cleanup b).1.
Proof.
  intros (Hinc & Hall & Hw).
  unfold block_inv, Buffer.cleanup, Buffer.finish, Buffer.clear.
  cbn [fst snd Buffer.queue Buffer.resolvers].
  change (Buffer.values ((pid, IterDone) :: ?l)) with (Buffer.values l).
  rewrite values_done, !app_nil_r.
  assert (sublist given (given ++ Buffer.queue b)) as Hsub by by apply sublist_inserts_r.
  split; [by eapply increasing_sublist|]. split; [by eapply Forall_sublist|by left].
Qed.

(** What was given, of a stream in step, increases, and a block no
    higher than the last one given is not new. *)
Lemma block_inv_given lastBlockNumber given b :
  block_inv lastBlockNumber given b →
  increasing given ∧
  ∀ n m, last_number given = Some m → (n ≤ m)%Z → above lastBlockNumber n = false.
Proof.
  intros (Hinc & Hall & _). split.
  - eapply increasing_sublist; [|done]. by apply sublist_inserts_r.
  - intros n m Hlast Hle. unfold last_number in Hlast.
    destruct (last given) as [x|] eqn:Hx; [|done].
    apply last_Some_elem_of in Hx. rewrite Forall_forall in Hall.
    specialize (Hall x). unfold not_after in Hall. rewrite Hlast in Hall.
    unfold above. destruct lastBlockNumber as [l|].
    + apply Z.ltb_ge. etrans; [done|]. apply Hall. rewrite elem_of_app. by left.
    + exfalso. apply Hall. rewrite elem_of_app. by left.
Qed.

Lemma block_inv_empty : block_inv None [] Buffer.empty.
Proof. split; [split; constructor|]. split; [constructor|by left]. Qed.

(** The streams on blocks numbered as their type says: [lastBlockNumber]
    is [null] or a [bigint], and the stream is in step with it. *)
Lemma ws_step_inv config s out o :
  ws_typed o →
  BlockCollector.ws_lastBlockNumber s ≠ Undefined ∧
  block_inv (bigint_of (BlockCollector.ws_lastBlockNumber s)) (Buffer.values out)
    (BlockCollector.ws_buffer s) →
  BlockCollector.ws_lastBlockNumber (BlockCollector.ws_step config o s).1 ≠ Undefined ∧
  block_inv
    (bigint_of (BlockCollector.ws_lastBlockNumber (BlockCollector.ws_step config o s).1))
    (Buffer.values (out ++ (BlockCollector.ws_step config o s).2))
    (BlockCollector.ws_buffer (BlockCollector.ws_step config o s).1).
Proof.
  intros Ho [Hu Hinv]. rewrite values_app. destruct o as [block|pid|pid];
    unfold BlockCollector.ws_step.
  - unfold BlockCollector.onBlock. simpl in Ho.
    destruct (Buffer.done _); [by rewrite app_nil_r|].
    destruct (number block) as [| |n] eqn:Hb; [by rewrite app_nil_r|done|].
    rewrite is_new_above by done.
    destruct (above _ n) eqn:Hnew; [|by rewrite app_nil_r].
    cbn [fst snd BlockCollector.ws_lastBlockNumber BlockCollector.ws_buffer bigint_of].
    split; [done|]. by eapply push_block_inv.
  - unfold BlockCollector.ws_next.
    cbn [fst snd BlockCollector.ws_lastBlockNumber BlockCollector.ws_buffer].
    split; [done|]. by apply next_block_inv.
  - unfold BlockCollector.ws_return, BlockCollector.cleanupFn.
    cbn [fst snd BlockCollector.ws_lastBlockNumber BlockCollector.ws_buffer].
    split; [done|]. by apply cleanup_block_inv.
Qed.

Lemma poll_step_inv config s out o :
  poll_typed o →
  BlockCollector.lastBlockNumber s ≠ Undefined ∧
  block_inv (bigint_of (BlockCollector.lastBlockNumber s)) (Buffer.values out)
    (BlockCollector.buffer s) →
  BlockCollector.lastBlockNumber (BlockCollector.step config o s).1 ≠ Undefined ∧
  block_inv (bigint_of (BlockCollector.lastBlockNumber (BlockCollector.step config o s).1))
    (Buffer.values (out ++ (BlockCollector.step config o s).2))
    (BlockCollector.buffer (BlockCollector.step config o s).1).
Proof.
  intros Ho [Hu Hinv]. rewrite values_app. destruct o as [|r|pid|pid];
    unfold BlockCollector.step.
  - unfold BlockCollector.pollBlock_call. rewrite app_nil_r.
    by destruct (BlockCollector.isPolling s || _).
  - unfold BlockCollector.pollBlock_settle.
    destruct (BlockCollector.isPolling s); cbn [negb]; [|by rewrite app_nil_r].
    destruct r as [block|e].
    + assert (BlockCollector.lastBlockNumber (BlockCollector.reset_backoff config s)
                ≠ Undefined ∧
              block_inv
                (bigint_of
                   (BlockCollector.lastBlockNumber (BlockCollector.reset_backoff config s)))
                (Buffer.values out)
                (BlockCollector.buffer (BlockCollector.reset_backoff config s)))
        as [Hu' Hinv'].
      { unfold BlockCollector.reset_backoff.
        by destruct (0 <? BlockCollector.consecutiveErrors s)%Z. }
      revert Hu' Hinv'. generalize (BlockCollector.reset_backoff config s).
      intros s1 Hu' Hinv'.
      destruct (Buffer.done _); [by rewrite app_nil_r|].
      unfold BlockCollector.process. simpl in Ho.
      destruct (number block) as [| |n] eqn:Hb; [by destruct Ho..|].
      rewrite is_new_above by done.
      destruct (above _ n) eqn:Hnew; [|by rewrite app_nil_r].
      cbn [fst snd BlockCollector.lastBlockNumber BlockCollector.buffer
           BlockCollector.set_isPolling bigint_of].
      split; [done|]. by eapply push_block_inv.
    + destruct (Buffer.done _); cbn [fst snd]; rewrite app_nil_r; [done|].
      unfold BlockCollector.backoff. by destruct (_ && _).
  - unfold BlockCollector.next.
    cbn [fst snd BlockCollector.lastBlockNumber BlockCollector.buffer].
    split; [done|]. by apply next_block_inv.
  - unfold BlockCollector.return_, BlockCollector.cleanup.
    cbn [fst snd BlockCollector.lastBlockNumber BlockCollector.buffer].
    split; [done|]. by apply cleanup_block_inv.
Qed.

Lemma sendBlock_inv w sent block :
  increasing sent ∧ Forall (not_after (BlockCollectorWorker.lastBlockNumber w)) sent →
  increasing (sent ++ (BlockCollectorWorker.sendBlock block w).2) ∧
  Forall (not_after (BlockCollectorWorker.lastBlockNumber
                       (BlockCollectorWorker.sendBlock block w).1))
         (sent ++ (BlockCollectorWorker.sendBlock block w).2).
Proof.
  intros [Hinc Hall]. unfold BlockCollectorWorker.sendBlock.
  destruct (number block) as [| |n] eqn:Hb; [by rewrite app_nil_r..|].
  destruct (BlockCollectorWorker.lastBlockNumber w) as [l|] eqn:Hl.
  - destruct (l <? n)%Z eqn:Hlt; [|cbn [fst snd]; by rewrite app_nil_r, Hl].
    by apply (increasing_snoc (Some l)).
  - by apply (increasing_snoc None).
Qed.

End StreamFacts.

Section StreamCleanup.
Import StreamFacts.

(** C10, as the streams have it: the cleanup of a collector stream, run
    by its [return()], resolves every pending [next()] with end-of-stream,
    empties the queue, and ends the stream: from then on no item is handed
    out and every [next()] answers end-of-stream at once; this for
    [IntervalCollectorBun], [BlockCollectorBun] and the polling stream of
    [BlockCollector].  The exit of the worker process of the two Bun
    collectors does the same, except that it leaves the queue as it is. *)
Theorem cleanup_ends_stream :
  (∀ s : IntervalCollectorBun.Stream,
     (IntervalCollectorBun.cleanup s).2 = (λ r, (r, IterDone)) <$> Buffer.resolvers s ∧
     Buffer.queue (IntervalCollectorBun.cleanup s).1 = [] ∧
     ended IntervalCollectorBun.step IntervalCollectorBun.next
       (IntervalCollectorBun.cleanup s).1 ∧
     ∀ pid, (IntervalCollectorBun.return_ pid s).1 = (IntervalCollectorBun.cleanup s).1 ∧
            (IntervalCollectorBun.return_ pid s).2 =
              (pid, IterDone) :: (IntervalCollectorBun.cleanup s).2) ∧
  (∀ s : IntervalCollectorBun.Stream,
     (IntervalCollectorBun.onExit s).2 = (λ r, (r, IterDone)) <$> Buffer.resolvers s ∧
     Buffer.queue (IntervalCollectorBun.onExit s).1 = Buffer.queue s ∧
     ended IntervalCollectorBun.step IntervalCollectorBun.next
       (IntervalCollectorBun.onExit s).1) ∧
  (∀ maxQueueSize parse (s : BlockCollectorBun.Stream),
     (BlockCollectorBun.cleanup s).2 = (λ r, (r, IterDone)) <$> Buffer.resolvers s ∧
     Buffer.queue (BlockCollectorBun.cleanup s).1 = [] ∧
     ended (BlockCollectorBun.step maxQueueSize parse) BlockCollectorBun.next
       (BlockCollectorBun.cleanup s).1 ∧
     ∀ pid, (BlockCollectorBun.return_ pid s).1 = (BlockCollectorBun.cleanup s).1 ∧
            (BlockCollectorBun.return_ pid s).2 =
              (pid, IterDone) :: (BlockCollectorBun.cleanup s).2) ∧
  (∀ maxQueueSize parse (s : BlockCollectorBun.Stream),
     (BlockCollectorBun.onExit s).2 = (λ r, (r, IterDone)) <$> Buffer.resolvers s ∧
     Buffer.queue (BlockCollectorBun.onExit s).1 = Buffer.queue s ∧
     ended (BlockCollectorBun.step maxQueueSize parse) BlockCollectorBun.next
       (BlockCollectorBun.onExit s).1) ∧
  (∀ config (s : BlockCollector.PollStream),
     (BlockCollector.cleanup s).2 =
       (λ r, (r, IterDone)) <$> Buffer.resolvers (BlockCollector.buffer s) ∧
     Buffer.queue (BlockCollector.buffer (BlockCollector.cleanup s).1) = [] ∧
     ended (BlockCollector.step config) BlockCollector.next (BlockCollector.cleanup s).1 ∧
     ∀ pid, (BlockCollector.return_ pid s).1 = (BlockCollector.cleanup s).1 ∧
            (BlockCollector.return_ pid s).2 =
              (pid, IterDone) :: (BlockCollector.cleanup s).2).
Proof.
  split; [|split; [|split; [|split]]].
  - intros s. split; [done|]. split; [done|]. split; [by apply interval_ended|done].
  - intros s. split; [done|]. split; [done|]. by apply interval_ended.
  - intros maxQueueSize parse s. split; [done|]. split; [done|].
    split; [by apply block_bun_ended|done].
  - intros maxQueueSize parse s. split; [done|]. split; [done|].
    by apply block_bun_ended.
  - intros config s. split; [done|]. split; [done|].
    split; [by apply polling_ended|done].
Qed.

(** C10 as stated fails where the worker process exits: an event
    that was buffered stays in the queue. *)
Lemma cleanup_ends_stream_counterexample :
  let s := (IntervalCollectorBun.ipc (IntervalCollectorBun.Timestamp "2026-01-01T00:00:00Z")
              Buffer.empty).1 in
  Buffer.queue (IntervalCollectorBun.onExit s).1 = ["2026-01-01T00:00:00Z"] ∧
  Buffer.queue (IntervalCollectorBun.onExit s).1 ≠ [].
Proof. split; [reflexivity|discriminate]. Qed.
End StreamCleanup.

Section BlockStreams.
Import StreamFacts.
Local Open Scope Z_scope.

(** C9, as the streams have it: on incoming blocks numbered as their
    type says, every block stream hands out blocks with strictly
    increasing, defined numbers, however the consumer reads.  The WebSocket
    stream of [BlockCollector], for blocks whose number is a [bigint] or
    [undefined]: a block whose number is [undefined], or no higher than the
    last block handed out, is skipped (the stream stays as it is and
    nothing is handed out).  The polling stream, which has no test for a
    missing number, for answers of [getBlock] that have a [bigint] number:
    a block numbered no higher than the last one handed out is skipped.  The
    worker of [BlockCollectorBun], for any blocks: a block whose number is
    [undefined] or [null], or no higher than the last one sent, is not
    sent. *)
Theorem block_streams_increasing :
  (∀ config ops,
     Forall ws_typed ops →
     let r := run_trace (BlockCollector.ws_step config) ops BlockCollector.ws_start in
     increasing (Buffer.values r.2) ∧
     ∀ block,
       number block = Undefined ∨
       (∃ n m, number block = Number n ∧
               last_number (Buffer.values r.2) = Some m ∧ n ≤ m) →
       BlockCollector.onBlock config block r.1 = (r.1, [])) ∧
  (∀ config ops,
     Forall poll_typed ops →
     let r := run_trace (BlockCollector.step config) ops (BlockCollector.poll_start config) in
     increasing (Buffer.values r.2) ∧
     ∀ block n m,
       number block = Number n →
       last_number (Buffer.values r.2) = Some m → n ≤ m →
       BlockCollector.process config block r.1 = (r.1, []) ∧
       (BlockCollector.pollBlock_settle config (Ok block) r.1).2 = [] ∧
       BlockCollector.buffer
         (BlockCollector.pollBlock_settle config (Ok block) r.1).1 =
         BlockCollector.buffer r.1) ∧
  (∀ blocks,
     let r := run_trace BlockCollectorWorker.sendBlock blocks BlockCollectorWorker.start in
     increasing r.2 ∧
     ∀ block,
       number block = Undefined ∨ number block = Null ∨
       (∃ n m, number block = Number n ∧ last_number r.2 = Some m ∧ n ≤ m) →
       BlockCollectorWorker.sendBlock block r.1 = (r.1, [])).
Proof.
  split; [|split].
  - intros config ops Hops r.
    pose proof (run_trace_invariant_on (BlockCollector.ws_step config) ws_typed
      (λ s out, BlockCollector.ws_lastBlockNumber s ≠ Undefined ∧
                block_inv (bigint_of (BlockCollector.ws_lastBlockNumber s))
                  (Buffer.values out) (BlockCollector.ws_buffer s))
      BlockCollector.ws_start (conj null_defined block_inv_empty)
      (λ s out o, ws_step_inv config s out o) ops Hops) as [Hu Hinv].
    fold r in Hu, Hinv. destruct (block_inv_given _ _ _ Hinv) as [Hinc Hskip].
    split; [done|]. intros block Hb. unfold BlockCollector.onBlock.
    destruct (Buffer.done _); [done|].
    destruct Hb as [->|(n & m & -> & Hlast & Hle)]; [done|].
    by rewrite is_new_above, (Hskip n m Hlast Hle).
  - intros config ops Hops r.
    pose proof (run_trace_invariant_on (BlockCollector.step config) poll_typed
      (λ s out, BlockCollector.lastBlockNumber s ≠ Undefined ∧
                block_inv (bigint_of (BlockCollector.lastBlockNumber s))
                  (Buffer.values out) (BlockCollector.buffer s))
      (BlockCollector.poll_start config) (conj null_defined block_inv_empty)
      (λ s out o, poll_step_inv config s out o) ops Hops) as [Hu Hinv].
    fold r in Hu, Hinv. destruct (block_inv_given _ _ _ Hinv) as [Hinc Hskip].
    split; [done|]. intros block n m Hb Hlast Hle.
    specialize (Hskip n m Hlast Hle).
    assert (BlockCollector.process config block r.1 = (r.1, [])) as Hp.
    { unfold BlockCollector.process. by rewrite Hb, is_new_above, Hskip. }
    split; [done|].
    unfold BlockCollector.pollBlock_settle.
    destruct (BlockCollector.isPolling r.1); cbn [negb]; [|done].
    assert (BlockCollector.process config block (BlockCollector.reset_backoff config r.1) =
            (BlockCollector.reset_backoff config r.1, []) ∧
            BlockCollector.buffer (BlockCollector.reset_backoff config r.1) =
            BlockCollector.buffer r.1) as [Hp' Hbuf].
    { unfold BlockCollector.reset_backoff.
      destruct (0 <? BlockCollector.consecutiveErrors r.1); [|done].
      split; [|done]. unfold BlockCollector.process in *.
      cbn [BlockCollector.lastBlockNumber]. by rewrite Hb, is_new_above, Hskip. }
    rewrite Hp'. by destruct (Buffer.done _).
  - intros blocks r.
    pose proof (run_trace_invariant BlockCollectorWorker.sendBlock
      (λ w sent, increasing sent ∧
                 Forall (not_after (BlockCollectorWorker.lastBlockNumber w)) sent)
      BlockCollectorWorker.start) as Hinv.
    destruct Hinv with (ops := blocks) as [Hinc Hall].
    { split; [split|]; constructor. }
    { intros w sent block. apply sendBlock_inv. }
    fold r in Hinc, Hall. split; [done|].
    intros block Hb. unfold BlockCollectorWorker.sendBlock.
    destruct Hb as [->|[->|(n & m & -> & Hlast & Hle)]]; [done..|].
    unfold last_number in Hlast. destruct (last r.2) as [x|] eqn:Hx; [|done].
    apply last_Some_elem_of in Hx. rewrite Forall_forall in Hall.
    specialize (Hall x Hx). unfold not_after in Hall. rewrite Hlast in Hall.
    destruct (BlockCollectorWorker.lastBlockNumber r.1) as [l|]; [|done].
    destruct (Z.ltb_spec l n); [lia|done].
Qed.

(** Witness of C9: blocks 5, 3, one without number, and 7 on the
    WebSocket stream: 5 and 7 are handed out, and 5 is skipped if it comes
    again. *)
Lemma block_streams_increasing_witness :
  let r := run_trace (BlockCollector.ws_step BlockCollector.default_config)
             ws_example BlockCollector.ws_start in
  increasing (Buffer.values r.2) ∧
  BlockCollector.onBlock BlockCollector.default_config (block_at 5) r.1 = (r.1, []).
Proof.
  destruct block_streams_increasing as (Hws & _ & _).
  destruct (Hws BlockCollector.default_config ws_example) as [Hinc Hskip].
  { unfold ws_example. repeat constructor; discriminate. }
  split; [exact Hinc|].
  apply Hskip. right. exists 5, 7. split; [reflexivity|]. split; [reflexivity|lia].
Defined.

(** C9 as stated fails on blocks that are not numbered as their type
    says.  The polling stream hands out the block of a poll whose number is
    [undefined]; the WebSocket stream hands out a first block whose number
    is [null].  Neither list of blocks handed out has increasing, defined
    numbers. *)
Lemma block_streams_increasing_counterexample :
  Buffer.values
    (run_trace (BlockCollector.step BlockCollector.default_config)
       [BlockCollector.Next 0; BlockCollector.PollCall;
        BlockCollector.PollSettle (Ok unnumbered)]
       (BlockCollector.poll_start BlockCollector.default_config)).2 = [unnumbered] ∧
  Buffer.values
    (run_trace (BlockCollector.ws_step BlockCollector.default_config)
       [BlockCollector.WsNext 0; BlockCollector.OnBlock pending_block]
       BlockCollector.ws_start).2 = [pending_block] ∧
  ¬ increasing [unnumbered] ∧ ¬ increasing [pending_block].
Proof.
  split; [reflexivity|]. split; [reflexivity|].
  split; intros [Hn _]; rewrite Forall_singleton in Hn;
    destruct Hn as [n Hn]; discriminate Hn.
Qed.
End BlockStreams.

(** * Errors of the collaborators *)

Module ThrownFacts.
Import Supervisor SupervisorFacts.
Local Open Scope Z_scope.

Section Facts.
Context {V : Type} (cfg : EngineConfig).





End Facts.
End ThrownFacts.

Section ErrorPropagation.
Import Supervisor SupervisorFacts Engine EngineFacts ThrownFacts.
Local Open Scope Z_scope.

End ErrorPropagation.

Section ErrorPropagationWitness.
Import Supervisor Engine.


End ErrorPropagationWitness.

(** * More about the supervised loops *)

Module LoopFacts.
Import Supervisor SupervisorFacts.
Local Open Scope Z_scope.

Section Facts.
Context {V : Type} (cfg : EngineConfig).

(** One pass keeps the counters in range. *)
Lemma iteration_in_range (a : Attempt V) m :
  0 ≤ initialBackoffMs cfg ≤ maxBackoffMs cfg →
  in_range cfg m → in_range cfg (iteration cfg a m).2.
Proof.
  intros Hcfg (Hn & Hb & H0 & Hs). unfold in_range.
  destruct (attempt_error a) as [e|] eqn:Ha.
  - rewrite (iteration_failure cfg a e m Ha).
    destruct (is_closed e) eqn:Hc.
    { rewrite catch_block_closed by done. cbn [snd consecutiveErrors backoffMs effects].
      repeat split; try done; lia. }
    destruct (Z.ltb_spec (maxConsecutiveErrors cfg) (consecutiveErrors m + 1)).
    + rewrite catch_block_above by done.
      cbn [snd consecutiveErrors backoffMs effects].
      split; [lia|]. split; [lia|]. split; [lia|].
      rewrite !sleeps_app. apply Forall_app. split.
      * apply Forall_app. split; [done|]. repeat constructor; cbn; lia.
      * by destruct (stopOnCriticalError cfg && _).
    + rewrite catch_block_below by done.
      cbn [snd consecutiveErrors backoffMs effects]. repeat split; try done; lia.
  - unfold attempt_error in Ha. se_unfold.
    destruct (next_result a) as [[v|]|e']; simplify_eq/=; [|done].
    destruct (call_result a v) as [[]|e']; simplify_eq/=.
    destruct (Z.ltb_spec 0 (consecutiveErrors m)); simpl; [|done].
    repeat split; try done; lia.
Qed.

Lemma while_running_in_range (script : list (Tick V)) m :
  0 ≤ initialBackoffMs cfg ≤ maxBackoffMs cfg →
  in_range cfg m → in_range cfg (while_running cfg script m).2.
Proof.
  intros Hcfg. revert m. induction script as [|t script IH]; intros m Hm; [done|].
  destruct t as [|a]; [done|]. rewrite while_running_cons.
  pose proof (iteration_in_range a m Hcfg Hm) as Hi.
  destruct (iteration cfg a m) as [[[|]|e] m']; simpl in *; auto.
Qed.

Lemma init_in_range :
  0 ≤ initialBackoffMs cfg ≤ maxBackoffMs cfg → in_range cfg (init_mem cfg).
Proof. intros Hcfg. unfold in_range, init_mem. simpl. repeat split; try lia. constructor. Qed.

(** What one pass does about [stop]: nothing, or it calls it once and
    leaves the loop. *)
Lemma iteration_stop (a : Attempt V) m :
  let r := iteration cfg a m in
  stops (effects r.2) = stops (effects m) ∨
  (r.1 = Ok Break ∧ stops (effects r.2) = stops (effects m) ++ [()]).
Proof.
  cbv zeta. destruct (attempt_error a) as [e|] eqn:Ha.
  - rewrite (iteration_failure cfg a e m Ha).
    destruct (is_closed e) eqn:Hc.
    { rewrite catch_block_closed by done. by left. }
    destruct (catch_block_shape cfg e m Hc) as (b & sl & Hsl & ->).
    cbn [fst snd effects]. rewrite !stops_app.
    assert (stops sl = []) as -> by (by destruct Hsl as [[-> _]| ->]).
    rewrite app_nil_r.
    destruct (stopOnCriticalError cfg && _); [by right|left; by rewrite app_nil_r].
  - left. unfold attempt_error in Ha. se_unfold.
    destruct (next_result a) as [[v|]|e']; simplify_eq/=; [|done].
    destruct (call_result a v) as [[]|e']; simplify_eq/=.
    by destruct (0 <? consecutiveErrors m).
Qed.

Lemma while_running_stops_once (script : list (Tick V)) m :
  stops (effects m) = [] →
  let r := while_running cfg script m in
  stops (effects r.2) = [] ∨ (r.1 = Ok Exited ∧ stops (effects r.2) = [()]).
Proof.
  revert m. induction script as [|t script IH]; intros m Hm; [by left|].
  destruct t as [|a]; [by left|]. cbv zeta. rewrite while_running_cons.
  pose proof (iteration_stop a m) as Hi. cbv zeta in Hi. rewrite Hm in Hi.
  destruct (iteration cfg a m) as [[[|]|e] m']; simpl in *.
  - destruct Hi as [Hi|[? _]]; [by apply IH|done].
  - destruct Hi as [Hi|[_ Hi]]; [by left|by right].
  - destruct Hi as [Hi|[? _]]; [by left|done].
Qed.

(** With [stopOnCriticalError] the count of a loop that goes on is at
    most twice the threshold. *)
Lemma iteration_count (a : Attempt V) m :
  stopOnCriticalError cfg = true →
  0 ≤ maxConsecutiveErrors cfg →
  0 ≤ consecutiveErrors m ≤ maxConsecutiveErrors cfg * 2 →
  let r := iteration cfg a m in
  0 ≤ consecutiveErrors r.2 ≤ maxConsecutiveErrors cfg * 2 + 1 ∧
  (r.1 = Ok Continue → consecutiveErrors r.2 ≤ maxConsecutiveErrors cfg * 2).
Proof.
  intros Hs Hmax Hn. cbv zeta.
  destruct (attempt_error a) as [e|] eqn:Ha.
  - rewrite (iteration_failure cfg a e m Ha).
    destruct (is_closed e) eqn:Hc.
    { rewrite catch_block_closed by done. simpl. split; [lia|done]. }
    destruct (catch_block_shape cfg e m Hc) as (b & sl & Hsl & ->).
    rewrite Hs. cbn [fst snd consecutiveErrors andb].
    split; [lia|].
    destruct (Z.ltb_spec (maxConsecutiveErrors cfg * 2) (consecutiveErrors m + 1));
      [done|intros _; lia].
  - unfold attempt_error in Ha. se_unfold.
    destruct (next_result a) as [[v|]|e']; simplify_eq/=; [|split; [lia|done]].
    destruct (call_result a v) as [[]|e']; simplify_eq/=.
    destruct (0 <? consecutiveErrors m); simpl; split; lia.
Qed.

Lemma while_running_count (script : list (Tick V)) m :
  stopOnCriticalError cfg = true →
  0 ≤ maxConsecutiveErrors cfg →
  0 ≤ consecutiveErrors m ≤ maxConsecutiveErrors cfg * 2 →
  0 ≤ consecutiveErrors (while_running cfg script m).2 ≤ maxConsecutiveErrors cfg * 2 + 1.
Proof.
  intros Hs Hmax. revert m. induction script as [|t script IH]; intros m Hm;
    [simpl; lia|].
  destruct t as [|a]; [simpl; lia|]. rewrite while_running_cons.
  pose proof (iteration_count a m Hs Hmax Hm) as Hi. cbv zeta in Hi.
  destruct (iteration cfg a m) as [[[|]|e] m']; simpl in *; [|by destruct Hi..].
  apply IH. destruct Hi as [[? _] Hi]. split; [done|by apply Hi].
Qed.

End Facts.
End LoopFacts.

Section LoopInvariants.
Import Supervisor SupervisorFacts LoopFacts.
Local Open Scope Z_scope.
Context {V : Type}.

(** X1: in a loop configured with [0 <= initialBackoffMs <= maxBackoffMs],
    whatever the collaborators do, the count of consecutive errors is never
    negative, the backoff stays between [initialBackoffMs] and
    [maxBackoffMs] and is [initialBackoffMs] whenever no error is counted,
    and every sleep lasts between [initialBackoffMs] and [maxBackoffMs];
    [runCollector] also when [getEventStream] fails. *)
Theorem loop_counters_in_range (cfg : EngineConfig) (script : list (Tick V)) :
  0 ≤ initialBackoffMs cfg ≤ maxBackoffMs cfg →
  in_range cfg (runExecutor cfg script).2 ∧
  in_range cfg (runStrategy cfg script).2 ∧
  ∀ getEventStream, in_range cfg (runCollector cfg getEventStream script).2.
Proof.
  intros Hcfg.
  assert (in_range cfg (supervised cfg script).2) as H.
  { destruct (while_running_total cfg script (init_mem cfg)) as (x & m' & Hw).
    rewrite (supervised_eq cfg _ x m' Hw).
    pose proof (while_running_in_range cfg script _ Hcfg (init_in_range cfg Hcfg)) as Hr.
    by rewrite Hw in Hr. }
  split; [exact H|]. split; [exact H|].
  intros [[]|e]; [exact H|]. rewrite runCollector_failed. by apply init_in_range.
Qed.

(** X2: a loop that has left its [while] takes nothing more from its
    collaborators; a loop calls [stop] at most once, and when it has, its
    promise is resolved; and with [stopOnCriticalError] the count of
    consecutive errors never passes twice the threshold plus one. *)
Theorem loop_exit_is_final (cfg : EngineConfig) (script : list (Tick V)) :
  (∀ more, (supervised cfg script).1 = Resolved →
           supervised cfg (script ++ more) = supervised cfg script) ∧
  (stops (effects (supervised cfg script).2) = [] ∨
   ((supervised cfg script).1 = Resolved ∧
    stops (effects (supervised cfg script).2) = [()])) ∧
  (stopOnCriticalError cfg = true → 0 ≤ maxConsecutiveErrors cfg →
   0 ≤ consecutiveErrors (supervised cfg script).2 ≤ maxConsecutiveErrors cfg * 2 + 1).
Proof.
  destruct (while_running_total cfg script (init_mem cfg)) as (x & m' & Hw).
  rewrite (supervised_eq cfg _ x m' Hw). cbn [fst snd].
  split; [|split].
  - intros more Hx. destruct x; [|done].
    apply (supervised_eq cfg _ Exited). by rewrite while_running_app, Hw.
  - pose proof (while_running_stops_once cfg script (init_mem cfg) eq_refl) as Hs.
    cbv zeta in Hs. rewrite Hw in Hs. cbn [fst snd] in Hs.
    destruct Hs as [Hs|[[= ->] Hs]]; [by left|by right].
  - intros Hs Hmax.
    pose proof (while_running_count cfg script (init_mem cfg) Hs Hmax) as Hc.
    rewrite Hw in Hc. apply Hc. simpl. lia.
Qed.
End LoopInvariants.

Section LoopInvariantsWitnesses.
Import Supervisor.
Local Open Scope Z_scope.

(** Witness of X1: the default configuration, seven failures and a
    success. *)
Lemma loop_counters_in_range_witness :
  in_range default_config
    (runExecutor default_config
       (replicate 7 (call_throws (JsError "boom")) ++ [call_returns])).2.
Proof.
  apply (loop_counters_in_range (V:=nat) default_config). simpl. lia.
Defined.

(** Witness of X2: eleven failures with [stopOnCriticalError], then
    more. *)
Lemma loop_exit_is_final_witness :
  supervised (withStopOnCriticalError true default_config)
    (replicate 11 (call_throws (JsError "boom")) ++ [call_returns]) =
  supervised (withStopOnCriticalError true default_config)
    (replicate 11 (call_throws (JsError "boom"))).
Proof.
  destruct (loop_exit_is_final (V:=nat) (withStopOnCriticalError true default_config)
              (replicate 11 (call_throws (JsError "boom")))) as (H & _).
  apply H. reflexivity.
Defined.
End LoopInvariantsWitnesses.

(** * More about [run] and [stop] *)

Module LifecycleFacts.
Import Channel Engine EngineFacts.

Section Facts.
Context {E A : Type}.
Implicit Types s : State E A.

Lemma run_Ok_runnable self s ts s' : run self s = (Ok ts, s') → runnable s.
Proof.
  rewrite run_spec. unfold runnable. rewrite <- !length_zero_iff_nil.
  repeat (case_decide; [done|]). destruct (running s); [done|]. done.
Qed.

Lemma remove_first_snoc (x : nat) l : x ∉ l → remove_first x (l ++ [x]) = l.
Proof.
  induction l as [|y l IH]; intros Hx; simpl.
  - by rewrite decide_True.
  - apply not_elem_of_cons in Hx as [Hy Hx]. rewrite decide_False by done.
    by rewrite IH.
Qed.

Lemma fresh_lookup {T} (h : gmap nat T) : h !! fresh (dom h) = None.
Proof. apply not_elem_of_dom, is_fresh. Qed.

Lemma closed_subscribe_times {T} n (ch : BroadcastChannel T) :
  closed (subscribe_times n ch) = closed ch.
Proof.
  revert ch. induction n as [|n IH]; intros ch; [done|].
  rewrite subscribe_times_S. by rewrite IH.
Qed.

Lemma all_At now l x : all now l = At x → (now ≤ x)%Z.
Proof.
  revert x. induction l as [|a l IH]; intros x; simpl.
  - intros [= <-]. lia.
  - destruct a as [y|]; [|done]. destruct (all now l) as [z|]; [|done].
    intros [= <-]. specialize (IH z eq_refl). lia.
Qed.

Lemma started_short (ss : list Strategy) e :
  sync_failure ss = Some e → length (started ss) < length ss.
Proof.
  induction ss as [|st ss IH]; simpl; [done|]. unfold syncs.
  destruct (syncState st) as [[[]|e']|]; simpl; intros H; try (apply IH in H); lia.
Qed.



(** The state after a [run] that succeeds and the [stop] that follows,
    written out. *)
Lemma run_stop_spec (self : nat) s ts s1 timeoutMs tasksDone s2 :
  run self s = (Ok ts, s1) →
  stop self timeoutMs tasksDone s1 = (Ok (), s2) →
  let er := fresh (dom (eventHeap s)) in
  let ar := fresh (dom (actionHeap s)) in
  runnable s ∧ sync_failure (strategies s) = None ∧
  ts = run_tasks er ar s ∧
  eventChannel s1 = Some er ∧ actionChannel s1 = Some ar ∧
  collectors s2 = collectors s ∧ strategies s2 = strategies s ∧
  executors s2 = executors s ∧ config s2 = config s ∧
  running s2 = false ∧ tasks s2 = [] ∧
  eventChannel s2 = None ∧ actionChannel s2 = None ∧
  runningEngines s2 = remove_first self (runningEngines s ++ [self]) ∧
  eventHeap s2 =
    alter close er
      (<[er := subscribe_times (strategy_subscriptions (strategies s))
                 (new (eventChannelCapacity (config s))
                      (eventChannelConfig (config s)))]> (eventHeap s)) ∧
  actionHeap s2 =
    alter close ar
      (<[ar := subscribe_times (length (executors s))
                 (new (actionChannelCapacity (config s))
                      (actionChannelConfig (config s)))]> (actionHeap s)).
Proof.
  intros Hrun. pose proof (run_Ok_runnable _ _ _ _ Hrun) as Hok. revert Hrun.
  rewrite run_spec_runnable by done.
  destruct (sync_failure (strategies s)) as [e0|] eqn:Hf; [done|].
  intros [= <- <-]. rewrite stop_spec. cbn [running]. intros [= <-].
  cbn [running runningEngines eventChannel actionChannel tasks collectors strategies
       executors config eventHeap actionHeap].
  split; [done|]. by repeat split.
Qed.

Lemma lookup_closed_new {T} (h : gmap nat (BroadcastChannel T)) ch :
  alter close (fresh (dom h)) (<[fresh (dom h) := ch]> h) !! fresh (dom h) =
    Some (close ch).
Proof. by rewrite lookup_alter_eq, lookup_insert_eq. Qed.

Lemma lookup_closed_old {T} (h : gmap nat (BroadcastChannel T)) ch r' ch' :
  h !! r' = Some ch' →
  r' ≠ fresh (dom h) ∧
  alter close (fresh (dom h)) (<[fresh (dom h) := ch]> h) !! r' = Some ch'.
Proof.
  intros Hch.
  assert (r' ≠ fresh (dom h)) as Hne by (intros ->; by rewrite fresh_lookup in Hch).
  split; [done|]. by rewrite lookup_alter_ne, lookup_insert_ne.
Qed.

(** What the callback of the hard timeout does to the engine it finds. *)
Lemma hardTimeout_spec s :
  hardTimeout s =
    (Ok (),
     {| collectors := collectors s; strategies := strategies s;
        executors := executors s; config := config s; running := running s;
        tasks := []; eventChannel := None; actionChannel := None;
        eventHeap := eventHeap s; actionHeap := actionHeap s;
        runningEngines := runningEngines s; log := log s ++ [CleanedUp] |}).
Proof.
  destruct s. unfold hardTimeout, forceCleanup, cleanupResources, log_event, modify.
  unfold mbind, SE_bind. state_simpl. reflexivity.
Qed.

End Facts.
End LifecycleFacts.

Section Lifecycle.
Import Channel Engine EngineFacts LifecycleFacts.
Context {E A : Type}.
Implicit Types s : State E A.

(** X3: when [run] gets through its checks and then fails (a [syncState]
    hook threw), the engine is left running: it is registered, holds both
    channels, and [this.tasks] has the loops of all executors and of the
    strategies before the failing one, and of no collector.  A second [run]
    is refused with the error of a running engine and changes nothing; a
    [stop] brings the engine back to a state that [run] accepts. *)
Theorem failed_run_leaves_engine_running (self : nat) s e s' :
  runnable s →
  run self s = (Err e, s') →
  running s' = true ∧
  runningEngines s' = runningEngines s ++ [self] ∧
  is_Some (eventChannel s') ∧ is_Some (actionChannel s') ∧
  task_participant <$> tasks s' =
    (PExecutor <$> seq 0 (length (executors s))) ++
    (PStrategy <$> seq 0 (length (started (strategies s)))) ∧
  length (started (strategies s)) < length (strategies s) ∧
  (∀ other, run other s' = (Err (JsError "Engine is already running"), s')) ∧
  (∀ timeoutMs tasksDone,
     ∃ s'', stop self timeoutMs tasksDone s' = (Ok (), s'') ∧
            tasks s'' = [] ∧ runnable s'').
Proof.
  intros Hrun. pose proof Hrun as (Hx & Hc & Hs & Hr).
  rewrite run_spec_runnable by done.
  destruct (sync_failure (strategies s)) as [e0|] eqn:Hf; [|done].
  intros [= <- <-]. cbn [running runningEngines eventChannel actionChannel tasks].
  split; [done|]. split; [done|]. split; [by eexists|]. split; [by eexists|].
  split; [|split; [|split]].
  - unfold run_tasks. rewrite Hf, app_nil_r, fmap_app.
    by rewrite executor_tasks_participants, strategy_tasks_participants.
  - by eapply started_short.
  - intros other. rewrite run_spec. cbn [executors collectors strategies running].
    repeat (case_decide as Hl; [apply length_zero_iff_nil in Hl; done|clear Hl]).
    done.
  - intros timeoutMs tasksDone. rewrite stop_spec. cbn [running].
    eexists. split; [reflexivity|]. split; [done|]. done.
Qed.

(** X4: a [run] that succeeds followed by [stop] gives the engine back as
    it was: not running, no tasks, no channel held, the same participants and
    configuration, and [run] accepts it again; when the engine was not in
    [Engine.runningEngines] before, that list is as before.  The two
    channels made by [run] were new objects and are closed; every channel
    that existed before is untouched. *)
Theorem run_then_stop_restores (self : nat) s ts s1 timeoutMs tasksDone s2 :
  run self s = (Ok ts, s1) →
  stop self timeoutMs tasksDone s1 = (Ok (), s2) →
  runnable s2 ∧
  tasks s2 = [] ∧ eventChannel s2 = None ∧ actionChannel s2 = None ∧
  collectors s2 = collectors s ∧ strategies s2 = strategies s ∧
  executors s2 = executors s ∧ config s2 = config s ∧
  (self ∉ runningEngines s → runningEngines s2 = runningEngines s) ∧
  (∃ er ch, eventChannel s1 = Some er ∧ eventHeap s !! er = None ∧
            eventHeap s2 !! er = Some ch ∧ closed ch = true) ∧
  (∃ ar ch, actionChannel s1 = Some ar ∧ actionHeap s !! ar = None ∧
            actionHeap s2 !! ar = Some ch ∧ closed ch = true) ∧
  (∀ r ch, eventHeap s !! r = Some ch → eventHeap s2 !! r = Some ch) ∧
  (∀ r ch, actionHeap s !! r = Some ch → actionHeap s2 !! r = Some ch).
Proof.
  intros Hrun Hstop.
  destruct (run_stop_spec _ _ _ _ _ _ _ Hrun Hstop)
    as ((Hx & Hc & Hs & _) & _ & _ & Her & Har & Hc2 & Hs2 & Hx2 & Hcfg & Hr2 & Ht2 &
        He2 & Ha2 & Hreg & Heh & Hah).
  split; [unfold runnable; by rewrite Hx2, Hc2, Hs2|].
  do 7 (split; [done|]).
  split; [intros Hself; rewrite Hreg; by apply remove_first_snoc|].
  rewrite Heh, Hah.
  split; [|split; [|split]].
  - eexists _, _. split; [exact Her|]. split; [apply fresh_lookup|].
    split; [apply lookup_closed_new|reflexivity].
  - eexists _, _. split; [exact Har|]. split; [apply fresh_lookup|].
    split; [apply lookup_closed_new|reflexivity].
  - intros r ch Hch. by apply lookup_closed_old.
  - intros r ch Hch. by apply lookup_closed_old.
Qed.

(** X5: the hard timeout of [stop] outlives it.  When the race of a
    [stop] was over before its hard timeout, the engine can be run again at
    once, and that [run] makes two new, open channels and starts the same
    participants.  But the timer of the first [stop] is still set: when
    its callback is due, [forceCleanup] clears the fields of the engine that
    is running again.  The engine then says it is running but holds no
    channel and no task; its new channels are still open; a [run] is refused;
    and a [stop], finding no channel to close, leaves them open. *)
Theorem stale_timeout_wipes_restart (self : nat) s ts s1 timeoutMs tasksDone s2 :
  run self s = (Ok ts, s1) →
  stop self timeoutMs tasksDone s1 = (Ok (), s2) →
  forced timeoutMs tasksDone = false →
  ∃ ts' s3 er' ar' new_e new_a,
    run self s2 = (Ok ts', s3) ∧
    task_participant <$> ts' = task_participant <$> ts ∧
    eventChannel s3 = Some er' ∧ actionChannel s3 = Some ar' ∧
    eventHeap s3 !! er' = Some new_e ∧ closed new_e = false ∧
    actionHeap s3 !! ar' = Some new_a ∧ closed new_a = false ∧
    let s4 := (hardTimeout s3).2 in
    running s4 = true ∧ tasks s4 = [] ∧
    eventChannel s4 = None ∧ actionChannel s4 = None ∧
    eventHeap s4 = eventHeap s3 ∧ actionHeap s4 = actionHeap s3 ∧
    (∀ other, run other s4 = (Err (JsError "Engine is already running"), s4)) ∧
    (∀ timeoutMs' tasksDone',
       ∃ s5, stop self timeoutMs' tasksDone' s4 = (Ok (), s5) ∧
             running s5 = false ∧
             eventHeap s5 !! er' = Some new_e ∧ actionHeap s5 !! ar' = Some new_a).
Proof.
  intros Hrun Hstop _.
  destruct (run_stop_spec _ _ _ _ _ _ _ Hrun Hstop)
    as ((Hx & Hc & Hs & _) & Hf & -> & _ & _ & Hc2 & Hs2 & Hx2 & Hcfg & Hr2 & _).
  assert (runnable s2) as Hok2 by (unfold runnable; by rewrite Hx2, Hc2, Hs2).
  rewrite (run_spec_runnable self s2) by done. rewrite Hs2, Hf.
  eexists _, _, (fresh (dom (eventHeap s2))), (fresh (dom (actionHeap s2))), _, _.
  split; [reflexivity|].
  split.
  { unfold run_tasks. rewrite Hs2, Hx2, Hc2, Hf.
    rewrite !fmap_app, !executor_tasks_participants, !strategy_tasks_participants,
      !collector_tasks_participants. done. }
  cbn [eventChannel actionChannel eventHeap actionHeap].
  split; [done|]. split; [done|].
  split; [apply lookup_insert_eq|]. split; [by rewrite closed_subscribe_times|].
  split; [apply lookup_insert_eq|]. split; [by rewrite closed_subscribe_times|].
  rewrite hardTimeout_spec.
  cbn [snd running tasks eventChannel actionChannel eventHeap actionHeap].
  do 6 (split; [done|]). split.
  - intros other. rewrite run_spec. cbn [executors collectors strategies running].
    rewrite ?Hx2, ?Hc2, ?Hs2.
    repeat (case_decide as Hl; [apply length_zero_iff_nil in Hl; done|clear Hl]).
    done.
  - intros timeoutMs' tasksDone'. rewrite stop_spec. cbn [running].
    eexists. split; [reflexivity|].
    cbn [running eventChannel actionChannel eventHeap actionHeap].
    split; [done|]. split; apply lookup_insert_eq.
Qed.

End Lifecycle.

Section LifecycleWitnesses.
Import Channel Engine EngineFacts.

(** Witness of X3: the second strategy of the example fails to sync. *)
Lemma failed_run_leaves_engine_running_witness :
  running (run 7 example_broken).2 = true.
Proof.
  assert (runnable example_broken) as Hok by (by repeat split).
  destruct (run 7 example_broken) as [[ts|e] s'] eqn:Hrun.
  - exfalso. rewrite (run_spec_runnable 7 example_broken Hok) in Hrun. discriminate.
  - exact (proj1 (failed_run_leaves_engine_running 7 example_broken e s' Hok Hrun)).
Defined.

(** Witness of X4: the example engine, run and stopped with the default
    timeout and tasks that end at once. *)
Lemma run_then_stop_restores_witness :
  runnable (stop 7 5000 (replicate 4 (At 0%Z)) (run 7 example_engine).2).2.
Proof.
  destruct (run 7 example_engine) as [[ts|e] s1] eqn:Hrun.
  - cbn [snd]. destruct (stop 7 5000 (replicate 4 (At 0%Z)) s1) as [[[]|e] s2] eqn:Hstop.
    + exact (proj1 (run_then_stop_restores 7 example_engine ts s1 _ _ s2 Hrun Hstop)).
    + exfalso. rewrite stop_spec in Hstop. destruct (running s1); discriminate.
  - exfalso. rewrite (run_spec_runnable 7 example_engine) in Hrun; [discriminate|].
    by repeat split.
Defined.

(** Witness of X5: the example engine, stopped with the default
    timeout and run again before the five seconds are over. *)
Lemma stale_timeout_wipes_restart_witness :
  eventChannel
    (hardTimeout (run 7 (stop 7 5000 [] (run 7 example_engine).2).2).2).2 = None.
Proof.
  destruct (run 7 example_engine) as [[ts|e] s1] eqn:Hrun.
  - cbn [snd]. destruct (stop 7 5000 [] s1) as [[[]|e] s2] eqn:Hstop.
    + destruct (stale_timeout_wipes_restart 7 example_engine ts s1 5000%Z [] s2
                  Hrun Hstop eq_refl)
        as (ts' & s3 & er' & ar' & ne & na & Hrun' & _ & _ & _ & _ & _ & _ & _ &
            _ & _ & H & _).
      cbn [snd]. rewrite Hrun'. exact H.
    + exfalso. rewrite stop_spec in Hstop. destruct (running s1); discriminate.
  - exfalso. rewrite (run_spec_runnable 7 example_engine) in Hrun; [discriminate|].
    by repeat split.
Defined.

End LifecycleWitnesses.

(** * More about the collector streams *)

Module BufferFacts.
Import StreamFacts.

Section Buffers.
Context {T : Type} (maxQueueSize : nat).
Implicit Types b : Buffer.t T.

Lemma tidy_empty : tidy maxQueueSize (Buffer.empty (T:=T)).
Proof. split; [simpl; lia|]. split; [by left|done]. Qed.

Lemma push_answers item b :
  tidy maxQueueSize b → answers maxQueueSize [] [] b (Buffer.push maxQueueSize item b).
Proof.
  intros (Hlen & Hor & Hdone). unfold answers, Buffer.push.
  destruct (Buffer.resolvers b) as [|resolve rest] eqn:Hr.
  - cbn [fst snd Buffer.queue Buffer.resolvers Buffer.done fmap list_fmap].
    split; [|done]. split; [|split; [by left|done]].
    case_decide as Hc.
    + destruct (Buffer.queue b) as [|x q]; [simpl; lia|].
      simpl in *. rewrite length_app in *. simpl in *. lia.
    + simpl. lia.
  - cbn [fst snd Buffer.queue Buffer.resolvers Buffer.done].
    destruct Hor as [?|Hq]; [done|].
    split; [|by rewrite app_nil_r].
    split; [done|]. split; [by right|].
    intros Hd. by specialize (Hdone Hd).
Qed.

Lemma next_answers pid b :
  tidy maxQueueSize b → answers maxQueueSize [] [pid] b (Buffer.next pid b).
Proof.
  intros Hb. pose proof Hb as (Hlen & Hor & Hdone). unfold answers, Buffer.next.
  destruct (Buffer.done b) eqn:Hd.
  - cbn [fst snd]. split; [done|]. by rewrite (Hdone eq_refl).
  - destruct (Buffer.queue b) as [|item q] eqn:Hq;
      cbn [fst snd Buffer.queue Buffer.resolvers Buffer.done].
    + split; [|by rewrite app_nil_l].
      split; [simpl; lia|]. split; [by right|]. simpl. done.
    + destruct Hor as [Hr|?]; [|done]. rewrite Hr. split; [|done].
      split; [simpl in *; lia|]. split; [by left|done].
Qed.

Lemma finish_answers b :
  tidy maxQueueSize b → answers maxQueueSize [] [] b (Buffer.finish b).
Proof.
  intros (Hlen & Hor & Hdone). unfold answers, Buffer.finish.
  cbn [fst snd Buffer.queue Buffer.resolvers Buffer.done].
  split; [split; [done|split; [by left|done]]|].
  rewrite <- list_fmap_compose, !app_nil_r. apply list_fmap_id.
Qed.

Lemma cleanup_answers b :
  tidy maxQueueSize b → answers maxQueueSize [] [] b (Buffer.cleanup b).
Proof.
  intros (Hlen & Hor & Hdone). unfold answers, Buffer.cleanup, Buffer.clear, Buffer.finish.
  cbn [fst snd Buffer.queue Buffer.resolvers Buffer.done].
  split; [split; [simpl; lia|split; [by left|done]]|].
  rewrite <- list_fmap_compose, !app_nil_r. apply list_fmap_id.
Qed.

Lemma return_answers pid b :
  tidy maxQueueSize b →
  answers maxQueueSize [pid] [] b
    ((Buffer.cleanup b).1, (pid, IterDone) :: (Buffer.cleanup b).2).
Proof.
  intros Hb. destruct (cleanup_answers b Hb) as [Ht Ha]. split; [done|].
  cbn [fst snd app] in *. rewrite fmap_cons. cbn [fst app]. by rewrite Ha.
Qed.

Lemma idle_answers b : tidy maxQueueSize b → answers maxQueueSize [] [] b (b, []).
Proof. intros Hb. split; [done|]. by rewrite app_nil_r. Qed.

(** The same for the items. *)

Lemma kept_empty : kept maxQueueSize [] [] (Buffer.empty (T:=T)).
Proof. split; [constructor|]. split; [by exists []|done]. Qed.

Lemma suffix_of_tail (l k : list T) : l `suffix_of` k → tail l `suffix_of` k.
Proof.
  intros [p ->]. destruct l as [|x l]; [by exists p|].
  exists (p ++ [x]). by rewrite <- app_assoc.
Qed.

Lemma push_kept item arrivals given b :
  tidy maxQueueSize b →
  kept maxQueueSize arrivals given b →
  kept maxQueueSize (arrivals ++ [item])
    (given ++ Buffer.values (Buffer.push maxQueueSize item b).2)
    (Buffer.push maxQueueSize item b).1.
Proof.
  intros (Hlen & Hor & Hdone) (Hsub & Hsuf & Hall). unfold kept, Buffer.push.
  destruct (Buffer.resolvers b) as [|resolve rest] eqn:Hr;
    cbn [fst snd Buffer.queue Buffer.resolvers Buffer.done].
  - cbn [Buffer.values omap list_omap]. rewrite app_nil_r.
    assert (sublist (given ++ Buffer.queue b ++ [item]) (arrivals ++ [item])) as Hs.
    { rewrite app_assoc. by apply sublist_app. }
    assert ((Buffer.queue b ++ [item]) `suffix_of` (arrivals ++ [item])) as Hq.
    { destruct Hsuf as [p Hp]. exists p. by rewrite Hp, app_assoc. }
    case_decide as Hc.
    + split; [|split].
      * etrans; [|exact Hs]. apply sublist_app; [done|].
        destruct (Buffer.queue b ++ [item]) as [|x l]; [done|]. by apply sublist_cons.
      * by apply suffix_of_tail.
      * intros Hd Hn. exfalso.
        specialize (Hall Hd). rewrite !length_app in *. simpl in *.
        assert (length (Buffer.queue b) ≤ length arrivals).
        { destruct Hsuf as [p ->]. rewrite length_app. lia. }
        lia.
    + split; [done|]. split; [done|].
      intros Hd Hn. rewrite length_app in Hn. simpl in Hn.
      rewrite app_assoc, Hall; [done..|lia].
  - destruct Hor as [?|Hq]; [done|]. rewrite Hq in *. rewrite !app_nil_r in *.
    cbn [Buffer.values omap list_omap snd].
    split; [by apply sublist_app|]. split; [by exists (arrivals ++ [item]); rewrite app_nil_r|].
    intros Hd Hn. rewrite length_app in Hn. simpl in Hn. rewrite Hall; [done..|lia].
Qed.

Lemma next_kept pid arrivals given b :
  kept maxQueueSize arrivals given b →
  kept maxQueueSize arrivals (given ++ Buffer.values (Buffer.next pid b).2)
    (Buffer.next pid b).1.
Proof.
  intros (Hsub & Hsuf & Hall). unfold kept, Buffer.next.
  destruct (Buffer.done b) eqn:Hd; cbn [fst snd].
  { cbn [Buffer.values omap list_omap snd]. rewrite app_nil_r, Hd. done. }
  destruct (Buffer.queue b) as [|item q] eqn:Hq;
    cbn [fst snd Buffer.queue Buffer.resolvers Buffer.done Buffer.values omap list_omap].
  - rewrite !app_nil_r in *. done.
  - rewrite <- app_assoc. cbn [app]. split; [done|]. split; [|done].
    destruct Hsuf as [p ->]. exists (p ++ [item]). by rewrite <- app_assoc.
Qed.

Lemma finish_kept arrivals given b :
  kept maxQueueSize arrivals given b →
  kept maxQueueSize arrivals (given ++ Buffer.values (Buffer.finish b).2)
    (Buffer.finish b).1.
Proof.
  intros (Hsub & Hsuf & Hall). unfold kept, Buffer.finish. cbn [fst snd].
  rewrite values_done, app_nil_r. done.
Qed.

Lemma cleanup_kept arrivals given b pid :
  kept maxQueueSize arrivals given b →
  kept maxQueueSize arrivals
    (given ++ Buffer.values ((pid, IterDone) :: (Buffer.cleanup b).2))
    (Buffer.cleanup b).1.
Proof.
  intros (Hsub & Hsuf & Hall). unfold kept, Buffer.cleanup, Buffer.finish, Buffer.clear.
  cbn [fst snd Buffer.queue Buffer.done].
  change (Buffer.values ((pid, IterDone) :: ?l)) with (Buffer.values l).
  rewrite values_done, !app_nil_r.
  split; [|split; [by exists arrivals; rewrite app_nil_r|done]].
  etrans; [|exact Hsub]. by apply sublist_inserts_r.
Qed.

End Buffers.

(** A run of a stream whose steps answer as above. *)
Lemma trace_answers {S O T} (step : O → S → S * list (Buffer.Resolution T))
    (buf : S → Buffer.t T) (call ret nxt : O → option nat) (maxQueueSize : nat) (s : S) :
  (∀ o, option_list (call o) ≡ₚ option_list (ret o) ++ option_list (nxt o)) →
  (∀ s o, tidy maxQueueSize (buf s) →
          answers maxQueueSize (option_list (ret o)) (option_list (nxt o)) (buf s)
            (buf (step o s).1, (step o s).2)) →
  tidy maxQueueSize (buf s) → Buffer.resolvers (buf s) = [] →
  ∀ ops,
    tidy maxQueueSize (buf (run_trace step ops s).1) ∧
    answered_in_turn (omap call ops) (omap nxt ops)
      (fst <$> (run_trace step ops s).2)
      (Buffer.resolvers (buf (run_trace step ops s).1)).
Proof.
  intros Hcall Hstep Hs Hr ops.
  induction ops as [|o ops (IHt & IHp & IHs)] using rev_ind.
  - split; [done|]. unfold answered_in_turn. simpl. rewrite Hr. by split.
  - rewrite run_trace_snoc. cbn [fst snd].
    destruct (Hstep _ o IHt) as [Ht Ha]. cbn [fst snd] in Ha.
    split; [done|]. unfold answered_in_turn.
    rewrite fmap_app, <- app_assoc, Ha, !omap_app.
    assert (∀ f : O → option nat, omap f [o] = option_list (f o)) as Hone
      by (intros f; simpl; by destruct (f o)).
    rewrite !Hone. split.
    + rewrite Hcall, <- IHp.
      rewrite (Permutation_app_comm (option_list (ret o))), <- !app_assoc.
      apply Permutation_app_head, Permutation_app_head, Permutation_app_comm.
    + rewrite !app_assoc. apply sublist_app; [|done].
      etrans; [exact IHs|]. rewrite <- !app_assoc.
      apply sublist_app; [done|]. by apply sublist_inserts_l.
Qed.

Lemma interval_calls o :
  option_list (interval_call o) ≡ₚ
    option_list (interval_return_call o) ++ option_list (interval_next_call o).
Proof. by destruct o. Qed.

Lemma block_bun_calls o :
  option_list (block_bun_call o) ≡ₚ
    option_list (block_bun_return_call o) ++ option_list (block_bun_next_call o).
Proof. by destruct o. Qed.

Lemma ws_calls o :
  option_list (ws_call o) ≡ₚ option_list (ws_return_call o) ++ option_list (ws_next_call o).
Proof. by destruct o. Qed.

Lemma polling_calls o :
  option_list (polling_call o) ≡ₚ
    option_list (polling_return_call o) ++ option_list (polling_next_call o).
Proof. by destruct o. Qed.

Lemma interval_step_answers o (s : IntervalCollectorBun.Stream) :
  tidy 100 s →
  answers 100 (option_list (interval_return_call o)) (option_list (interval_next_call o)) s
    ((IntervalCollectorBun.step o s).1, (IntervalCollectorBun.step o s).2).
Proof.
  intros Hs. rewrite <- surjective_pairing.
  destruct o as [[ts|]| |pid|pid];
    cbn [interval_return_call interval_next_call option_list].
  - by apply push_answers.
  - by apply idle_answers.
  - by apply finish_answers.
  - by apply next_answers.
  - by apply return_answers.
Qed.

Lemma block_bun_step_answers maxQueueSize parse o (s : BlockCollectorBun.Stream) :
  tidy maxQueueSize s →
  answers maxQueueSize (option_list (block_bun_return_call o))
    (option_list (block_bun_next_call o)) s
    ((BlockCollectorBun.step maxQueueSize parse o s).1,
     (BlockCollectorBun.step maxQueueSize parse o s).2).
Proof.
  intros Hs. rewrite <- surjective_pairing.
  destruct o as [[t|m|data|]| |pid|pid];
    cbn [block_bun_return_call block_bun_next_call option_list];
    try (by apply idle_answers).
  - unfold BlockCollectorBun.step, BlockCollectorBun.ipc.
    destruct (parse data); [by apply push_answers|by apply idle_answers].
  - by apply finish_answers.
  - by apply next_answers.
  - by apply return_answers.
Qed.

Lemma ws_step_answers config o (s : BlockCollector.WsStream) :
  tidy (BlockCollector.maxQueueSize config) (BlockCollector.ws_buffer s) →
  answers (BlockCollector.maxQueueSize config) (option_list (ws_return_call o))
    (option_list (ws_next_call o)) (BlockCollector.ws_buffer s)
    (BlockCollector.ws_buffer (BlockCollector.ws_step config o s).1,
     (BlockCollector.ws_step config o s).2).
Proof.
  intros Hs. destruct o as [block|pid|pid];
    cbn [ws_return_call ws_next_call option_list BlockCollector.ws_step].
  - unfold BlockCollector.onBlock.
    destruct (Buffer.done _); [by apply idle_answers|].
    destruct (number block) as [| |n]; [by apply idle_answers|..];
      (destruct (BlockCollector.is_new _ _); [|by apply idle_answers]);
      cbn [fst snd BlockCollector.ws_buffer]; rewrite <- surjective_pairing;
      by apply push_answers.
  - cbn [BlockCollector.ws_next fst snd BlockCollector.ws_buffer].
    rewrite <- surjective_pairing. by apply next_answers.
  - by apply return_answers.
Qed.

Lemma polling_step_answers config o (s : BlockCollector.PollStream) :
  tidy (BlockCollector.maxQueueSize config) (BlockCollector.buffer s) →
  answers (BlockCollector.maxQueueSize config) (option_list (polling_return_call o))
    (option_list (polling_next_call o)) (BlockCollector.buffer s)
    (BlockCollector.buffer (BlockCollector.step config o s).1,
     (BlockCollector.step config o s).2).
Proof.
  intros Hs. destruct o as [|r|pid|pid];
    cbn [polling_return_call polling_next_call option_list BlockCollector.step].
  - unfold BlockCollector.pollBlock_call.
    destruct (BlockCollector.isPolling s || _); by apply idle_answers.
  - unfold BlockCollector.pollBlock_settle.
    destruct (BlockCollector.isPolling s); cbn [negb]; [|by apply idle_answers].
    destruct r as [block|e].
    + assert (BlockCollector.buffer (BlockCollector.reset_backoff config s) =
              BlockCollector.buffer s) as Hb.
      { unfold BlockCollector.reset_backoff.
        by destruct (0 <? BlockCollector.consecutiveErrors s)%Z. }
      revert Hb. generalize (BlockCollector.reset_backoff config s). intros s1 Hb.
      rewrite <- Hb in *.
      destruct (Buffer.done _); [by apply idle_answers|].
      unfold BlockCollector.process.
      destruct (BlockCollector.is_new _ _); [|by apply idle_answers].
      cbn [fst snd BlockCollector.buffer BlockCollector.set_isPolling].
      rewrite <- surjective_pairing. by apply push_answers.
    + destruct (Buffer.done _); [by apply idle_answers|].
      unfold BlockCollector.backoff. destruct (_ && _); by apply idle_answers.
  - cbn [BlockCollector.next fst snd BlockCollector.buffer].
    rewrite <- surjective_pairing. by apply next_answers.
  - by apply return_answers.
Qed.

Lemma interval_step_kept o (s : IntervalCollectorBun.Stream) arrivals given :
  tidy 100 s → kept 100 arrivals given s →
  kept 100 (arrivals ++ option_list (interval_arrival o))
    (given ++ Buffer.values (IntervalCollectorBun.step o s).2)
    (IntervalCollectorBun.step o s).1.
Proof.
  intros Ht Hk. destruct o as [[ts|]| |pid|pid]; cbn [interval_arrival option_list];
    rewrite ?app_nil_r.
  - by apply push_kept.
  - done.
  - by apply finish_kept.
  - by apply next_kept.
  - by apply cleanup_kept.
Qed.

Lemma block_bun_step_kept maxQueueSize parse o (s : BlockCollectorBun.Stream)
    arrivals given :
  tidy maxQueueSize s → kept maxQueueSize arrivals given s →
  kept maxQueueSize (arrivals ++ option_list (block_bun_arrival parse o))
    (given ++ Buffer.values (BlockCollectorBun.step maxQueueSize parse o s).2)
    (BlockCollectorBun.step maxQueueSize parse o s).1.
Proof.
  intros Ht Hk. destruct o as [[t|m|data|]| |pid|pid];
    cbn [block_bun_arrival option_list]; rewrite ?app_nil_r; try done.
  - unfold BlockCollectorBun.step, BlockCollectorBun.ipc.
    destruct (parse data) as [block|]; cbn [option_list]; rewrite ?app_nil_r; [|done].
    by apply push_kept.
  - by apply finish_kept.
  - by apply next_kept.
  - by apply cleanup_kept.
Qed.

Lemma trace_kept {O T}
    (step : O → Buffer.t T → Buffer.t T * list (Buffer.Resolution T))
    (arrival : O → option T) (maxQueueSize : nat) (s : Buffer.t T) :
  (∀ s o arrivals given,
     tidy maxQueueSize s → kept maxQueueSize arrivals given s →
     tidy maxQueueSize (step o s).1 ∧
     kept maxQueueSize (arrivals ++ option_list (arrival o))
       (given ++ Buffer.values (step o s).2) (step o s).1) →
  tidy maxQueueSize s → kept maxQueueSize [] [] s →
  ∀ ops,
    tidy maxQueueSize (run_trace step ops s).1 ∧
    kept maxQueueSize (omap arrival ops) (Buffer.values (run_trace step ops s).2)
      (run_trace step ops s).1.
Proof.
  intros Hstep Ht Hk ops. induction ops as [|o ops [IHt IHk]] using rev_ind; [done|].
  rewrite run_trace_snoc. cbn [fst snd].
  destruct (Hstep _ o _ _ IHt IHk) as [Ht' Hk']. split; [done|].
  rewrite values_app, omap_app. simpl.
  by replace (from_option (λ y, [y]) [] (arrival o)) with (option_list (arrival o))
    by (by destruct (arrival o)).
Qed.

End BufferFacts.

Section StreamBuffers.
Import StreamFacts BufferFacts.

(** X7: in every run of a collector stream the queue never holds more
    than [maxQueueSize] items (100 for the interval stream), and no
    [next()] is left waiting while an item is queued or after the stream is
    done: for [IntervalCollectorBun], [BlockCollectorBun] and the two streams
    of [BlockCollector]. *)
Theorem stream_queue_bounded :
  (∀ ops, tidy 100 (run_trace IntervalCollectorBun.step ops Buffer.empty).1) ∧
  (∀ maxQueueSize parse ops,
     tidy maxQueueSize
       (run_trace (BlockCollectorBun.step maxQueueSize parse) ops Buffer.empty).1) ∧
  (∀ config ops,
     tidy (BlockCollector.maxQueueSize config)
       (BlockCollector.ws_buffer
          (run_trace (BlockCollector.ws_step config) ops BlockCollector.ws_start).1)) ∧
  (∀ config ops,
     tidy (BlockCollector.maxQueueSize config)
       (BlockCollector.buffer
          (run_trace (BlockCollector.step config) ops (BlockCollector.poll_start config)).1)).
Proof.
  split; [|split; [|split]].
  - intros ops.
    apply (trace_answers IntervalCollectorBun.step (λ s, s) interval_call
             interval_return_call interval_next_call 100);
      [apply interval_calls|intros; by apply interval_step_answers|apply tidy_empty|done].
  - intros maxQueueSize parse ops.
    apply (trace_answers (BlockCollectorBun.step maxQueueSize parse) (λ s, s)
             block_bun_call block_bun_return_call block_bun_next_call maxQueueSize);
      [apply block_bun_calls|intros; by apply block_bun_step_answers|apply tidy_empty|done].
  - intros config ops.
    apply (trace_answers (BlockCollector.ws_step config) BlockCollector.ws_buffer
             ws_call ws_return_call ws_next_call (BlockCollector.maxQueueSize config));
      [apply ws_calls|intros; by apply ws_step_answers|apply tidy_empty|done].
  - intros config ops.
    apply (trace_answers (BlockCollector.step config) BlockCollector.buffer
             polling_call polling_return_call polling_next_call
             (BlockCollector.maxQueueSize config));
      [apply polling_calls|intros; by apply polling_step_answers|apply tidy_empty|done].
Qed.


End StreamBuffers.

Section BunStreams.
Import StreamFacts BufferFacts.

(** X9: the two Bun streams make nothing up and keep the order: the items
    given to the consumer followed by the queued ones are among the items
    that arrived from the worker, in their order of arrival; the queue holds
    the latest arrivals; and as long as the stream is not done and no more
    items have arrived than the queue holds, every arrival is either given
    or still queued.  A message that arrives after the cleanup is queued all
    the same, where no [next()] will take it. *)
Theorem bun_streams_keep_arrivals :
  (∀ ops,
     let r := run_trace IntervalCollectorBun.step ops Buffer.empty in
     kept 100 (omap interval_arrival ops) (Buffer.values r.2) r.1) ∧
  (∀ maxQueueSize parse ops,
     let r := run_trace (BlockCollectorBun.step maxQueueSize parse) ops Buffer.empty in
     kept maxQueueSize (omap (block_bun_arrival parse) ops) (Buffer.values r.2) r.1) ∧
  (∀ (s : IntervalCollectorBun.Stream) timestamp,
     Buffer.queue
       (IntervalCollectorBun.ipc (IntervalCollectorBun.Timestamp timestamp)
          (IntervalCollectorBun.cleanup s).1).1 = [timestamp]).
Proof.
  split; [|split].
  - intros ops r.
    apply (trace_kept IntervalCollectorBun.step interval_arrival 100);
      [|apply tidy_empty|apply kept_empty].
    intros s o arrivals given Ht Hk. split.
    + by apply interval_step_answers.
    + by apply interval_step_kept.
  - intros maxQueueSize parse ops r.
    apply (trace_kept (BlockCollectorBun.step maxQueueSize parse)
             (block_bun_arrival parse) maxQueueSize);
      [|apply tidy_empty|apply kept_empty].
    intros s o arrivals given Ht Hk. split.
    + by apply block_bun_step_answers.
    + by apply block_bun_step_kept.
  - done.
Qed.

(** Witness of X9: three timestamps and a read in between. *)
Lemma bun_streams_keep_arrivals_witness :
  Buffer.values
    (run_trace IntervalCollectorBun.step
       [IntervalCollectorBun.Ipc (IntervalCollectorBun.Timestamp "a");
        IntervalCollectorBun.Next 0;
        IntervalCollectorBun.Ipc (IntervalCollectorBun.Timestamp "b");
        IntervalCollectorBun.Ipc (IntervalCollectorBun.Timestamp "c")] Buffer.empty).2 ++
  Buffer.queue
    (run_trace IntervalCollectorBun.step
       [IntervalCollectorBun.Ipc (IntervalCollectorBun.Timestamp "a");
        IntervalCollectorBun.Next 0;
        IntervalCollectorBun.Ipc (IntervalCollectorBun.Timestamp "b");
        IntervalCollectorBun.Ipc (IntervalCollectorBun.Timestamp "c")] Buffer.empty).1 =
    ["a"; "b"; "c"].
Proof.
  destruct bun_streams_keep_arrivals as (H & _).
  destruct (H [IntervalCollectorBun.Ipc (IntervalCollectorBun.Timestamp "a");
               IntervalCollectorBun.Next 0;
               IntervalCollectorBun.Ipc (IntervalCollectorBun.Timestamp "b");
               IntervalCollectorBun.Ipc (IntervalCollectorBun.Timestamp "c")])
    as (_ & _ & Hall).
  apply Hall; [reflexivity|simpl; lia].
Defined.
End BunStreams.

(** * More about the block streams *)

Module BlockFacts.
Import StreamFacts.
Local Open Scope Z_scope.

(** The interval after one more error. *)
Lemma polling_interval_step p n :
  3 ≤ n →
  Z.min (polling_interval p n * 2) 30000 = polling_interval p (n + 1).
Proof.
  intros Hn. unfold polling_interval.
  destruct (Z.leb_spec n 3), (Z.leb_spec (n + 1) 3); try lia.
  - replace (n + 1 - 3) with 1 by lia. rewrite Z.pow_1_r. done.
  - replace (n + 1 - 3) with (Z.succ (n - 3)) by lia.
    rewrite Z.pow_succ_r by lia.
    replace (p * (2 * 2 ^ (n - 3))) with (2 * (p * 2 ^ (n - 3))) by ring.
    lia.
Qed.

Lemma polling_interval_early p n : n ≤ 3 → polling_interval p n = p.
Proof. intros Hn. unfold polling_interval. by destruct (Z.leb_spec n 3); [|lia]. Qed.

Lemma polling_interval_bounds p n :
  0 ≤ p ≤ 30000 → p ≤ polling_interval p n ≤ 30000.
Proof.
  intros Hp. unfold polling_interval. destruct (Z.leb_spec n 3); [lia|].
  assert (0 < 2 ^ (n - 3)) by (apply Z.pow_pos_nonneg; lia). nia.
Qed.

Section Polling.
Variable config : BlockCollector.BlockCollectorConfig.

Lemma reset_backoff_in_step s :
  polling_in_step config s → polling_in_step config (BlockCollector.reset_backoff config s).
Proof.
  intros (Hn & Hc & Hi). unfold BlockCollector.reset_backoff.
  destruct (0 <? BlockCollector.consecutiveErrors s); [|done].
  split; [done|]. split; [done|]. simpl.
  destruct (BlockCollector.intervalId s); [by right|by left].
Qed.

Lemma backoff_in_step s :
  polling_in_step config s → polling_in_step config (BlockCollector.backoff s).
Proof.
  intros (Hn & Hc & Hi). unfold BlockCollector.backoff.
  set (n := BlockCollector.consecutiveErrors s) in *.
  destruct (Z.ltb_spec 3 (n + 1)); cbn [andb].
  - pose proof (polling_interval_step (BlockCollector.pollingIntervalMs config) n) as Hs.
    rewrite <- Hc in Hs.
    destruct (Z.eqb_spec (Z.min (BlockCollector.currentInterval s * 2) 30000)
                (BlockCollector.currentInterval s)) as [Heq|Hne]; cbn [negb].
    + split; [simpl; lia|]. split; [|done]. simpl. rewrite <- Hs by lia. done.
    + split; [simpl; lia|]. split; [simpl; apply Hs; lia|]. simpl.
      destruct (BlockCollector.intervalId s); [by right|by left].
  - split; [simpl; lia|]. split; [|done]. simpl.
    rewrite polling_interval_early by lia. rewrite Hc.
    apply polling_interval_early. lia.
Qed.

Lemma step_in_step o s :
  polling_in_step config s → polling_in_step config (BlockCollector.step config o s).1.
Proof.
  intros Hs. destruct o as [|r|pid|pid]; cbn [BlockCollector.step fst].
  - unfold BlockCollector.pollBlock_call.
    by destruct (BlockCollector.isPolling s || _).
  - unfold BlockCollector.pollBlock_settle.
    destruct (BlockCollector.isPolling s); cbn [negb]; [|done].
    destruct r as [block|e].
    + pose proof (reset_backoff_in_step s Hs) as Hr.
      revert Hr. generalize (BlockCollector.reset_backoff config s). intros s1 Hr.
      destruct (Buffer.done _); [done|].
      unfold BlockCollector.process. by destruct (BlockCollector.is_new _ _).
    + destruct (Buffer.done _); [done|]. by apply backoff_in_step.
  - done.
  - destruct Hs as (Hn & Hc & Hi). split; [done|]. split; [done|]. by left.
Qed.

(** After the cleanup. *)
Lemma step_after_cleanup o s :
  Buffer.done (BlockCollector.buffer s) = true →
  BlockCollector.intervalId s = None →
  Buffer.queue (BlockCollector.buffer s) = [] →
  let s' := (BlockCollector.step config o s).1 in
  Buffer.done (BlockCollector.buffer s') = true ∧
  BlockCollector.intervalId s' = None ∧
  Buffer.queue (BlockCollector.buffer s') = [] ∧
  BlockCollector.lastBlockNumber s' = BlockCollector.lastBlockNumber s ∧
  (BlockCollector.isPolling s = false → BlockCollector.isPolling s' = false).
Proof.
  intros Hd Hi Hq. destruct o as [|r|pid|pid]; cbn [BlockCollector.step fst].
  - unfold BlockCollector.pollBlock_call. rewrite Hd, orb_true_r. by repeat split.
  - unfold BlockCollector.pollBlock_settle.
    destruct (BlockCollector.isPolling s) eqn:Hp; cbn [negb]; [|by repeat split].
    destruct r as [block|e].
    + unfold BlockCollector.reset_backoff.
      destruct (0 <? BlockCollector.consecutiveErrors s);
        cbn [BlockCollector.buffer]; rewrite Hd; simpl; rewrite ?Hi; by repeat split.
    + rewrite Hd. by repeat split.
  - simpl. unfold Buffer.next. rewrite Hd. by repeat split.
  - by repeat split.
Qed.

Lemma ws_step_after_cleanup o s :
  Buffer.done (BlockCollector.ws_buffer s) = true →
  Buffer.queue (BlockCollector.ws_buffer s) = [] →
  BlockCollector.ws_watching s = false →
  let s' := (BlockCollector.ws_step config o s).1 in
  Buffer.done (BlockCollector.ws_buffer s') = true ∧
  Buffer.queue (BlockCollector.ws_buffer s') = [] ∧
  BlockCollector.ws_watching s' = false ∧
  BlockCollector.ws_lastBlockNumber s' = BlockCollector.ws_lastBlockNumber s.
Proof.
  intros Hd Hq Hw. destruct o as [block|pid|pid]; cbn [BlockCollector.ws_step fst].
  - unfold BlockCollector.onBlock. rewrite Hd. by repeat split.
  - simpl. unfold Buffer.next. rewrite Hd. by repeat split.
  - by repeat split.
Qed.

End Polling.

(** The worker looks at the [bigint] of a block, if it has one. *)
Lemma sendBlock_bigint block w :
  BlockCollectorWorker.sendBlock block w =
    match bigint_of (number block) with
    | None => (w, [])
    | Some n =>
        match BlockCollectorWorker.lastBlockNumber w with
        | None => ({| BlockCollectorWorker.lastBlockNumber := Some n |}, [block])
        | Some l =>
            if l <? n then ({| BlockCollectorWorker.lastBlockNumber := Some n |}, [block])
            else (w, [])
        end
    end.
Proof. unfold BlockCollectorWorker.sendBlock. by destruct (number block). Qed.

Lemma bigint_of_Some v n : bigint_of v = Some n ↔ v = Number n.
Proof. destruct v; naive_solver. Qed.

(** The worker: the last number is the highest one seen. *)
Lemma sendBlock_highest blocks :
  highest_number blocks
    (BlockCollectorWorker.lastBlockNumber
       (run_trace BlockCollectorWorker.sendBlock blocks BlockCollectorWorker.start).1).
Proof.
  induction blocks as [|block blocks IH] using rev_ind; [by constructor|].
  rewrite run_trace_snoc. cbn [fst].
  revert IH.
  generalize (run_trace BlockCollectorWorker.sendBlock blocks BlockCollectorWorker.start).1.
  intros w IH. rewrite sendBlock_bigint.
  destruct (bigint_of (number block)) as [n|] eqn:Hb.
  - apply bigint_of_Some in Hb.
    destruct (BlockCollectorWorker.lastBlockNumber w) as [l|] eqn:Hl; simpl in IH.
    + destruct IH as [(b0 & Hin & Hb0) Hall].
      destruct (Z.ltb_spec l n); cbn [fst BlockCollectorWorker.lastBlockNumber].
      * split; [exists block; split; [set_solver|done]|].
        apply Forall_app. split.
        -- eapply Forall_impl; [exact Hall|]. intros b Hm m Hbm. specialize (Hm m Hbm). lia.
        -- apply Forall_singleton. intros m. rewrite Hb. intros [= <-]. lia.
      * rewrite Hl. split; [exists b0; split; [set_solver|done]|].
        apply Forall_app. split; [done|].
        apply Forall_singleton. intros m. rewrite Hb. intros [= <-]. lia.
    + cbn [fst BlockCollectorWorker.lastBlockNumber].
      split; [exists block; split; [set_solver|done]|].
      apply Forall_app. split.
      * eapply Forall_impl; [exact IH|]. intros b Hm m Hbm.
        simpl in Hm. rewrite Hbm in Hm. discriminate Hm.
      * apply Forall_singleton. intros m. rewrite Hb. intros [= <-]. lia.
  - cbn [fst]. destruct (BlockCollectorWorker.lastBlockNumber w) as [l|]; simpl in *.
    + destruct IH as [(b0 & Hin & Hb0) Hall].
      split; [exists b0; split; [set_solver|done]|].
      apply Forall_app. split; [done|]. apply Forall_singleton. intros m Hm.
      rewrite Hm in Hb. discriminate Hb.
    + apply Forall_app. split; [done|]. by apply Forall_singleton.
Qed.

Lemma record_high_snoc blocks block i b :
  record_high (blocks ++ [block]) i b ↔
  record_high blocks i b ∨
  (i = length blocks ∧ b = block ∧
   ∃ n, number block = Number n ∧
        Forall (λ b', ∀ m, number b' = Number m → m < n) blocks).
Proof.
  unfold record_high. split.
  - intros (Hi & n & Hn & Hlt).
    destruct (decide (i < length blocks)%nat) as [Hlen|Hlen].
    + left. rewrite lookup_app_l in Hi by done. split; [done|].
      exists n. split; [done|]. intros j b' m Hj Hb'. apply (Hlt j b' m Hj).
      rewrite lookup_app_l; [done|lia].
    + right. assert (i = length blocks) as ->.
      { apply lookup_lt_Some in Hi. rewrite length_app in Hi. simpl in Hi. lia. }
      rewrite lookup_app_r, Nat.sub_diag in Hi by lia. simplify_eq/=.
      split; [done|]. split; [done|]. exists n. split; [done|].
      apply Forall_lookup. intros j b' Hb' m Hm.
      apply (Hlt j b' m); [by apply lookup_lt_Some in Hb'| |done].
      rewrite lookup_app_l; [done|]. by apply lookup_lt_Some in Hb'.
  - intros [(Hi & n & Hn & Hlt)|(-> & -> & n & Hn & Hall)].
    + split; [apply lookup_app_l_Some; done|]. exists n. split; [done|].
      intros j b' m Hj Hb'. apply (Hlt j b' m Hj).
      apply lookup_lt_Some in Hi. rewrite lookup_app_l in Hb'; [done|lia].
    + split; [by rewrite lookup_app_r, Nat.sub_diag|]. exists n. split; [done|].
      intros j b' m Hj Hb' Hm. rewrite lookup_app_l in Hb' by done.
      rewrite Forall_lookup in Hall. by apply (Hall j b' Hb').
Qed.

End BlockFacts.

Section BlockStreams.
Import StreamFacts BlockFacts.
Local Open Scope Z_scope.

(** X10: the cleanup of a block stream of [BlockCollector] is final for
    its resources.  On the polling stream, whatever comes later (timer
    ticks, the answer of a [getBlock] that was in flight, reads), the timer
    is never set again, nothing is queued, [lastBlockNumber] stays, and no
    new [getBlock] call is started.  On the WebSocket stream a block that
    still arrives changes nothing at all. *)
Theorem cleanup_is_final (config : BlockCollector.BlockCollectorConfig) :
  (∀ s ops,
     let r := run_trace (BlockCollector.step config) ops (BlockCollector.cleanup s).1 in
     BlockCollector.intervalId r.1 = None ∧
     Buffer.queue (BlockCollector.buffer r.1) = [] ∧
     BlockCollector.lastBlockNumber r.1 = BlockCollector.lastBlockNumber s ∧
     (BlockCollector.isPolling s = false → BlockCollector.isPolling r.1 = false)) ∧
  (∀ s ops,
     let r := run_trace (BlockCollector.ws_step config) ops (BlockCollector.cleanupFn s).1 in
     BlockCollector.ws_watching r.1 = false ∧
     Buffer.queue (BlockCollector.ws_buffer r.1) = [] ∧
     BlockCollector.ws_lastBlockNumber r.1 = BlockCollector.ws_lastBlockNumber s ∧
     ∀ block, BlockCollector.onBlock config block r.1 = (r.1, [])).
Proof.
  split.
  - intros s ops r. subst r.
    assert (let s' := (run_trace (BlockCollector.step config) ops
                         (BlockCollector.cleanup s).1).1 in
            Buffer.done (BlockCollector.buffer s') = true ∧
            BlockCollector.intervalId s' = None ∧
            Buffer.queue (BlockCollector.buffer s') = [] ∧
            BlockCollector.lastBlockNumber s' = BlockCollector.lastBlockNumber s ∧
            (BlockCollector.isPolling s = false → BlockCollector.isPolling s' = false))
      as (_ & ? & ? & ? & ?); [|done].
    induction ops as [|o ops (Hd & Hi & Hq & Hl & Hp)] using rev_ind; [done|].
    rewrite run_trace_snoc. cbn [fst].
    destruct (step_after_cleanup config o _ Hd Hi Hq) as (Hd' & Hi' & Hq' & Hl' & Hp').
    split; [done|]. split; [done|]. split; [done|]. split; [congruence|].
    intros H. apply Hp', Hp, H.
  - intros s ops r. subst r.
    assert (let s' := (run_trace (BlockCollector.ws_step config) ops
                         (BlockCollector.cleanupFn s).1).1 in
            Buffer.done (BlockCollector.ws_buffer s') = true ∧
            Buffer.queue (BlockCollector.ws_buffer s') = [] ∧
            BlockCollector.ws_watching s' = false ∧
            BlockCollector.ws_lastBlockNumber s' = BlockCollector.ws_lastBlockNumber s)
      as (Hd & ? & ? & ?).
    { induction ops as [|o ops (Hd & Hq & Hw & Hl)] using rev_ind; [done|].
      rewrite run_trace_snoc. cbn [fst].
      destruct (ws_step_after_cleanup config o _ Hd Hq Hw) as (Hd' & Hq' & Hw' & Hl').
      split; [done|]. split; [done|]. split; [done|]. congruence. }
    split; [done|]. split; [done|]. split; [done|].
    intros block. unfold BlockCollector.onBlock. by rewrite Hd.
Qed.

(** X11: on the polling stream of [BlockCollector] the polling interval
    is a function of the count of consecutive errors, in every run: it is
    the configured interval up to three errors and from the fourth on this
    interval doubled once per further error, capped at 30000 ms; the count is
    never negative, and the timer, until the cleanup, runs at the current
    interval.  For a configured interval between 0 and 30000 ms the current
    one is never shorter than it and never longer than 30000 ms. *)
Theorem polling_backoff (config : BlockCollector.BlockCollectorConfig) ops :
  let s := (run_trace (BlockCollector.step config) ops (BlockCollector.poll_start config)).1 in
  polling_in_step config s ∧
  (BlockCollector.consecutiveErrors s ≤ 3 →
   BlockCollector.currentInterval s = BlockCollector.pollingIntervalMs config) ∧
  (0 ≤ BlockCollector.pollingIntervalMs config ≤ 30000 →
   BlockCollector.pollingIntervalMs config ≤ BlockCollector.currentInterval s ≤ 30000).
Proof.
  intros s.
  assert (polling_in_step config s) as Hs.
  { subst s. induction ops as [|o ops IH] using rev_ind.
    - split; [done|]. split; [done|]. by right.
    - rewrite run_trace_snoc. cbn [fst]. by apply step_in_step. }
  split; [done|]. destruct Hs as (_ & -> & _). split.
  - apply polling_interval_early.
  - apply polling_interval_bounds.
Qed.

(** X12: the worker of [BlockCollectorBun] sends exactly the blocks that
    set a record: a block is sent to the parent if and only if it has a
    number and that number is above the numbers of all the blocks before it;
    and [lastBlockNumber] is the highest number seen so far. *)
Theorem worker_sends_record_blocks (blocks : list Block) :
  let r := run_trace BlockCollectorWorker.sendBlock blocks BlockCollectorWorker.start in
  (∀ b, b ∈ r.2 ↔ ∃ i, record_high blocks i b) ∧
  highest_number blocks (BlockCollectorWorker.lastBlockNumber r.1).
Proof.
  intros r. split; [|apply sendBlock_highest]. subst r.
  induction blocks as [|block blocks IH] using rev_ind.
  - intros b. split; [by intros ?%elem_of_nil|]. by intros (i & Hi & _).
  - intros b. rewrite run_trace_snoc. cbn [snd]. rewrite elem_of_app, IH.
    setoid_rewrite record_high_snoc.
    pose proof (sendBlock_highest blocks) as Hh. revert Hh.
    generalize (run_trace BlockCollectorWorker.sendBlock blocks BlockCollectorWorker.start).1.
    intros w Hh. rewrite sendBlock_bigint.
    destruct (bigint_of (number block)) as [n|] eqn:Hb.
    + apply bigint_of_Some in Hb.
      destruct (BlockCollectorWorker.lastBlockNumber w) as [l|]; simpl in Hh.
      * destruct Hh as [(b0 & Hin & Hb0) Hall].
        destruct (Z.ltb_spec l n); cbn [snd].
        -- split.
           ++ intros [(i & Hi)|Hx%list_elem_of_singleton]; [by exists i; left|subst b].
              exists (length blocks). right. split; [done|]. split; [done|].
              exists n. split; [done|].
              eapply Forall_impl; [exact Hall|]. intros b' Hm m Hbm.
              specialize (Hm m Hbm). lia.
           ++ intros (i & [Hi|(-> & -> & _)]); [left; by exists i|right; set_solver].
        -- split.
           ++ intros [(i & Hi)|Hnil]; [by exists i; left|by apply elem_of_nil in Hnil].
           ++ intros (i & [Hi|(-> & -> & n' & Hn' & Hall')]); [left; by exists i|].
              exfalso. rewrite Forall_forall in Hall'.
              specialize (Hall' b0 Hin l Hb0). rewrite Hb in Hn'.
              injection Hn' as <-. lia.
      * cbn [snd]. split.
        -- intros [(i & Hi)|Hx%list_elem_of_singleton]; [by exists i; left|subst b].
           exists (length blocks). right. split; [done|]. split; [done|].
           exists n. split; [done|].
           eapply Forall_impl; [exact Hh|]. intros b' Hm m Hbm.
           simpl in Hm. rewrite Hbm in Hm. discriminate Hm.
        -- intros (i & [Hi|(-> & -> & _)]); [left; by exists i|right; set_solver].
    + cbn [snd]. split.
      * intros [(i & Hi)|Hnil]; [by exists i; left|by apply elem_of_nil in Hnil].
      * intros (i & [Hi|(-> & -> & n' & Hn' & _)]); [left; by exists i|].
        rewrite Hn' in Hb. discriminate Hb.
Qed.
End BlockStreams.

Section BlockStreamsWitnesses.
Local Open Scope Z_scope.

(** Witness of X10: a polling stream cleaned up while idle. *)
Lemma cleanup_is_final_witness :
  BlockCollector.isPolling
    (run_trace (BlockCollector.step BlockCollector.default_config)
       [BlockCollector.PollCall; BlockCollector.PollSettle (Ok (block_at 9))]
       (BlockCollector.cleanup
          (BlockCollector.poll_start BlockCollector.default_config)).1).1 = false.
Proof.
  destruct (cleanup_is_final BlockCollector.default_config) as (H & _).
  destruct (H (BlockCollector.poll_start BlockCollector.default_config)
              [BlockCollector.PollCall; BlockCollector.PollSettle (Ok (block_at 9))])
    as (_ & _ & _ & Hp).
  apply Hp. reflexivity.
Defined.

(** Witness of X11: five failed polls at the default interval. *)
Lemma polling_backoff_witness :
  1000 ≤ BlockCollector.currentInterval
           (run_trace (BlockCollector.step BlockCollector.default_config)
              (concat (replicate 5 [BlockCollector.PollCall;
                                    BlockCollector.PollSettle (Err (JsError "rpc"))]))
              (BlockCollector.poll_start BlockCollector.default_config)).1 ≤ 30000.
Proof.
  destruct (polling_backoff BlockCollector.default_config
              (concat (replicate 5 [BlockCollector.PollCall;
                                    BlockCollector.PollSettle (Err (JsError "rpc"))])))
    as (_ & _ & H).
  apply H. simpl. lia.
Defined.
End BlockStreamsWitnesses.

(** * The bigints of a block on their way to the parent *)

Module TransportFacts.
Import BlockTransport.

(** No decimal numeral ends in [n]. *)
Lemma string_of_uint_no_n (d : Decimal.uint) (s : string) :
  NilEmpty.string_of_uint d ≠ s +:+ "n".
Proof.
  revert s. induction d as [|d IH|d IH|d IH|d IH|d IH|d IH|d IH|d IH|d IH|d IH];
    intros [|c s]; simpl; try discriminate;
    intros [= _ H]; by apply IH in H.
Qed.

Lemma toString_no_n (z : Z) (s : string) : toString z ≠ s +:+ "n".
Proof.
  unfold toString, NilZero.string_of_int.
  assert (∀ d s, NilZero.string_of_uint d ≠ s +:+ "n") as Hu.
  { intros d s'. unfold NilZero.string_of_uint. destruct d;
      try apply string_of_uint_no_n. by destruct s' as [|c [|c' s']]. }
  destruct (Z.to_int z) as [d|d]; [apply Hu|].
  destruct s as [|c s]; simpl; [discriminate|]. intros [= _ H]. by apply Hu in H.
Qed.

(** What the regular expression accepts. *)
Lemma test_true (s : string) : test s = true → ∃ digits, s = digits +:+ "n".
Proof.
  induction s as [|c s IH]; simpl; [done|].
  intros [_ H]%andb_true_iff. destruct (String.eqb_spec s "n") as [->|_].
  - by exists (String c "").
  - destruct (IH H) as [digits ->]. by exists (String c digits).
Qed.

Lemma is_digit_uint_of_char (c : Ascii.ascii) (d : option Decimal.uint) :
  is_digit c = true → is_Some d → is_Some (uint_of_char c d).
Proof.
  intros Hc [u ->].
  destruct c as [[] [] [] [] [] [] [] []]; try discriminate Hc; by eexists.
Qed.

(** On a string that the regular expression accepts, [BigInt] of the
    slice does not throw. *)
Lemma test_BigInt (s : string) : test s = true → is_Some (BigInt (slice_0_minus_1 s)).
Proof.
  unfold BigInt. intros H. apply fmap_is_Some. revert H.
  induction s as [|c s IH]; [done|]. cbn [test].
  intros [Hc H]%andb_true_iff. destruct (String.eqb_spec s "n") as [->|Hn].
  - change (is_Some (uint_of_char c (Some Decimal.Nil))).
    by apply is_digit_uint_of_char.
  - destruct s as [|c' s]; [done|].
    change (is_Some (uint_of_char c (NilEmpty.uint_of_string
                                       (slice_0_minus_1 (String c' s))))).
    apply is_digit_uint_of_char; [done|]. by apply IH.
Qed.

Lemma slice_snoc (s : string) (c : Ascii.ascii) :
  slice_0_minus_1 (s +:+ String c "") = s.
Proof.
  induction s as [|a s IH]; [done|].
  destruct s as [|b s]; [done|].
  change (String a (slice_0_minus_1 (String b s +:+ String c "")) = String a (String b s)).
  by rewrite IH.
Qed.

Lemma test_cons (c : Ascii.ascii) (s : string) :
  test (String c s +:+ "n") =
    is_digit c && (if String.eqb (s +:+ "n") "n" then true else test (s +:+ "n")).
Proof. reflexivity. Qed.

Lemma test_string_of_uint (d : Decimal.uint) :
  d ≠ Decimal.Nil → test (NilEmpty.string_of_uint d +:+ "n") = true.
Proof.
  induction d as [|d IH|d IH|d IH|d IH|d IH|d IH|d IH|d IH|d IH|d IH]; [done|..];
    intros _; cbn [NilEmpty.string_of_uint]; rewrite test_cons;
    (destruct (String.eqb_spec (NilEmpty.string_of_uint d +:+ "n") "n") as [|Hne];
     [reflexivity|]);
    (rewrite IH; [reflexivity|]); intros ->; done.
Qed.

End TransportFacts.

Section Transport.
Import BlockTransport TransportFacts.
Local Open Scope Z_scope.

(** X13: a bigint of a block does not come back as a bigint.  The worker
    writes it as its decimal digits; the parent turns a string into a bigint
    only when it is digits followed by [n], which the digits alone never
    are: the field arrives as a string, for every bigint.  Had the worker
    written the digits of a bigint that is not negative followed by [n], the
    parent would have read that bigint.  The reviver itself never throws. *)
Theorem bigint_arrives_as_string :
  (∀ z, transport (VBigInt z) = Some (VString (toString z))) ∧
  (∀ z, 0 ≤ z → reviver (VString (toString z +:+ "n")) = Some (VBigInt z)) ∧
  (∀ value, is_Some (reviver value)).
Proof.
  split; [|split].
  - intros z. unfold transport, replacer, reviver.
    destruct (test (toString z)) eqn:Ht; [|done].
    destruct (test_true _ Ht) as [digits Hd]. by apply toString_no_n in Hd.
  - intros z Hz. unfold reviver, toString, BigInt.
    pose proof (DecimalZ.of_to z) as Hof.
    destruct z as [|p|p]; [done| |lia]. simpl in *.
    assert (Pos.to_uint p ≠ Decimal.Nil) as Hnil.
    { intros Hnil. pose proof (DecimalPos.Unsigned.to_uint_nonnil p). done. }
    assert (NilZero.string_of_uint (Pos.to_uint p) =
            NilEmpty.string_of_uint (Pos.to_uint p)) as ->.
    { unfold NilZero.string_of_uint. by destruct (Pos.to_uint p). }
    rewrite test_string_of_uint, slice_snoc, NilEmpty.usu by done.
    simpl. by rewrite Hof.
  - intros [z|s|]; simpl; [done| |done].
    destruct (test s) eqn:Ht; [|done].
    destruct (test_BigInt s Ht) as [z ->]. done.
Qed.

(** Witness of X13: block number 19000000. *)
Lemma bigint_arrives_as_string_witness :
  transport (VBigInt 19000000) = Some (VString "19000000") ∧
  reviver (VString "19000000n") = Some (VBigInt 19000000).
Proof.
  destruct bigint_arrives_as_string as (H1 & H2 & _).
  split; [exact (H1 19000000)|exact (H2 19000000 ltac:(lia))].
Defined.
End Transport.

(** * The SIGINT handlers *)

Module SigintFacts.
Import Sigint.

Lemma withSigintHandler_spec enable s :
  listeners s = (if _sigintHandlerRegistered s then 1 else 0) →
  let s' := withSigintHandler enable s in
  registerSigintHandler_config s' = enable ∧
  _sigintHandlerRegistered s' = _sigintHandlerRegistered s || enable ∧
  listeners s' = (if _sigintHandlerRegistered s' then 1 else 0).
Proof.
  unfold withSigintHandler, registerSigintHandler. simpl.
  destruct enable, (_sigintHandlerRegistered s) eqn:Hr; simpl; rewrite ?Hr; simpl;
    intros ->; done.
Qed.

Lemma configured_snoc flag calls enable :
  configured flag (calls ++ [enable]) = withSigintHandler enable (configured flag calls).
Proof. unfold configured. by rewrite foldl_app. Qed.

End SigintFacts.

Section SigintHandlers.
Import Sigint SigintFacts.

(** X14: an engine puts at most one SIGINT listener on the process,
    however often [withSigintHandler] is called, and never takes it off: the
    listener is there exactly when the option was set at construction or
    some call enabled it, also when the last call disabled it and the
    configuration says so.  [registerGlobalSigintHandler] puts one listener
    on the process the first time and none later; the timeout of later calls
    is dropped. *)
Theorem sigint_handler_registered_once (initial : bool) (calls : list bool) :
  let s := configured initial calls in
  listeners s = (if initial || existsb id calls then 1 else 0) ∧
  _sigintHandlerRegistered s = initial || existsb id calls ∧
  registerSigintHandler_config s = default initial (last calls) ∧
  ∀ timeoutMs timeouts,
    global_listeners
      (foldl (λ g t, registerGlobalSigintHandler t g)
         (registerGlobalSigintHandler timeoutMs global_start) timeouts) = [timeoutMs].
Proof.
  intros s. subst s.
  assert (let s := configured initial calls in
          listeners s = (if _sigintHandlerRegistered s then 1 else 0) ∧
          _sigintHandlerRegistered s = initial || existsb id calls ∧
          registerSigintHandler_config s = default initial (last calls)) as (Hl & Hr & Hc).
  { induction calls as [|enable calls (Hl & Hr & Hc)] using rev_ind.
    - by destruct initial.
    - rewrite configured_snoc.
      destruct (withSigintHandler_spec enable _ Hl) as (Hc' & Hr' & Hl').
      split; [done|]. rewrite Hr', Hr, existsb_app, last_snoc. simpl.
      rewrite orb_false_r, orb_assoc. done. }
  rewrite Hl, Hr. split; [done|]. split; [done|]. split; [done|].
  intros timeoutMs timeouts.
  induction timeouts as [|t timeouts IH] using rev_ind; [done|].
  rewrite foldl_app. simpl. unfold registerGlobalSigintHandler at 1.
  assert (globalSigintHandlerRegistered
            (foldl (λ g t, registerGlobalSigintHandler t g)
               (registerGlobalSigintHandler timeoutMs global_start) timeouts) = true) as ->;
    [|done].
  clear. induction timeouts as [|t timeouts IH] using rev_ind; [done|].
  rewrite foldl_app. simpl. unfold registerGlobalSigintHandler at 1. by rewrite IH.
Qed.
End SigintHandlers.
